(** * Generation lifecycle of the test-assistant back end

    A shallow embedding of the Express routes in [src/routes/generations.js],
    the Mongoose schemas in [src/models/Generation.js] and
    [src/models/Project.js], the project registry in
    [src/utils/projectUtils.js] and the retry loop of the OpenAI service,
    followed by the properties of the generation state machine. The JIRA
    service ([src/services/jiraService.js]), the authentication middleware
    and the keyword decision of the UI detection are embedded as well, each
    with the outside world (the JIRA response, [jwt.verify], the OpenAI
    check) as an argument.

    Conventions.
    - Strings are sequences of 8-bit code units (the Latin-1 range of
      JavaScript's UTF-16 code units).
    - [undefined] and [null] fields are [None]; an [email] that is absent
      (a verified token need not carry one) is the empty string.
    - Every route handler is a function [store -> store * response]; what the
      outside world answers (clock, JIRA, the OpenAI API) is an argument.
    - Floating-point fields ([cost], [generationTimeSeconds]) are left out:
      no route branches on them.
    - Mongoose is taken at its documented behaviour: a value assigned to a
      [String] path is cast to a string, [save] runs the [required] and
      [enum] validators and rejects on failure, and [findById(undefined)]
      finds nothing. *)

From Stdlib Require Import ZArith Lia Ascii String.
From stdpp Require Import base option list gmap strings pretty sorting.

Local Open Scope Z_scope.
Local Open Scope string_scope.

(** ** JavaScript primitives used by the routes *)

Module Js.

(** The primitive values the handlers compare with [===]. *)
Inductive value :=
| Undefined
| Null
| Bool (b : bool)
| Num (n : Z)
| Str (s : string).

(** [a === b]: no coercion, operands of different types are never equal. *)
Definition strict_eq (a b : value) : bool :=
  match a, b with
  | Undefined, Undefined => true
  | Null, Null => true
  | Bool x, Bool y => Bool.eqb x y
  | Num x, Num y => Z.eqb x y
  | Str x, Str y => String.eqb x y
  | _, _ => false
  end.

(** [String(n)] for an integral number: its decimal numeral. This is the
    cast Mongoose applies to a number stored in a [String] path. *)
Definition to_string (n : Z) : string := pretty n.

(** [n || d] on numbers: [0] is falsy. *)
Definition num_or (n d : Z) : Z := if Z.eqb n 0 then d else n.

(** Truthiness of a string: only the empty string is falsy. *)
Definition truthy_str (s : string) : bool := negb (String.eqb s "").

(** [s || d] on strings. *)
Definition str_or (s d : string) : string := if truthy_str s then s else d.

Definition code (c : ascii) : N := N_of_ascii c.

(** WhiteSpace and LineTerminator code units below 256. *)
Definition is_whitespace (c : ascii) : bool :=
  let n := code c in
  (N.leb 9 n && N.leb n 13) || N.eqb n 32 || N.eqb n 160.

Fixpoint trimStart (s : string) : string :=
  match s with
  | String c s' => if is_whitespace c then trimStart s' else s
  | EmptyString => EmptyString
  end.

Definition trimEnd (s : string) : string :=
  String.rev (trimStart (String.rev s)).

Definition trim (s : string) : string := trimEnd (trimStart s).

Definition is_upper (c : ascii) : bool := N.leb 65 (code c) && N.leb (code c) 90.
Definition is_lower (c : ascii) : bool := N.leb 97 (code c) && N.leb (code c) 122.
Definition is_digit (c : ascii) : bool := N.leb 48 (code c) && N.leb (code c) 57.

(** [toUpperCase] as it acts on ASCII strings: a-z move to A-Z. The
    routes apply it to project keys, which are ASCII letters and digits;
    it is not the method on other strings (see [JiraService.toUpperCase]
    for the capitals beyond ASCII). *)
Definition upper_char (c : ascii) : ascii :=
  if is_lower c then ascii_of_N (code c - 32) else c.

Fixpoint toUpperCase (s : string) : string :=
  match s with
  | String c s' => String (upper_char c) (toUpperCase s')
  | EmptyString => EmptyString
  end.

(** [s.startsWith(p)] *)
Definition startsWith (s p : string) : bool := String.prefix p s.

End Js.

(** ** Data model: [src/models/Generation.js], [src/models/Project.js] *)

(** ObjectIds are drawn from a counter kept in the store. *)
Definition oid := nat.

(** A [Date], as milliseconds since the epoch. *)
Definition date := Z.

(** [markdownSchema] *)
Record markdown := Markdown {
  content : string;      (* String, required *)
  filename : string      (* String, required *)
}.

(** [versionSchema]. [versionNumber] is a [String] path: the number the
    route pushes is cast to its numeral when the sub-document is built. *)
Record version := Version {
  versionNumber : string;   (* String, required *)
  v_content : string;       (* String, required *)
  releaseDate : date;       (* Date, default Date.now *)
  updatedBy : string;       (* String, required *)
  notes : option string
}.

(** [tokenUsage] *)
Record token_usage := TokenUsage {
  promptTokens : Z;
  completionTokens : Z;
  totalTokens : Z
}.

(** [generationSchema]. [status] and [mode] are [String] paths with an
    [enum] validator and no default. The [updatedAt] that Mongoose keeps
    beside these fields ([timestamps: true]) and moves with every modifying
    save is not carried; no statement below speaks of it. *)
Record generation := Generation {
  issueKey : string;
  email : string;
  project : option oid;
  mode : option string;           (* enum ['manual', 'auto'] *)
  status : option string;         (* enum ['completed', 'failed'] *)
  createdAt : date;               (* default Date.now *)
  startedAt : option date;
  completedAt : option date;
  tokenUsage : option token_usage;
  result : option markdown;       (* result.markdown *)
  error : option string;
  published : bool;               (* default false *)
  publishedAt : option date;
  publishedBy : option string;
  versions : list version;
  currentVersion : Z              (* Number, default 1 *)
}.

(** [projectSchema] *)
Record project_doc := Project {
  p_id : oid;
  projectKey : string;            (* required, unique, uppercase *)
  firstGeneratedAt : option date;
  lastGeneratedAt : option date;
  totalGenerations : Z;           (* default 0 *)
  createdBy : option string
}.

(** The two collections and the ObjectId counter. *)
Record store := Store {
  generations : gmap oid generation;
  projects : list project_doc;
  next_oid : oid
}.

Definition empty_store : store :=
  {| generations := ∅; projects := []; next_oid := 0%nat |}.

(** Field updates, as the handlers assign them. *)
Definition with_outcome (g : generation) (st : string) (err : option string)
    (done : date) : generation :=
  {| issueKey := issueKey g; email := email g; project := project g;
     mode := mode g; status := Some st; createdAt := createdAt g;
     startedAt := startedAt g; completedAt := Some done;
     tokenUsage := tokenUsage g; result := result g; error := err;
     published := published g; publishedAt := publishedAt g;
     publishedBy := publishedBy g; versions := versions g;
     currentVersion := currentVersion g |}.

Definition with_completion (g : generation) (done : date)
    (usage : option token_usage) (md : markdown) : generation :=
  {| issueKey := issueKey g; email := email g; project := project g;
     mode := mode g; status := Some "completed"; createdAt := createdAt g;
     startedAt := startedAt g; completedAt := Some done;
     tokenUsage := usage; result := Some md; error := error g;
     published := published g; publishedAt := publishedAt g;
     publishedBy := publishedBy g; versions := [];
     currentVersion := 1 |}.

Definition with_content (g : generation) (vs : list version) (cv : Z)
    (md : markdown) : generation :=
  {| issueKey := issueKey g; email := email g; project := project g;
     mode := mode g; status := status g; createdAt := createdAt g;
     startedAt := startedAt g; completedAt := completedAt g;
     tokenUsage := tokenUsage g; result := Some md; error := error g;
     published := published g; publishedAt := publishedAt g;
     publishedBy := publishedBy g; versions := vs;
     currentVersion := cv |}.

Definition with_published (g : generation) (p : bool) (at_ : option date)
    (by_ : option string) : generation :=
  {| issueKey := issueKey g; email := email g; project := project g;
     mode := mode g; status := status g; createdAt := createdAt g;
     startedAt := startedAt g; completedAt := completedAt g;
     tokenUsage := tokenUsage g; result := result g; error := error g;
     published := p; publishedAt := at_; publishedBy := by_;
     versions := versions g; currentVersion := currentVersion g |}.

(** ** Schema validation, run by [save] *)

(** [enum]: an absent value passes, a present one must be listed. *)
Definition enum (allowed : list string) (v : option string) : bool :=
  match v with
  | None => true
  | Some x => bool_decide (x ∈ allowed)
  end.

(** [required] on a [String] path: absent and empty both fail. *)
Definition required (s : string) : bool := Js.truthy_str s.

Definition validate_markdown (m : markdown) : bool :=
  required (content m) && required (filename m).

Definition validate_version (v : version) : bool :=
  required (versionNumber v) && required (v_content v) && required (updatedBy v).

Definition validate (g : generation) : bool :=
  enum ["manual"; "auto"] (mode g)
  && enum ["completed"; "failed"] (status g)
  && from_option validate_markdown true (result g)
  && forallb validate_version (versions g).

(** [await generation.save()]: [None] is the rejected promise
    (ValidationError), which leaves the collection as it was. *)
Definition save (id : oid) (g : generation) (s : store) : option store :=
  if validate g
  then Some {| generations := <[id := g]> (generations s);
               projects := projects s; next_oid := next_oid s |}
  else None.

Definition findById (id : oid) (s : store) : option generation :=
  generations s !! id.

(** [Generation.findByIdAndDelete(id)] *)
Definition findByIdAndDelete (id : oid) (s : store) : store :=
  {| generations := delete id (generations s);
     projects := projects s; next_oid := next_oid s |}.

(** [Generation.countDocuments({ project })] *)
Definition countDocuments (p : option oid) (s : store) : Z :=
  Z.of_nat (length (filter (λ kv, project kv.2 = p) (map_to_list (generations s)))).

(** ** Project registry: [src/utils/projectUtils.js] *)

Definition is_alpha (c : ascii) : bool := Js.is_upper c || Js.is_lower c.
Definition is_alnum (c : ascii) : bool := is_alpha c || Js.is_digit c.

(** The longest prefix of letters and digits, and what follows it. *)
Fixpoint span_alnum (s : string) : string * string :=
  match s with
  | String c s' =>
      if is_alnum c
      then let '(run, rest) := span_alnum s' in (String c run, rest)
      else (EmptyString, s)
  | EmptyString => (EmptyString, EmptyString)
  end.

(** [issueKey.match(/^([A-Z][A-Z0-9]+)-/i)], then [match[1].toUpperCase()].
    The class after the first letter is greedy and a dash is not in it, so
    the group is the first letter with the longest run behind it. *)
Definition extractProjectKey (issueKey : string) : option string :=
  match issueKey with
  | String c s' =>
      if is_alpha c then
        match span_alnum s' with
        | (String d run, String dash _) =>
            if Ascii.eqb dash "-"
            then Some (Js.toUpperCase (String c (String d run)))
            else None
        | _ => None
        end
      else None
  | EmptyString => None
  end.

Definition findOne_project (key : string) (s : store) : option project_doc :=
  List.find (λ p, String.eqb (projectKey p) key) (projects s).

Definition findById_project (id : option oid) (s : store) : option project_doc :=
  match id with
  | Some i => List.find (λ p, Nat.eqb (p_id p) i) (projects s)
  | None => None          (* findById(undefined) looks for _id: null *)
  end.

Definition save_project (p : project_doc) (s : store) : store :=
  {| generations := generations s;
     projects :=
       if existsb (λ q, Nat.eqb (p_id q) (p_id p)) (projects s)
       then map (λ q, if Nat.eqb (p_id q) (p_id p) then p else q) (projects s)
       else (projects s ++ [p])%list;
     next_oid := next_oid s |}.

Definition fresh_oid (s : store) : oid * store :=
  (next_oid s,
   {| generations := generations s; projects := projects s;
      next_oid := S (next_oid s) |}).

(** [findOrCreateProject(projectKey, userEmail)]: the settled value of the
    promise the async function returns, and the registry afterwards. *)
Definition findOrCreateProject (key userEmail : string) (now : date)
    (s : store) : store * (string + project_doc) :=
  if negb (Js.truthy_str key)
  then (s, inl "Project key is required to find or create a project.")
  else
    let normalizedKey := Js.toUpperCase (Js.trim key) in
    match findOne_project normalizedKey s with
    | None =>
        let '(i, s1) := fresh_oid s in
        let p := {| p_id := i; projectKey := normalizedKey;
                    firstGeneratedAt := Some now; lastGeneratedAt := Some now;
                    totalGenerations := 0; createdBy := Some userEmail |} in
        if required normalizedKey
        then (save_project p s1, inr p)
        else (s1, inl "Project validation failed: projectKey: Path `projectKey` is required.")
    | Some p =>
        let p' := {| p_id := p_id p; projectKey := projectKey p;
                     firstGeneratedAt := firstGeneratedAt p;
                     lastGeneratedAt := Some now;
                     totalGenerations := totalGenerations p;
                     createdBy := createdBy p |} in
        (save_project p' s, inr p')
    end.

(** ** Control flow of a loop body *)

(** How a block of statements ends: it falls through, returns or throws.
    The loop state is carried in every case. *)
Inductive completion (S R : Type) :=
| Normal (s : S)
| Return (s : S) (r : R)
| Throw (s : S) (message : string).
Arguments Normal {S R} s.
Arguments Return {S R} s r.
Arguments Throw {S R} s message.

(** [while (cond) { body }], with a bound on the number of rounds. *)
Fixpoint while {S R : Type} (fuel : nat) (cond : S → bool)
    (body : S → completion S R) (s : S) : option (completion S R) :=
  match fuel with
  | O => None
  | Datatypes.S fuel' =>
      if cond s then
        match body s with
        | Normal s' => while fuel' cond body s'
        | Return s' r => Some (Return s' r)
        | Throw s' e => Some (Throw s' e)
        end
      else Some (Normal s)
  end.

(** ** The OpenAI service *)

Module OpenAIService.

(** What one [client.chat.completions.create] call does: it resolves with
    [choices[0]?.message?.content || ''] and the token counts
    ([|| 0] applied), or it rejects with an error message. *)
Inductive api_outcome :=
| Resolves (text : string) (usage : token_usage)
| Rejects (message : string).

(** The API seen from the service: system prompt, user message and the
    index of the call decide the outcome. *)
Definition client := string → string → nat → api_outcome.

(** Module-level bindings of the service file. [MANUAL_PROMPT] is a
    template literal. [AUTO_PROMPT] is read by [generateTestCases] and the
    file has no declaration for it: [None] is the unresolved identifier,
    whose evaluation throws a ReferenceError. *)
Record bindings := Bindings {
  MANUAL_PROMPT : string;
  AUTO_PROMPT : option string
}.

(** [this.maxRetries = 3], set by the constructor. *)
Definition maxRetries : nat := 3.

(** Locals of the retry loop, and the number of API calls made so far. *)
Record loop_state := LoopState {
  retryCount : nat;
  lastError : option string;
  calls : nat
}.

(** [{ content, tokenUsage, cost }] without the floating-point cost. *)
Record generated := Generated {
  g_content : string;
  g_tokenUsage : token_usage
}.

(** The [try] block inside the loop. *)
Definition attempt (api : client) (systemPrompt userMessage : string)
    (st : loop_state) : completion loop_state generated :=
  let st' := {| retryCount := retryCount st; lastError := lastError st;
                calls := S (calls st) |} in
  match api systemPrompt userMessage (calls st) with
  | Resolves text usage =>
      if negb (Js.truthy_str text)
      then Throw st' "Empty response from OpenAI"
      else Return st' {| g_content := text; g_tokenUsage := usage |}
  | Rejects message => Throw st' message
  end.

(** The body of [while (retryCount < this.maxRetries)]: the [try], its
    [catch], and the [throw] statement that follows them inside the
    loop. *)
Definition loop_body (api : client) (systemPrompt userMessage : string)
    (st : loop_state) : completion loop_state generated :=
  match attempt api systemPrompt userMessage st with
  | Return st1 r => Return st1 r
  | Normal st1 => Normal st1
  | Throw st1 error =>
      (* catch (error) *)
      let st2 := {| retryCount := S (retryCount st1);
                    lastError := Some error;
                    calls := calls st1 |} in
      if Nat.eqb (retryCount st2) maxRetries
      then Throw st2 error
      else
        (* throw lastError || new Error('OpenAI generation failed') *)
        Throw st2 (default "OpenAI generation failed" (lastError st2))
  end.

Definition newline : string := String (ascii_of_nat 10) EmptyString.

(** [generateTestCases(context, issueKey, autoMode)]. The outer
    [try]/[catch] logs and rethrows. The result is the number of API calls
    made and either the error message thrown or the value returned
    ([None] for [undefined], when the loop is left without a [return]). *)
Definition generateTestCases (b : bindings) (api : client)
    (context issueKey : string) (autoMode : bool)
    : option (nat * (string + option generated)) :=
  match (if autoMode then AUTO_PROMPT b else Some (MANUAL_PROMPT b)) with
  | None => Some (0%nat, inl "AUTO_PROMPT is not defined")
  | Some systemPrompt =>
      let issueContext :=
        newline +:+ newline +:+ "### JIRA Issue: " +:+ issueKey
        +:+ newline +:+ newline +:+ context in
      let init := {| retryCount := 0; lastError := None; calls := 0 |} in
      match while (S maxRetries)
              (λ st, Nat.ltb (retryCount st) maxRetries)
              (loop_body api systemPrompt issueContext) init with
      | None => None
      | Some (Return st r) => Some (calls st, inr (Some r))
      | Some (Throw st e) => Some (calls st, inl e)
      | Some (Normal st) => Some (calls st, inr None)
      end
  end.

End OpenAIService.

(** ** The JIRA service, at its boundary *)

(** [jira.getIssue(issueKey)]: [{ success: true, issue }] with
    [fields.summary || ""] and the text of [fields.description], or
    [{ success: false, error }]. *)
Inductive issue_result :=
| IssueFound (summary description : string)
| IssueFailed (error : string).

(** ** The routes: [src/routes/generations.js] *)

(** The [data] object of the view route (timestamps of Mongoose's own
    bookkeeping left out). *)
Record view_data := ViewData {
  vd_email : string;
  vd_content : string;
  vd_filename : string;
  vd_issueKey : string;
  vd_projectKey : option string;
  vd_published : bool;
  vd_publishedAt : option date;
  vd_publishedBy : option string;
  vd_currentVersion : Z;
  vd_versions : list version;
  vd_lastUpdatedBy : string
}.

(** What a handler sends. *)
Inductive payload :=
| Failure (error : string)                       (* { success: false, error } *)
| Generated (generationId : oid) (key : string) (md : markdown)
| Viewed (data : view_data)
| ContentUpdated (new_content : string) (version_now : Z)
| PublishState (p : bool) (at_ : option date) (by_ : option string)
| Message (message : string)                     (* { success: true, message } *)
| Attachment (name text : string).               (* res.send with headers *)

Record response := Response { code : nat; sent : payload }.

(** [next(error)]: the error handler of the application answers
    [err.status || 500] with the message. *)
Definition next (message : string) : response :=
  {| code := 500; sent := Failure message |}.

Definition validation_failed : string := "Generation validation failed".

Definition status_value (g : generation) : Js.value :=
  match status g with
  | Some st => Js.Str st
  | None => Js.Undefined
  end.

(** [gen.status === "completed"] *)
Definition is_completed (g : generation) : bool :=
  Js.strict_eq (status_value g) (Js.Str "completed").

(** [gen.result?.markdown?.content || ""] *)
Definition current_content (g : generation) : string :=
  match result g with
  | Some m => content m
  | None => ""
  end.

(** *** POST /testcases *)

(** The request body: [{ issueKey, autoMode = false }]. *)
Record create_request := CreateRequest {
  body_issueKey : option string;
  body_autoMode : bool
}.

(** What the outside world answers during one request. *)
Record world := World {
  now : date;              (* the clock when the record is built *)
  finished : date;         (* the clock when the external calls are over *)
  jira : option (string → issue_result);
                           (* [None]: the JiraService constructor throws *)
  openai : option OpenAIService.client;
                           (* [None]: the OpenAIService constructor throws *)
  prompts : OpenAIService.bindings
}.

(** What the local [project] holds: [null], a project document, or the
    promise object an async function hands back when it is called without
    [await]. *)
Inductive project_ref :=
| NoProject
| Document (p : project_doc)
| PromiseOf (settled : string + project_doc).

Definition ref_truthy (r : project_ref) : bool :=
  match r with
  | NoProject => false
  | Document _ | PromiseOf _ => true
  end.

(** [project._id]: a promise object has no such property. *)
Definition ref_id (r : project_ref) : option oid :=
  match r with
  | Document p => Some (p_id p)
  | NoProject | PromiseOf _ => None
  end.

(** [project = findOrCreateProject(projectKey, req.user.email)] inside
    [if (projectKey)]. The registry effect of the call is applied here; the
    handler never reads the registry by key afterwards. The call is async,
    so nothing is thrown into the surrounding [try]. *)
Definition attach_project (actor key : string) (t : date) (s : store)
    : store * project_ref :=
  match extractProjectKey key with
  | Some projectKey =>
      let '(s1, settled) := findOrCreateProject projectKey actor t s in
      (s1, PromiseOf settled)
  | None => (s, NoProject)
  end.

(** [new Generation({ issueKey, email, project, mode: "manual", startedAt })]
    with the schema defaults. *)
Definition new_generation (actor key : string) (r : project_ref) (t : date)
    : generation :=
  {| issueKey := key; email := actor;
     project := if ref_truthy r then ref_id r else None;
     mode := Some "manual"; status := None; createdAt := t;
     startedAt := Some t; completedAt := None; tokenUsage := None;
     result := None; error := None; published := false;
     publishedAt := None; publishedBy := None; versions := [];
     currentVersion := 1 |}.

(** The block under [// Update project stats]. *)
Definition update_project_stats (r : project_ref) (s : store) : store :=
  if ref_truthy r then
    match findById_project (ref_id r) s with
    | Some updatedProject =>
        save_project
          {| p_id := p_id updatedProject;
             projectKey := projectKey updatedProject;
             firstGeneratedAt := firstGeneratedAt updatedProject;
             lastGeneratedAt := lastGeneratedAt updatedProject;
             totalGenerations := countDocuments (ref_id r) s;
             createdBy := createdBy updatedProject |} s
    | None => s
    end
  else s.

(** Everything the handler does before it turns to JIRA and OpenAI: the
    store at the moment the external calls begin, the id and the record. *)
Definition persist_new (actor key : string) (t : date) (s : store)
    : store * option (oid * generation) :=
  let '(s1, r) := attach_project actor key t s in
  let '(id, s2) := fresh_oid s1 in
  let g := new_generation actor key r t in
  match save id g s2 with
  | Some s3 => (update_project_stats r s3, Some (id, g))
  | None => (s2, None)
  end.

(** The inner [try] block: the number of API calls, and the markdown with
    the token usage or the message of what was thrown. The service returns
    an object or nothing, never a string, so the branch for
    [typeof result === "string"] is not taken. *)
Definition generate_markdown (w : world) (key summary context : string)
    (autoMode : bool) : option (nat * (string + (string * token_usage))) :=
  match openai w with
  | None =>
      Some (0%nat,
            inl "OpenAI service not configured. Please set OPENAI_API_KEY in .env")
  | Some api =>
      match OpenAIService.generateTestCases (prompts w) api context key autoMode with
      | None => None
      | Some (n, inl message) => Some (n, inl message)
      | Some (n, inr None) =>
          Some (n, inl "Cannot read properties of undefined (reading 'content')")
      | Some (n, inr (Some r)) =>
          let markdownContent := OpenAIService.g_content r in
          let titled :=
            if negb (Js.startsWith markdownContent "#")
            then "# Test Cases for " +:+ key +:+ ": "
                 +:+ Js.str_or summary "Untitled"
                 +:+ OpenAIService.newline +:+ OpenAIService.newline
                 +:+ markdownContent
            else markdownContent in
          Some (n, inr (titled, OpenAIService.g_tokenUsage r))
      end
  end.

(** [generation.save()] followed by the answer; a rejected save goes to
    [next]. *)
Definition save_and_send (id : oid) (g : generation) (r : response)
    (s : store) : store * response :=
  match save id g s with
  | Some s' => (s', r)
  | None => (s, next validation_failed)
  end.

(** The rest of the handler, from [jira.getIssue] on. *)
Definition run_generation (w : world) (autoMode : bool) (id : oid)
    (g : generation) (s : store) : option (store * response) :=
  let key := issueKey g in
  match jira w with
  | None =>
      Some (s, next "JIRA_EMAIL and JIRA_API_TOKEN must be set in environment variables")
  | Some getIssue =>
      match getIssue key with
      | IssueFailed err =>
          Some (save_and_send id
                  (with_outcome g "failed"
                     (Some (Js.str_or err "Failed to fetch issue from JIRA"))
                     (finished w))
                  {| code := 404; sent := Failure err |} s)
      | IssueFound summary description =>
          let context :=
            "Title: " +:+ summary +:+ OpenAIService.newline
            +:+ OpenAIService.newline +:+ "Description: " +:+ description in
          match generate_markdown w key summary context autoMode with
          | None => None
          | Some (_, inl message) =>
              Some (save_and_send id
                      (with_outcome g "failed"
                         (Some ("OpenAI generation failed: " +:+ message))
                         (finished w))
                      {| code := 500;
                         sent := Failure (Js.str_or message "Failed to generate test cases") |}
                      s)
          | Some (_, inr (markdownContent, usage)) =>
              let md := {| content := markdownContent;
                           filename := key +:+ "_testcases_" +:+ pretty id +:+ ".md" |} in
              Some (save_and_send id
                      (with_completion g (finished w) (Some usage) md)
                      {| code := 200; sent := Generated id key md |} s)
          end
      end
  end.

Definition post_testcases (actor : string) (req : create_request) (w : world)
    (s : store) : option (store * response) :=
  match body_issueKey req with
  | Some key =>
      if Js.truthy_str key then
        match persist_new actor key (now w) s with
        | (s1, Some (id, g)) => run_generation w (body_autoMode req) id g s1
        | (s1, None) => Some (s1, next validation_failed)
        end
      else Some (s, {| code := 400; sent := Failure "issueKey is required" |})
  | None => Some (s, {| code := 400; sent := Failure "issueKey is required" |})
  end.

(** *** GET /:id/view and GET /:id/download *)

Definition not_found (message : string) : response :=
  {| code := 404; sent := Failure message |}.

Definition bad_request (message : string) : response :=
  {| code := 400; sent := Failure message |}.

Definition ok (p : payload) : response := {| code := 200; sent := p |}.

(** [gen.email === req.user.email] *)
Definition isOwner (actor : string) (gen : generation) : bool :=
  String.eqb (email gen) actor.

(** [gen.published && gen.status === "completed"] *)
Definition isPublishedAndCompleted (gen : generation) : bool :=
  published gen && is_completed gen.

Definition get_view (actor : string) (id : oid) (s : store) : response :=
  match findById id s with
  | None => not_found "Generation not found!"
  | Some gen =>
      if negb (isOwner actor gen) && negb (isPublishedAndCompleted gen)
      then not_found "Not found!"
      else if negb (is_completed gen)
      then bad_request "Generation not completed yet"
      else
        let latestVersion := last (versions gen) in
        ok (Viewed
              {| vd_email := email gen;
                 vd_content := current_content gen;
                 vd_filename :=
                   Js.str_or (from_option filename "" (result gen)) "output.md";
                 vd_issueKey := issueKey gen;
                 vd_projectKey :=
                   if Js.truthy_str (issueKey gen)
                   then extractProjectKey (issueKey gen) else None;
                 vd_published := published gen;
                 vd_publishedAt := publishedAt gen;
                 vd_publishedBy := publishedBy gen;
                 vd_currentVersion := currentVersion gen;
                 vd_versions := versions gen;
                 vd_lastUpdatedBy :=
                   Js.str_or (from_option updatedBy "" latestVersion) (email gen) |})
  end.

(** [res.setHeader(name, value)] throws (ERR_INVALID_CHAR) when the value
    holds a code unit other than a tab, 0x20 to 0x7e and 0x80 to 0xff. *)
Definition header_char (c : ascii) : bool :=
  let n := Js.code c in
  N.eqb n 9 || (N.leb 32 n && negb (N.eqb n 127)).

Fixpoint header_value (v : string) : bool :=
  match v with
  | String c v' => header_char c && header_value v'
  | EmptyString => true
  end.

Definition double_quote : string := String (ascii_of_nat 34) EmptyString.

(** The value of the Content-Disposition header. *)
Definition content_disposition (name : string) : string :=
  "attachment; filename=" +:+ double_quote +:+ name +:+ double_quote.

Definition invalid_header : string :=
  "Invalid character in header content [" +:+ double_quote
  +:+ "Content-Disposition" +:+ double_quote +:+ "]".

Definition get_download (actor : string) (id : oid) (s : store) : response :=
  match findById id s with
  | None => not_found "Not found"
  | Some gen =>
      if negb (isOwner actor gen) && negb (isPublishedAndCompleted gen)
      then not_found "Not found"
      else if negb (is_completed gen)
      then bad_request "Not completed"
      else
        let name :=
          Js.str_or (from_option filename "" (result gen)) "output.md" in
        if header_value (content_disposition name)
        then ok (Attachment name (current_content gen))
        else next invalid_header
  end.

(** *** PUT /:id/content *)

(** The versioning block: the new [versions] and [currentVersion]. *)
Definition track_version (actor : string) (new_content : string) (t : date)
    (gen : generation) : list version * Z :=
  let currentContent := current_content gen in
  if Js.truthy_str currentContent && negb (String.eqb currentContent new_content)
  then
    let currentVersionNumber := Js.num_or (currentVersion gen) 1 in
    let versionExists :=
      existsb
        (λ v, Js.strict_eq (Js.Str (versionNumber v)) (Js.Num currentVersionNumber))
        (versions gen) in
    let pushed :=
      if negb versionExists
      then (versions gen ++
            [ {| versionNumber := Js.to_string currentVersionNumber;
                 v_content := currentContent;
                 releaseDate := t;
                 updatedBy := actor;
                 notes := None |} ])%list
      else versions gen in
    (pushed, currentVersionNumber + 1)
  else (versions gen, currentVersion gen).

(** [gen.result.markdown.content = content], on a fresh [{}] when the
    record had no markdown (an absent required string is the empty one). *)
Definition set_markdown_content (gen : generation) (new_content : string)
    : markdown :=
  {| content := new_content;
     filename := from_option filename "" (result gen) |}.

(** [body_content] is [None] when [typeof content !== "string"]. *)
Definition put_content (actor : string) (id : oid)
    (body_content : option string) (t : date) (s : store) : store * response :=
  match body_content with
  | None => (s, bad_request "Content is required!")
  | Some new_content =>
      if String.eqb (Js.trim new_content) ""
      then (s, bad_request "Content is required!")
      else
        match findById id s with
        | None => (s, not_found "Generation not found!")
        | Some gen =>
            if negb (isOwner actor gen)
            then (s, not_found "Generation not found!")
            else if negb (is_completed gen)
            then (s, bad_request "Only completed generations can be updated!")
            else
              let '(vs, cv) := track_version actor new_content t gen in
              let gen' :=
                with_content gen vs cv (set_markdown_content gen new_content) in
              save_and_send id gen'
                (ok (ContentUpdated new_content (Js.num_or cv 1))) s
        end
  end.

(** *** PUT /:id/publish *)

(** [body_published] is [None] when [typeof published !== "boolean"].
    The request has a body: [req.body] is the object [express.json] has
    parsed. The handler reads it unguarded, and a request without one is
    outside the model. *)
Definition put_publish (actor : string) (id : oid)
    (body_published : option bool) (t : date) (s : store) : store * response :=
  match body_published with
  | None => (s, bad_request "Published status must be a boolean!")
  | Some p =>
      match findById id s with
      | None => (s, not_found "Generation not found!")
      | Some gen =>
          if negb (isOwner actor gen)
          then (s, not_found "Generation not found!")
          else if negb (is_completed gen)
          then (s, bad_request "Only completed generations can be published!")
          else
            let gen' :=
              if p then with_published gen true (Some t) (Some actor)
              else with_published gen false None None in
            save_and_send id gen'
              (ok (PublishState (published gen') (publishedAt gen')
                     (publishedBy gen'))) s
      end
  end.

(** *** DELETE /:id *)

Definition delete_generation (actor : string) (id : oid) (s : store)
    : store * response :=
  match findById id s with
  | None => (s, not_found "Generation not found")
  | Some gen =>
      if negb (isOwner actor gen)
      then (s, {| code := 403;
                  sent := Failure "You can only delete your own generations" |})
      else (findByIdAndDelete id s, ok (Message "Generation deleted successfully"))
  end.

(** ** The service as a transition system *)

(** One authenticated request. [requireAuth] has put the verified identity
    in [req.user.email]; accounts are registered with a non-empty email.
    The two routes left out, the listing [GET /] and [POST /prelight], write
    nothing. *)
Inductive request :=
| PostTestcases (actor : string) (req : create_request) (w : world)
| GetView (actor : string) (id : oid)
| GetDownload (actor : string) (id : oid)
| PutContent (actor : string) (id : oid) (body_content : option string) (t : date)
| PutPublish (actor : string) (id : oid) (body_published : option bool) (t : date)
| Delete (actor : string) (id : oid).

Definition actor_of (r : request) : string :=
  match r with
  | PostTestcases a _ _ | GetView a _ | GetDownload a _
  | PutContent a _ _ _ | PutPublish a _ _ _ | Delete a _ => a
  end.

Definition handle (r : request) (s : store) : option (store * response) :=
  match r with
  | PostTestcases a req w => post_testcases a req w s
  | GetView a id => Some (s, get_view a id s)
  | GetDownload a id => Some (s, get_download a id s)
  | PutContent a id c t => Some (put_content a id c t s)
  | PutPublish a id p t => Some (put_publish a id p t s)
  | Delete a id => Some (delete_generation a id s)
  end.

(** [step s r s']: request [r], handled in store [s], leaves store [s'].
    The actor of a request is the [email] of [req.user]; the empty string
    stands for a verified token that carries none ([requireAuth] does not
    ask for one). *)
Definition step (s : store) (r : request) (s' : store) : Prop :=
  ∃ resp, handle r s = Some (s', resp).

(** Stores the service can be in: from the empty database, after any
    sequence of requests handled one at a time. *)
Inductive reachable : store → Prop :=
| reachable_empty : reachable empty_store
| reachable_step s r s' : reachable s → step s r s' → reachable s'.

(** Runs a list of requests in order. *)
Fixpoint run (rs : list request) (s : store) : option store :=
  match rs with
  | [] => Some s
  | r :: rs' =>
      match handle r s with
      | Some (s', _) => run rs' s'
      | None => None
      end
  end.


(** ** Predicates of the statements *)

(** Strings made of white space only. *)
Fixpoint all_whitespace (s : string) : bool :=
  match s with
  | String c s' => Js.is_whitespace c && all_whitespace s'
  | EmptyString => true
  end.

(** The archive holds versions 1 to [currentVersion - 1], oldest first. *)
Definition versions_shape (g : generation) : Prop :=
  (1 ≤ currentVersion g)%Z ∧
  versionNumber <$> versions g = Js.to_string <$> seqZ 1 (currentVersion g - 1).

(** What every stored generation satisfies. *)
Record gen_ok (g : generation) : Prop := GenOk {
  ok_valid : validate g = true;
  ok_mode : mode g = Some "manual";
  ok_project : project g = None;
  ok_result :
    status g = Some "completed" →
    ∃ md, result g = Some md ∧ Js.trim (content md) ≠ "";
  ok_versions : versions_shape g
}.

(** What every store the service can be in satisfies. *)
Definition store_ok (s : store) : Prop :=
  (∀ id g, generations s !! id = Some g → (id < next_oid s)%nat ∧ gen_ok g)
  ∧ Forall (λ p, totalGenerations p = 0) (projects s).

(** The status values of the schema, and the absent one. *)
Definition status_in_schema (g : generation) : Prop :=
  status g = None ∨ status g = Some "completed" ∨ status g = Some "failed".

(** The invariant of the version archive: no version number twice, every
    archived number is a numeral below [currentVersion], and
    [currentVersion - 1] is archived unless the archive is empty. *)
Definition versions_invariant (g : generation) : Prop :=
  NoDup (versionNumber <$> versions g)
  ∧ (∀ v, v ∈ versions g →
       ∃ n, versionNumber v = Js.to_string n ∧ (1 ≤ n < currentVersion g)%Z)
  ∧ (versions g = [] → currentVersion g = 1)
  ∧ (versions g ≠ [] →
       ∃ v, v ∈ versions g ∧ versionNumber v = Js.to_string (currentVersion g - 1)).

(** Several requests in a row. *)
Inductive steps : store → list request → store → Prop :=
| steps_nil s : steps s [] s
| steps_cons s r s1 rs s' : step s r s1 → steps s1 rs s' → steps s (r :: rs) s'.

(** ** A scenario *)

Definition qa : string := "qa@example.com".
Definition guest : string := "guest@example.com".

Definition usage_1 : token_usage :=
  {| promptTokens := 120; completionTokens := 480; totalTokens := 600 |}.

Definition prompts_1 : OpenAIService.bindings :=
  {| OpenAIService.MANUAL_PROMPT := "You are an expert manual QA Engineer.";
     OpenAIService.AUTO_PROMPT := None |}.

(** An API that answers every call. *)
Definition api_up : OpenAIService.client :=
  λ _ _ _, OpenAIService.Resolves "# Test Cases for TES-1" usage_1.

(** An API that rejects the first call and answers from the second on. *)
Definition api_flaky : OpenAIService.client :=
  λ _ _ n,
    match n with
    | O => OpenAIService.Rejects "rate limit exceeded"
    | _ => OpenAIService.Resolves "# Test Cases for TES-1" usage_1
    end.

Definition jira_up (key : string) : issue_result :=
  IssueFound "Login form" "The user signs in with email and password.".

Definition jira_missing (key : string) : issue_result :=
  IssueFailed "Issue TES-1 not found or you don't have permission to view it.".

Definition world_up : world :=
  {| now := 1000; finished := 2000; jira := Some jira_up;
     openai := Some api_up; prompts := prompts_1 |}.

Definition world_flaky : world :=
  {| now := 1000; finished := 2000; jira := Some jira_up;
     openai := Some api_flaky; prompts := prompts_1 |}.

Definition world_no_issue : world :=
  {| now := 1000; finished := 2000; jira := Some jira_missing;
     openai := Some api_up; prompts := prompts_1 |}.

Definition create_TES1 (w : world) : request :=
  PostTestcases qa {| body_issueKey := Some "TES-1"; body_autoMode := false |} w.

(** The store after the requests [rs], from the empty database. *)
Definition after (rs : list request) : store :=
  default empty_store (run rs empty_store).

(** One completed generation, id 1 (id 0 went to project TES). *)
Definition store_completed : store := after [create_TES1 world_up].

(** One failed generation, id 1. *)
Definition store_failed : store := after [create_TES1 world_no_issue].

(** A completed generation revised once. *)
Definition store_revised : store :=
  after [create_TES1 world_up;
         PutContent qa 1%nat (Some "# Test Cases, second draft") 3000].

(** One completed generation, id 1, whose issue key ends in a line feed
    (JIRA trims the key and finds the issue). *)
Definition store_linefeed : store :=
  after [PostTestcases qa
           {| body_issueKey := Some ("TES-1" +:+ OpenAIService.newline);
              body_autoMode := false |} world_up].


(** ** What one request can do to one record *)

(** The record [POST /testcases] leaves for issue [key] under [id]: the
    one it has persisted before the external calls, left as it is when the
    JIRA service cannot be built, or its failed or completed form. *)
Inductive created (actor key : string) (id : oid) : generation → Prop :=
| created_unfinished t :
    created actor key id (new_generation actor key NoProject t)
| created_failed t e done :
    e ≠ "" →
    created actor key id
      (with_outcome (new_generation actor key NoProject t) "failed" (Some e) done)
| created_completed t done usage c :
    Js.startsWith c "#" = true →
    created actor key id
      (with_completion (new_generation actor key NoProject t) done (Some usage)
         {| content := c;
            filename := key +:+ "_testcases_" +:+ pretty id +:+ ".md" |}).

(** [record_step actor id o o']: a request by [actor] takes the record
    under [id] from [o] to [o'] ([None] when there is no record). *)
Inductive record_step (actor : string) (id : oid)
    : option generation → option generation → Prop :=
| record_same o : record_step actor id o o
| record_created key g :
    Js.truthy_str key = true → created actor key id g →
    record_step actor id None (Some g)
| record_revised g c t :
    status g = Some "completed" → email g = actor → Js.trim c ≠ "" →
    record_step actor id (Some g)
      (Some (with_content g (track_version actor c t g).1
               (track_version actor c t g).2 (set_markdown_content g c)))
| record_published g t :
    status g = Some "completed" → email g = actor →
    record_step actor id (Some g)
      (Some (with_published g true (Some t) (Some actor)))
| record_unpublished g :
    status g = Some "completed" → email g = actor →
    record_step actor id (Some g) (Some (with_published g false None None))
| record_deleted g :
    email g = actor → record_step actor id (Some g) None.

(** Fields that go together in a stored record. *)
Record gen_consistent (id : oid) (g : generation) : Prop := GenConsistent {
  (* the three lifecycle shapes *)
  cons_unfinished :
    status g = None →
    result g = None ∧ error g = None ∧ completedAt g = None;
  cons_failed :
    status g = Some "failed" →
    result g = None ∧ (∃ e, error g = Some e ∧ e ≠ "") ∧ is_Some (completedAt g);
  cons_completed :
    status g = Some "completed" →
    (∃ c, result g = Some {| content := c;
                             filename := issueKey g +:+ "_testcases_"
                                         +:+ pretty id +:+ ".md" |})
    ∧ error g = None ∧ is_Some (completedAt g) ∧ is_Some (tokenUsage g);
  (* publication *)
  cons_published :
    published g = true →
    status g = Some "completed"
    ∧ is_Some (publishedAt g) ∧ publishedBy g = Some (email g);
  cons_unpublished :
    published g = false → publishedAt g = None ∧ publishedBy g = None;
  (* the archive *)
  cons_editor : Forall (λ v, updatedBy v = email g ∧ v_content v ≠ "") (versions g);
  cons_pristine : status g ≠ Some "completed" → versions g = [] ∧ published g = false;
  cons_started : startedAt g = Some (createdAt g) ∧ issueKey g ≠ ""
}.

(** The fields no request changes. *)
Definition same_identity (g g' : generation) : Prop :=
  issueKey g' = issueKey g ∧ email g' = email g ∧ project g' = project g
  ∧ mode g' = mode g ∧ createdAt g' = createdAt g ∧ startedAt g' = startedAt g
  ∧ (is_Some (result g) → filename <$> result g' = filename <$> result g).

(** The archive only grows, at its end, and the version never goes down. *)
Definition history_extends (g g' : generation) : Prop :=
  versions g `prefix_of` versions g'
  ∧ (currentVersion g ≤ currentVersion g')%Z
  ∧ (length (versions g') - length (versions g)
     = Z.to_nat (currentVersion g' - currentVersion g))%nat.


(** The store with the record [g] written under [id]. *)
Definition with_record (id : oid) (g : generation) (s : store) : store :=
  {| generations := <[id := g]> (generations s);
     projects := projects s; next_oid := next_oid s |}.

(** The three answers of [POST /testcases] once the record is persisted
    and the JIRA service exists, with the record each one leaves. *)
Inductive generation_outcome (w : world) (autoMode : bool) (id : oid)
    (g : generation) : generation → response → Prop :=
| outcome_no_issue getIssue err :
    jira w = Some getIssue → getIssue (issueKey g) = IssueFailed err →
    generation_outcome w autoMode id g
      (with_outcome g "failed"
         (Some (Js.str_or err "Failed to fetch issue from JIRA")) (finished w))
      {| code := 404; sent := Failure err |}
| outcome_generator_failed getIssue summary description n message :
    jira w = Some getIssue →
    getIssue (issueKey g) = IssueFound summary description →
    generate_markdown w (issueKey g) summary
      ("Title: " +:+ summary +:+ OpenAIService.newline
       +:+ OpenAIService.newline +:+ "Description: " +:+ description)
      autoMode = Some (n, inl message) →
    generation_outcome w autoMode id g
      (with_outcome g "failed"
         (Some ("OpenAI generation failed: " +:+ message)) (finished w))
      {| code := 500;
         sent := Failure (Js.str_or message "Failed to generate test cases") |}
| outcome_completed getIssue summary description n c usage :
    jira w = Some getIssue →
    getIssue (issueKey g) = IssueFound summary description →
    generate_markdown w (issueKey g) summary
      ("Title: " +:+ summary +:+ OpenAIService.newline
       +:+ OpenAIService.newline +:+ "Description: " +:+ description)
      autoMode = Some (n, inr (c, usage)) →
    generation_outcome w autoMode id g
      (with_completion g (finished w) (Some usage)
         {| content := c;
            filename := issueKey g +:+ "_testcases_" +:+ pretty id +:+ ".md" |})
      {| code := 200;
         sent := Generated id (issueKey g)
                   {| content := c;
                      filename := issueKey g +:+ "_testcases_"
                                  +:+ pretty id +:+ ".md" |} |}.


(** ** Shapes of keys and of the registry *)

(** Every code unit of [s] passes [f]. *)
Fixpoint chars_all (f : ascii → bool) (s : string) : bool :=
  match s with
  | String c s' => f c && chars_all f s'
  | EmptyString => true
  end.

(** What [/^([A-Z][A-Z0-9]+)-/i] captures: a letter, then at least one
    letter or digit. *)
Definition key_prefix (p : string) : Prop :=
  ∃ c run, p = String c run ∧ is_alpha c = true ∧ run ≠ ""
           ∧ chars_all is_alnum run = true.

(** A project key as the registry stores it: an upper-case letter, then at
    least one upper-case letter or digit. *)
Definition project_key (k : string) : Prop :=
  ∃ c run, k = String c run ∧ Js.is_upper c = true ∧ run ≠ ""
           ∧ chars_all (λ x, Js.is_upper x || Js.is_digit x) run = true.

(** The registry holds no key twice and no id twice, every id was drawn
    from the counter, and every key has the shape of a project key. *)
Definition registry_ok (s : store) : Prop :=
  NoDup (projectKey <$> projects s)
  ∧ NoDup (p_id <$> projects s)
  ∧ Forall (λ p, (p_id p < next_oid s)%nat ∧ project_key (projectKey p))
      (projects s).


(** ** The generator call, seen from the route *)

(** The user message [generateTestCases] sends for an issue. *)
Definition issue_context (key context : string) : string :=
  OpenAIService.newline +:+ OpenAIService.newline +:+ "### JIRA Issue: " +:+ key
  +:+ OpenAIService.newline +:+ OpenAIService.newline +:+ context.

(** The context the route builds from the issue. *)
Definition route_context (summary description : string) : string :=
  "Title: " +:+ summary +:+ OpenAIService.newline +:+ OpenAIService.newline
  +:+ "Description: " +:+ description.

(** The markdown the route stores for a completion [text]. *)
Definition titled (key summary text : string) : string :=
  if Js.startsWith text "#" then text
  else "# Test Cases for " +:+ key +:+ ": " +:+ Js.str_or summary "Untitled"
       +:+ OpenAIService.newline +:+ OpenAIService.newline +:+ text.


(** ** More of the scenario *)

(** An API that answers without a heading, and one that answers nothing. *)
Definition api_plain : OpenAIService.client :=
  λ _ _ _, OpenAIService.Resolves "1. Sign in with a valid account" usage_1.

Definition api_silent : OpenAIService.client :=
  λ _ _ _, OpenAIService.Resolves "" usage_1.

Definition world_plain : world :=
  {| now := 1000; finished := 2000; jira := Some jira_up;
     openai := Some api_plain; prompts := prompts_1 |}.

Definition world_silent : world :=
  {| now := 1000; finished := 2000; jira := Some jira_up;
     openai := Some api_silent; prompts := prompts_1 |}.


(** ** The JIRA service: [src/services/jiraService.js] *)

Module JiraService.

(** A node of an Atlassian Document Format tree, as the extraction reads
    it: [type], [text], and [content] when it is an array. *)
#[local] Unset Elimination Schemes.
Inductive adf :=
| Node (type : option string) (text : option string) (content : option (list adf)).
#[local] Set Elimination Schemes.

Definition node_type (n : adf) : option string :=
  match n with Node t _ _ => t end.
Definition node_text (n : adf) : option string :=
  match n with Node _ x _ => x end.
Definition node_content (n : adf) : option (list adf) :=
  match n with Node _ _ c => c end.

(** [parts.join(sep)] *)
Fixpoint join (sep : string) (parts : list string) : string :=
  match parts with
  | [] => ""
  | [p] => p
  | p :: rest => p +:+ sep +:+ join sep rest
  end.

(** [node.type === 'text' && node.text] *)
Definition is_text_node (n : adf) : bool :=
  match node_type n, node_text n with
  | Some t, Some x => String.eqb t "text" && Js.truthy_str x
  | _, _ => false
  end.

(** [extractTextFromADF(adf)] for an object [adf]. *)
Fixpoint extractTextFromADF (n : adf) : string :=
  match n with
  | Node _ _ (Some nodes) =>
      join " "
        (List.filter Js.truthy_str
           (List.map
              (λ node,
                 if is_text_node node then default "" (node_text node)
                 else match node_content node with
                      | Some _ => extractTextFromADF node
                      | None => ""
                      end)
              nodes))
  | Node _ _ None => ""
  end.

(** [extractTextFromADF(adf)] for any value: [None] is a falsy value or
    one that is not an object. *)
Definition extractText (v : option adf) : string :=
  match v with
  | Some n => extractTextFromADF n
  | None => ""
  end.

(** The text leaves of a document, in document order: the non-empty
    texts of its text nodes; below a text node nothing is read. *)
Fixpoint leaves (n : adf) : list string :=
  match n with
  | Node _ _ (Some nodes) =>
      List.flat_map
        (λ node,
           if is_text_node node then [default "" (node_text node)]
           else leaves node)
        nodes
  | Node _ _ None => []
  end.

(** *** [getIssue] *)

(** [toUpperCase] of one code unit: the letters a-z and à-þ move to their
    capitals and ß becomes "SS". The capitals of µ and ÿ lie outside the
    8-bit range; they are kept, and the key test below fails on them
    either way. *)
Definition upper_units (c : ascii) : string :=
  let n := Js.code c in
  if N.eqb n 223 then "SS"
  else if Js.is_lower c || (N.leb 224 n && N.leb n 254 && negb (N.eqb n 247))
  then String (ascii_of_N (n - 32)) ""
  else String c "".

Fixpoint toUpperCase (s : string) : string :=
  match s with
  | String c s' => upper_units c +:+ toUpperCase s'
  | EmptyString => EmptyString
  end.

(** The longest prefix of code units passing [f], and the rest. *)
Fixpoint span (f : ascii → bool) (s : string) : string * string :=
  match s with
  | String c s' =>
      if f c then let '(p, r) := span f s' in (String c p, r)
      else (EmptyString, s)
  | EmptyString => (EmptyString, EmptyString)
  end.

(** [/^[A-Z]+-\d+$/.test(s)] *)
Definition is_issue_key (s : string) : bool :=
  match span Js.is_upper s with
  | (String _ _, String "-" digits) =>
      Js.truthy_str digits && chars_all Js.is_digit digits
  | _ => false
  end.

(** [issueKey.trim().toUpperCase()] *)
Definition normalize (issueKey : string) : string :=
  toUpperCase (Js.trim issueKey).

Record attachment := Attachment { mimeType : option string }.

(** [issue.fields], as far as the routes read it; [description] is
    [None] unless it is an object. *)
Record fields := Fields {
  summary : option string;
  description : option adf;
  attachments : option (list attachment)   (* fields.attachment *)
}.

Record issue := Issue { issue_fields : option fields }.

(** The body of a response that is not [ok]: JSON with its
    [errorMessages] and [message] (empty when absent), or text that
    [JSON.parse] refuses. *)
Inductive error_body :=
| ErrorJson (errorMessages : list string) (message : string)
| ErrorText (errorText : string).

(** What the request to JIRA comes to: an [ok] response with an issue,
    another response, or an exception thrown by [fetch] or while the body
    is read, with its [code] and [message]. *)
Inductive fetched :=
| Ok (i : issue)
| NotOk (status : nat) (body : error_body)
| Throws (code : option string) (message : string).

(** [{ success: true, issue }] or [{ success: false, error }] *)
Inductive result :=
| Success (i : issue)
| Failed (error : string).

Definition quote : string := String (ascii_of_nat 34) EmptyString.

Definition url (baseUrl normalizedKey : string) : string :=
  baseUrl +:+ "/rest/api/3/issue/" +:+ normalizedKey
  +:+ "?expand=attachments,comments,issuelinks".

Definition getIssue (baseUrl : string) (fetch : string → fetched)
    (issueKey : string) : result :=
  let normalizedKey := normalize issueKey in
  if negb (is_issue_key normalizedKey) then
    Failed ("Invalid issue key format: " +:+ quote +:+ issueKey +:+ quote
            +:+ ". Expected format: PROJECT-NUMBER (e.g., TES-1, KAN-123).")
  else
    match fetch (url baseUrl normalizedKey) with
    | NotOk status body =>
        let errorMessage :=
          match body with
          | ErrorJson (m :: _) _ => m
          | ErrorJson [] message =>
              Js.str_or message ("JIRA API error: " +:+ pretty status)
          | ErrorText errorText =>
              Js.str_or errorText ("JIRA API error: " +:+ pretty status)
          end in
        if Nat.eqb status 401 then
          Failed "JIRA authentication failed. Please check your JIRA_EMAIL and JIRA_API_TOKEN credentials."
        else if Nat.eqb status 403 then
          Failed ("JIRA access forbidden for issue " +:+ normalizedKey +:+ ".")
        else if Nat.eqb status 404 then
          Failed ("Issue " +:+ normalizedKey
                  +:+ " not found or you don't have permission to view it.")
        else Failed errorMessage
    | Ok i => Success i
    | Throws code message =>
        if bool_decide (code = Some "ENOTFOUND")
           || bool_decide (code = Some "ECONNREFUSED")
        then Failed ("Cannot connect to JIRA at " +:+ baseUrl
                     +:+ ". Please check JIRA_BASE_URL configuration.")
        else Failed (Js.str_or message "Failed to fetch issue from JIRA")
    end.

(** What [POST /testcases] reads from the result. *)
Definition issue_view (r : result) : issue_result :=
  match r with
  | Success i =>
      let summary' := default "" (issue_fields i ≫= summary) in
      let description' := extractText (issue_fields i ≫= description) in
      IssueFound summary' description'
  | Failed e => IssueFailed e
  end.

End JiraService.


(** ** The authentication middleware *)

Module Auth.

(** The claims of a verified token, as [requireAuth] reads them. *)
Record payload := Payload {
  sub : option string;
  p_email : option string;
  p_name : option string
}.

(** [req.user] *)
Record user := User {
  userId : option string;
  u_email : option string;
  u_name : option string
}.

(** [header.slice(7)] *)
Fixpoint slice (n : nat) (s : string) : string :=
  match n, s with
  | O, _ => s
  | S n', String _ s' => slice n' s'
  | S _, EmptyString => EmptyString
  end.

(** [requireAuth(req, res, next)]. [authorization] is the header if there
    is one; [verify] is [jwt.verify] with the configured secret, [None] when
    it throws. The result is the 401 sent, or [req.user] as handed to
    [next]. *)
Definition requireAuth (authorization : option string)
    (verify : string → option payload) : response + user :=
  let header := default "" authorization in
  let token := if Js.startsWith header "Bearer " then Some (slice 7 header)
               else None in
  match token with
  | None => inl {| code := 401; sent := Failure "Authorization token missing" |}
  | Some t =>
      if negb (Js.truthy_str t)
      then inl {| code := 401; sent := Failure "Authorization token missing" |}
      else
        match verify t with
        | Some p => inr {| userId := sub p; u_email := p_email p;
                           u_name := p_name p |}
        | None => inl {| code := 401;
                         sent := Failure "Invalid authorization token" |}
        end
  end.

End Auth.


(** ** The listing route: [GET /] *)

Module Math.

(** [Math.max(a, b)] and [Math.min(a, b)]; [None] is [NaN], which both
    hand on. *)
Definition max (a b : option Z) : option Z :=
  match a, b with
  | Some x, Some y => Some (Z.max x y)
  | _, _ => None
  end.

Definition min (a b : option Z) : option Z :=
  match a, b with
  | Some x, Some y => Some (Z.min x y)
  | _, _ => None
  end.

(** [Math.ceil(a / b)] for a positive [b]. *)
Definition ceil_div (a b : Z) : Z := - ((- a) / b).

End Math.

(** The value of the longest run of decimal digits [s] starts with, read
    after the digits that gave [acc]. *)
Fixpoint digits_value (acc : Z) (s : string) : Z :=
  match s with
  | String c s' =>
      if Js.is_digit c
      then digits_value (10 * acc + Z.of_N (Js.code c - 48)) s'
      else acc
  | EmptyString => acc
  end.

(** [parseInt(s, 10)]: leading white space is skipped, then a sign and the
    longest run of digits are read and the rest is ignored; [None] is
    [NaN], the result when no digit is found. The model reads the numeral
    as the exact integer; [parseInt] gives the nearest double, which is
    that integer as long as it lies within 2^53. *)
Definition parseInt (s : string) : option Z :=
  let t := Js.trimStart s in
  let '(sign, body) :=
    match t with
    | String "-" r => (-1, r)
    | String "+" r => (1, r)
    | _ => (1, t)
    end in
  match body with
  | String c _ =>
      if Js.is_digit c then Some (sign * digits_value 0 body) else None
  | EmptyString => None
  end.

(** The three query documents the route builds. *)
Inductive query_filter :=
| ByEmail (e : string)                 (* { email } *)
| PublishedCompleted                   (* { published: true, status: 'completed' } *)
| Or (a b : query_filter).             (* { $or: [a, b] } *)

Fixpoint matches (f : query_filter) (g : generation) : bool :=
  match f with
  | ByEmail e => String.eqb (email g) e
  | PublishedCompleted => published g && is_completed g
  | Or a b => matches a g || matches b g
  end.

(** [Generation.find(filter)]: the matching documents with their ids, in
    the order of the collection scan. *)
Definition find_generations (f : query_filter) (s : store)
    : list (oid * generation) :=
  List.filter (λ kv, matches f kv.2) (map_to_list (generations s)).

(** [.sort({ createdAt: -1 })]. Among documents with the same
    [createdAt] the database promises no order; the model takes the order
    of the scan, the same for every request on the same store. *)
Definition newest_first (a b : oid * generation) : Prop :=
  (createdAt b.2 ≤ createdAt a.2)%Z.

#[global] Instance newest_first_dec : RelDecision newest_first.
Proof. intros a b. unfold newest_first. apply _. Defined.

Definition sort_newest_first (l : list (oid * generation))
    : list (oid * generation) :=
  merge_sort newest_first l.

(** [req.query]: each parameter is absent or a string. *)
Record list_query := ListQuery {
  q_page : option string;
  q_limit : option string;
  q_filter : option string
}.

Record pagination := Pagination {
  pg_page : Z;
  pg_limit : Z;
  pg_total : Z;
  pg_pages : Z
}.

(** The [data] object of the listing. *)
Record listing := Listing {
  l_generations : list (oid * generation);
  l_pagination : pagination
}.

(** The filter chosen by [filterType]: 'mine', 'published', or anything
    else for the caller's own and the published ones. *)
Definition list_filter (actor : string) (filterType : string) : query_filter :=
  if String.eqb filterType "mine" then ByEmail actor
  else if String.eqb filterType "published" then PublishedCompleted
  else Or (ByEmail actor) PublishedCompleted.

(** The handler. Its answer is always 200 with the listing; [None] stands
    for a request whose [page] or [limit] is [NaN], where [skip] and
    [limit] are left to the database driver. *)
Definition get_list (actor : string) (q : list_query) (s : store)
    : option listing :=
  match Math.max (Some 1) (parseInt (Js.str_or (default "" (q_page q)) "1")),
        Math.min (Some 50)
          (Math.max (Some 1)
             (parseInt (Js.str_or (default "" (q_limit q)) "10"))) with
  | Some page, Some limit =>
      let skip := (page - 1) * limit in
      let filterType := Js.str_or (default "" (q_filter q)) "all" in
      let filter := list_filter actor filterType in
      let generations :=
        take (Z.to_nat limit)
          (drop (Z.to_nat skip)
             (sort_newest_first (find_generations filter s))) in
      let total := Z.of_nat (length (find_generations filter s)) in
      let pages := Math.ceil_div total limit in
      Some {| l_generations := generations;
              l_pagination :=
                {| pg_page := page; pg_limit := limit;
                   pg_total := total; pg_pages := pages |} |}
  | _, _ => None
  end.

(** The requests whose numbers JavaScript computes exactly: the page
    number read from the query and the number of stored generations lie
    below 2^47, so that [page], [skip = (page - 1) * limit] and
    [Math.ceil(total / limit)] are the integers of the model ([limit] is at
    most 50 and doubles are exact within 2^53). *)
Definition exact_paging (q : list_query) (s : store) : Prop :=
  (∀ p, parseInt (Js.str_or (default "" (q_page q)) "1") = Some p →
        (p < 2 ^ 47)%Z)
  ∧ (Z.of_nat (size (generations s)) < 2 ^ 47)%Z.

(** A store with three generations: one of [qa], completed; one of
    [guest], completed and published; one of [guest], failed. *)
Definition world_later : world :=
  {| now := 5000; finished := 6000; jira := Some jira_up;
     openai := Some api_up; prompts := prompts_1 |}.

Definition world_latest : world :=
  {| now := 8000; finished := 9000; jira := Some jira_missing;
     openai := Some api_up; prompts := prompts_1 |}.

Definition store_shared : store :=
  after [create_TES1 world_up;
         PostTestcases guest
           {| body_issueKey := Some "KAN-7"; body_autoMode := false |}
           world_later;
         PutPublish guest 3%nat (Some true) 7000;
         PostTestcases guest
           {| body_issueKey := Some "KAN-8"; body_autoMode := false |}
           world_latest].

Definition first_page : list_query :=
  {| q_page := None; q_limit := None; q_filter := None |}.

(** ** The prelight route: [POST /prelight] *)

(** [s.includes(w)] *)
Fixpoint includes (s w : string) : bool :=
  String.prefix w s
  || match s with
     | String _ s' => includes s' w
     | EmptyString => false
     end.

(** The analysis sent for an issue that was found ([estimatedCost], a
    floating-point number, left out). *)
Record prelight_analysis := PrelightAnalysis {
  pl_isUiStory : bool;
  pl_issueKey : string;
  pl_title : string;
  pl_description : string;
  pl_attachments : nat;
  pl_estimatedTokens : Z
}.

Inductive prelight_response :=
| PrelightError (statusCode : nat) (error : string)
| PrelightOk (analysis : prelight_analysis).

(** [att.mimeType && att.mimeType.startsWith("image/")] *)
Definition is_image (att : JiraService.attachment) : bool :=
  match JiraService.mimeType att with
  | Some m => Js.truthy_str m && Js.startsWith m "image/"
  | None => false
  end.

(** The handler, given the [getIssue] of a constructed JIRA service, for
    a request with a body: [body_issueKey] is [None] when the parsed body
    has no [issueKey]. The handler reads [req.body] unguarded, and a
    request without a body is outside the model. *)
Definition post_prelight (getIssue : string → JiraService.result)
    (body_issueKey : option string) : prelight_response :=
  match body_issueKey with
  | Some issueKey =>
      if Js.truthy_str issueKey then
        match getIssue issueKey with
        | JiraService.Failed error =>
            let statusCode :=
              if includes error "authentication" || includes error "forbidden"
              then 403%nat
              else if includes error "not found" then 404%nat
              else 500%nat in
            PrelightError statusCode
              (Js.str_or error "Failed to fetch issue from JIRA")
        | JiraService.Success issue =>
            let fields := JiraService.issue_fields issue in
            let summary := default "" (fields ≫= JiraService.summary) in
            let description :=
              JiraService.extractText (fields ≫= JiraService.description) in
            let attachments := default [] (fields ≫= JiraService.attachments) in
            let attachmentImages := List.filter is_image attachments in
            let contextText :=
              summary +:+ OpenAIService.newline +:+ OpenAIService.newline
              +:+ description in
            let contextCharacters := Z.of_nat (String.length contextText) in
            let estimatedTokens :=
              (Math.ceil_div contextCharacters 4
               + Z.of_nat (length attachmentImages) * 200)%Z in
            PrelightOk
              {| pl_isUiStory := true;
                 pl_issueKey := issueKey;
                 pl_title := Js.str_or summary "N/A";
                 pl_description := description;
                 pl_attachments := length attachments;
                 pl_estimatedTokens := estimatedTokens |}
        end
      else PrelightError 400 "issueKey is required"
  | None => PrelightError 400 "issueKey is required"
  end.

(** A JIRA that knows no issue, and a world whose JIRA service asks it. *)
Definition jira_base : string := "https://jira.example.com".

Definition fetch_missing : string → JiraService.fetched :=
  λ _, JiraService.NotOk 404
         (JiraService.ErrorJson
            ["Issue does not exist or you do not have permission to see it."]
            "").

Definition world_fetching : world :=
  {| now := 1000; finished := 2000;
     jira := Some (λ key,
                     JiraService.issue_view
                       (JiraService.getIssue jira_base fetch_missing key));
     openai := Some api_up; prompts := prompts_1 |}.

(** ** UI detection: [checkIfUiStory] *)

Module UiDetection.

(** [toLowerCase] on 8-bit code units: A-Z and À-Þ move to their small
    letters. *)
Definition lower_char (c : ascii) : ascii :=
  let n := Js.code c in
  if Js.is_upper c || (N.leb 192 n && N.leb n 222 && negb (N.eqb n 215))
  then ascii_of_N (n + 32)
  else c.

Fixpoint toLowerCase (s : string) : string :=
  match s with
  | String c s' => String (lower_char c) (toLowerCase s')
  | EmptyString => EmptyString
  end.

Definition BACKEND_KEYWORDS : list string :=
  ["API"; "endpoint"; "server"; "database"; "DB"; "SQL"; "query";
   "backend"; "back-end"; "microservice"; "service";
   "infrastructure"; "cloud"; "AWS"; "Azure"; "GCP";
   "cache"; "caching"; "memory"; "storage"; "S3"; "blob";
   "DevOps"; "CI/CD"; "pipeline"; "build"; "deploy";
   "authentication"; "authorization"; "security"; "encryption";
   "performance"; "optimization"; "throughput"; "latency";
   "ETL"; "data migration"; "data processing";
   "scheduler"; "cron"; "job"; "task"; "worker";
   "kafka"; "queue"; "message"; "event";
   "log"; "logging"; "monitor"; "monitoring";
   "config"; "configuration"; "environment"; "variable";
   "library"; "package"; "dependency"; "module"].

Definition UI_KEYWORDS : list string :=
  ["UI"; "UX"; "user interface"; "user experience";
   "frontend"; "front-end"; "client-side"; "client side";
   "design"; "visual"; "layout"; "styling";
   "CSS"; "HTML"; "responsive"; "mobile";
   "component"; "widget"; "control";
   "button"; "form"; "input"; "dropdown"; "menu";
   "modal"; "dialog"; "popup"; "tooltip";
   "page"; "view"; "screen"; "viewport";
   "browser"; "display"; "show"; "render";
   "click"; "tap"; "hover"; "scroll"; "drag";
   "header"; "footer"; "navigation"; "sidebar";
   "theme"; "font"; "color"; "icon"; "image";
   "animation"; "transition"; "accessibility"; "a11y"].

(** What [extractJiraData] hands over. *)
Record issue_data := IssueData {
  title : string;
  description : string;
  acceptanceCriteria : string
}.

(** What awaiting [openaiCheckFn(context)] comes to. *)
Inductive check_outcome :=
| Answers (isUiStory : bool)
| Throws.

Definition combinedText (issueData : issue_data) : string :=
  toLowerCase (title issueData +:+ " " +:+ description issueData +:+ " "
               +:+ acceptanceCriteria issueData).

(** [KEYWORDS.filter(keyword => combinedText.includes(keyword.toLowerCase()))] *)
Definition found (keywords : list string) (issueData : issue_data)
    : list string :=
  List.filter (λ keyword, includes (combinedText issueData) (toLowerCase keyword))
    keywords.

Definition context (issueData : issue_data) : string :=
  "Title: " +:+ title issueData +:+ OpenAIService.newline
  +:+ OpenAIService.newline +:+ "Description: " +:+ description issueData
  +:+ OpenAIService.newline +:+ OpenAIService.newline
  +:+ "Acceptance Criteria: " +:+ acceptanceCriteria issueData.

(** [checkIfUiStory], from the extracted issue data on. *)
Definition checkIfUiStory (issueData : issue_data)
    (openaiCheckFn : option (string → check_outcome)) : bool :=
  let backendKeywordCount := length (found BACKEND_KEYWORDS issueData) in
  let uiKeywordCount := length (found UI_KEYWORDS issueData) in
  if Nat.ltb 2 uiKeywordCount then true
  else if Nat.ltb 5 backendKeywordCount && Nat.eqb uiKeywordCount 0 then false
  else if Nat.ltb uiKeywordCount backendKeywordCount then false
  else
    match openaiCheckFn with
    | Some check =>
        match check (context issueData) with
        | Answers isUiStory => isUiStory
        | Throws => Nat.leb backendKeywordCount uiKeywordCount
        end
    | None => Nat.leb backendKeywordCount uiKeywordCount
    end.

End UiDetection.

Definition story_login : UiDetection.issue_data :=
  {| UiDetection.title := "Login form";
     UiDetection.description := "The user signs in with email and password.";
     UiDetection.acceptanceCriteria := "" |}.

Definition story_export : UiDetection.issue_data :=
  {| UiDetection.title := "Nightly export job";
     UiDetection.description := "A cron task writes the database dump to S3.";
     UiDetection.acceptanceCriteria := "" |}.

(** * Properties *)

(** ** Strings *)

Lemma trimStart_empty s : Js.trimStart s = "" ↔ all_whitespace s = true.
Proof.
  induction s as [|c s IH]; simpl; [done|].
  destruct (Js.is_whitespace c); simpl; [done|]. split; discriminate.
Qed.

Lemma trimStart_head s :
  Js.trimStart s = "" ∨
  ∃ c s', Js.trimStart s = String c s' ∧ Js.is_whitespace c = false.
Proof.
  induction s as [|c s IH]; simpl; [by left|].
  destruct (Js.is_whitespace c) eqn:Hc; [done|]. right. eauto.
Qed.

Lemma rev_app_empty s acc : String.rev_app s acc = "" → s = "" ∧ acc = "".
Proof.
  revert acc. induction s as [|c s IH]; simpl; intros acc H; [done|].
  apply IH in H as [_ ?]. discriminate.
Qed.

Lemma all_whitespace_rev_app s acc :
  all_whitespace (String.rev_app s acc) = all_whitespace s && all_whitespace acc.
Proof.
  revert acc. induction s as [|c s IH]; simpl; intros acc; [done|].
  rewrite IH. simpl. destruct (Js.is_whitespace c), (all_whitespace s); done.
Qed.

(** [s.trim() === ""] exactly when [s] is made of white space only. *)
Lemma trim_empty s : Js.trim s = "" ↔ all_whitespace s = true.
Proof.
  unfold Js.trim, Js.trimEnd, String.rev. split.
  - intros H. apply rev_app_empty in H as [H _].
    apply trimStart_empty in H. rewrite all_whitespace_rev_app in H.
    apply andb_true_iff in H as [H _].
    destruct (trimStart_head s) as [E|(c & s' & E & Hc)].
    + by apply trimStart_empty.
    + rewrite E in H. simpl in H. by rewrite Hc in H.
  - intros H. apply trimStart_empty in H. by rewrite H.
Qed.

Lemma trim_nonempty s : Js.trim s ≠ "" → s ≠ "".
Proof. intros H ->. by apply H. Qed.

Lemma startsWith_hash_not_blank s :
  Js.startsWith s "#" = true → Js.trim s ≠ "".
Proof.
  destruct s as [|c s]; [done|]. unfold Js.startsWith.
  change (String.prefix "#" (String c s))
    with (if Ascii.ascii_dec "#" c then String.prefix "" s else false).
  destruct (Ascii.ascii_dec "#" c) as [<-|]; [|done].
  intros _ H. by apply trim_empty in H.
Qed.

Lemma truthy_str_true s : Js.truthy_str s = true ↔ s ≠ "".
Proof.
  unfold Js.truthy_str. destruct (String.eqb_spec s ""); simpl; split; congruence.
Qed.

Lemma truthy_str_false s : Js.truthy_str s = false ↔ s = "".
Proof.
  unfold Js.truthy_str. destruct (String.eqb_spec s ""); simpl; split; congruence.
Qed.


Lemma pretty_N_go_nonempty x s : s ≠ "" → pretty_N_go x s ≠ "".
Proof.
  revert s. induction (N.lt_wf_0 x) as [x _ IH]; intros s Hs.
  destruct (decide (x = 0%N)) as [->|Hx]; [by rewrite pretty_N_go_0|].
  rewrite pretty_N_go_step by lia. apply IH; [apply N.div_lt; lia|done].
Qed.

Lemma pretty_N_nonempty (x : N) : pretty x ≠ "".
Proof.
  unfold pretty, pretty_N. case_decide; [done|].
  rewrite pretty_N_go_step by lia. by apply pretty_N_go_nonempty.
Qed.

Lemma to_string_nonempty n : Js.to_string n ≠ "".
Proof.
  unfold Js.to_string, pretty, pretty_Z. destruct n; [done| |done].
  apply pretty_N_nonempty.
Qed.

Lemma to_string_inj n m : Js.to_string n = Js.to_string m → n = m.
Proof. apply (inj pretty). Qed.

(** A stored version number is a string, the current version a number:
    [===] never holds between them, so the guard never finds the version. *)
Lemma versionExists_false n (vs : list version) :
  existsb (λ v, Js.strict_eq (Js.Str (versionNumber v)) (Js.Num n)) vs = false.
Proof. by induction vs. Qed.

(** ** Validation and [save] *)

Lemma enum_status_spec (st : option string) :
  enum ["completed"; "failed"] st = true →
  st = None ∨ st = Some "completed" ∨ st = Some "failed".
Proof.
  destruct st as [x|]; simpl; [|by left].
  intros H. apply bool_decide_eq_true in H.
  apply elem_of_cons in H as [->|H]; [by right; left|].
  apply elem_of_cons in H as [->|H]; [by right; right|].
  by apply elem_of_nil in H.
Qed.

Lemma validate_spec g :
  validate g = true ↔
  enum ["manual"; "auto"] (mode g) = true
  ∧ enum ["completed"; "failed"] (status g) = true
  ∧ from_option validate_markdown true (result g) = true
  ∧ forallb validate_version (versions g) = true.
Proof. unfold validate. rewrite !andb_true_iff. tauto. Qed.

Lemma validate_status g : validate g = true → status_in_schema g.
Proof.
  intros H. apply validate_spec in H as (_ & H & _). by apply enum_status_spec.
Qed.

Lemma save_Some id g s s' :
  save id g s = Some s' ↔
  validate g = true
  ∧ s' = {| generations := <[id := g]> (generations s);
            projects := projects s; next_oid := next_oid s |}.
Proof.
  unfold save. destruct (validate g); split.
  - by intros [= <-].
  - by intros [_ ->].
  - done.
  - by intros [? _].
Qed.

Lemma save_valid id g s :
  validate g = true →
  save id g s = Some {| generations := <[id := g]> (generations s);
                        projects := projects s; next_oid := next_oid s |}.
Proof. intros H. by apply save_Some. Qed.

Lemma store_ok_insert id g s :
  store_ok s → (id < next_oid s)%nat → gen_ok g →
  store_ok {| generations := <[id := g]> (generations s);
              projects := projects s; next_oid := next_oid s |}.
Proof.
  intros [Hg Hp] Hid Hok. split; [|done]. simpl. intros i g' Hi.
  destruct (decide (id = i)) as [->|Hne].
  - rewrite lookup_insert_eq in Hi. by simplify_eq.
  - rewrite lookup_insert_ne in Hi by done. by apply Hg.
Qed.

Lemma store_ok_save_and_send id g r s :
  store_ok s → (id < next_oid s)%nat → (validate g = true → gen_ok g) →
  store_ok (save_and_send id g r s).1.
Proof.
  intros Hs Hid Hg. unfold save_and_send.
  destruct (save id g s) as [s'|] eqn:E; simpl; [|done].
  apply save_Some in E as [Hv ->]. by apply store_ok_insert; [..|apply Hg].
Qed.

Lemma save_and_send_valid id g r s :
  validate g = true →
  save_and_send id g r s =
  ({| generations := <[id := g]> (generations s);
      projects := projects s; next_oid := next_oid s |}, r).
Proof. intros H. unfold save_and_send. by rewrite save_valid. Qed.

(** ** Record updates keep the record well formed *)

Lemma seqZ_snoc (n : Z) : (1 ≤ n)%Z → seqZ 1 (n + 1 - 1) = (seqZ 1 (n - 1) ++ [n])%list.
Proof.
  intros Hn. replace (n + 1 - 1) with ((n - 1) + 1) by lia.
  rewrite seqZ_app by lia. f_equal.
  rewrite seqZ_cons by lia. rewrite seqZ_nil by lia. f_equal. lia.
Qed.

Lemma gen_ok_new actor key r t :
  ref_id r = None → gen_ok (new_generation actor key r t).
Proof.
  intros Hr. split; simpl; try done.
  by destruct (ref_truthy r).
Qed.

Lemma gen_ok_failed g err done :
  gen_ok g → gen_ok (with_outcome g "failed" err done).
Proof.
  intros [Hv Hm Hp Hr Hvs]. split; simpl; try done.
  apply validate_spec in Hv as (? & ? & ? & ?). by apply validate_spec.
Qed.

Lemma gen_ok_completed g done usage md :
  gen_ok g → validate_markdown md = true → Js.trim (content md) ≠ "" →
  gen_ok (with_completion g done usage md).
Proof.
  intros [Hv Hm Hp Hr Hvs] Hmd Hc. split; simpl; try done.
  - apply validate_spec in Hv as (? & ? & ? & ?). by apply validate_spec.
  - eauto.
Qed.

Lemma gen_ok_published g p a b :
  gen_ok g → gen_ok (with_published g p a b).
Proof. intros [Hv Hm Hp Hr Hvs]. by split. Qed.

(** ** The versioning block *)

Lemma track_version_same actor t g :
  track_version actor (current_content g) t g = (versions g, currentVersion g).
Proof.
  unfold track_version. rewrite String.eqb_refl. simpl.
  by rewrite andb_false_r.
Qed.

(** The block with the guard resolved: what is left is one push. *)
Lemma track_version_eq actor c t g :
  track_version actor c t g =
  if Js.truthy_str (current_content g)
     && negb (String.eqb (current_content g) c)
  then ((versions g ++
         [ {| versionNumber := Js.to_string (Js.num_or (currentVersion g) 1);
              v_content := current_content g; releaseDate := t;
              updatedBy := actor; notes := None |} ])%list,
        Js.num_or (currentVersion g) 1 + 1)
  else (versions g, currentVersion g).
Proof. unfold track_version. by rewrite versionExists_false. Qed.

Lemma num_or_nonzero n d : n ≠ 0 → Js.num_or n d = n.
Proof. intros H. unfold Js.num_or. by destruct (Z.eqb_spec n 0). Qed.

Lemma track_version_changed actor c t g :
  currentVersion g ≠ 0 → current_content g ≠ "" → c ≠ current_content g →
  track_version actor c t g =
  ((versions g ++
    [ {| versionNumber := Js.to_string (currentVersion g);
         v_content := current_content g; releaseDate := t;
         updatedBy := actor; notes := None |} ])%list,
   currentVersion g + 1).
Proof.
  intros Hcv Hcur Hc. rewrite track_version_eq.
  apply truthy_str_true in Hcur. rewrite Hcur.
  destruct (String.eqb_spec (current_content g) c) as [E|_]; [by subst|].
  simpl. by rewrite num_or_nonzero.
Qed.

Lemma versions_shape_tracked actor c t g :
  versions_shape g → versions_shape
    (with_content g (track_version actor c t g).1 (track_version actor c t g).2
       (set_markdown_content g c)).
Proof.
  intros [Hcv Hvs]. unfold versions_shape. rewrite track_version_eq. simpl.
  destruct (Js.truthy_str (current_content g)
            && negb (String.eqb (current_content g) c)); simpl; [|done].
  rewrite num_or_nonzero by lia.
  split; [lia|].
  rewrite fmap_app, seqZ_snoc, fmap_app by done. by rewrite Hvs.
Qed.

Lemma validate_tracked actor c t g :
  actor ≠ "" →
  forallb validate_version (versions g) = true →
  forallb validate_version (track_version actor c t g).1 = true.
Proof.
  intros Ha Hvs. rewrite track_version_eq.
  destruct (Js.truthy_str (current_content g)) eqn:Hcur; simpl; [|done].
  destruct (negb (String.eqb (current_content g) c)); simpl; [|done].
  rewrite forallb_app, Hvs. simpl. unfold validate_version, required. simpl.
  rewrite Hcur.
  rewrite (proj2 (truthy_str_true _) (to_string_nonempty _)).
  by rewrite (proj2 (truthy_str_true _) Ha).
Qed.

Lemma validate_revised actor c t g :
  gen_ok g → status g = Some "completed" → actor ≠ "" → Js.trim c ≠ "" →
  validate (with_content g (track_version actor c t g).1
              (track_version actor c t g).2 (set_markdown_content g c)) = true.
Proof.
  intros [Hv Hm Hp Hr Hvs] Hst Ha Hc.
  apply validate_spec in Hv as (H1 & H2 & H3 & H4). apply validate_spec.
  simpl. split_and!; try done.
  - destruct (Hr Hst) as (md & Hmd & _).
    unfold set_markdown_content, validate_markdown, required. simpl.
    rewrite Hmd in H3 |- *. simpl in *.
    unfold validate_markdown, required in H3.
    apply andb_true_iff in H3 as [_ ->]. rewrite andb_true_r.
    by apply truthy_str_true, trim_nonempty.
  - by apply validate_tracked.
Qed.

(** A revision that passes validation leaves the record well formed,
    whoever wrote it. *)
Lemma gen_ok_revised actor c t g :
  gen_ok g → status g = Some "completed" → Js.trim c ≠ "" →
  validate (with_content g (track_version actor c t g).1
              (track_version actor c t g).2 (set_markdown_content g c)) = true →
  gen_ok (with_content g (track_version actor c t g).1
            (track_version actor c t g).2 (set_markdown_content g c)).
Proof.
  intros [Hv Hm Hp Hr Hvs] Hst Hc Hval. split; simpl; try done.
  - intros _. eauto.
  - by apply versions_shape_tracked.
Qed.

(** ** Every handler keeps the store well formed *)

Lemma attach_project_spec actor key t s :
  ∃ ps n,
    (attach_project actor key t s).1 =
      {| generations := generations s; projects := ps; next_oid := n |}
    ∧ (next_oid s ≤ n)%nat
    ∧ (Forall (λ p, totalGenerations p = 0) (projects s) →
       Forall (λ p, totalGenerations p = 0) ps)
    ∧ ref_id (attach_project actor key t s).2 = None.
Proof.
  unfold attach_project. destruct (extractProjectKey key) as [k|]; simpl.
  - unfold findOrCreateProject, save_project, fresh_oid.
    destruct (negb (Js.truthy_str k)); simpl.
    { exists (projects s), (next_oid s). by destruct s. }
    destruct (findOne_project _ s) as [p|] eqn:Hp; simpl.
    + eexists _, _. split; [reflexivity|]. split; [lia|]. split; [|done].
      intros Hall.
      assert (totalGenerations p = 0) as Hp0.
      { unfold findOne_project in Hp. apply find_some in Hp as [Hin _].
        rewrite Forall_forall in Hall. apply Hall. by apply list_elem_of_In. }
      destruct (existsb _ _).
      * apply Forall_fmap. eapply Forall_impl; [done|]. simpl.
        intros q Hq. by destruct (Nat.eqb _ _).
      * apply Forall_app. split; [done|]. by constructor.
    + destruct (required _); simpl.
      2: { eexists _, _. split; [reflexivity|]. split; [lia|]. done. }
      eexists _, _. split; [reflexivity|]. split; [lia|]. split; [|done].
      intros Hall. simpl. destruct (existsb _ _).
      * apply Forall_fmap. eapply Forall_impl; [done|]. simpl.
        intros q Hq. by destruct (Nat.eqb _ _).
      * apply Forall_app. split; [done|]. by constructor.
  - exists (projects s), (next_oid s). by destruct s.
Qed.

Lemma update_project_stats_promise r s :
  ref_id r = None → update_project_stats r s = s.
Proof.
  intros H. unfold update_project_stats. rewrite H. simpl.
  by destruct (ref_truthy r).
Qed.

(** ** The OpenAI service returns, after one call at most *)

Lemma generateTestCases_spec b api context key autoMode :
  ∃ n r,
    OpenAIService.generateTestCases b api context key autoMode = Some (n, r)
    ∧ (n ≤ 1)%nat
    ∧ ((∃ message, r = inl message)
       ∨ (∃ g, r = inr (Some g) ∧ OpenAIService.g_content g ≠ "")).
Proof.
  unfold OpenAIService.generateTestCases.
  destruct (if autoMode then _ else _) as [systemPrompt|].
  - unfold OpenAIService.maxRetries. cbn [while OpenAIService.retryCount Nat.ltb Nat.leb].
    unfold OpenAIService.loop_body, OpenAIService.attempt.
    cbn [OpenAIService.calls OpenAIService.retryCount OpenAIService.lastError].
    destruct (api _ _ _) as [text usage|message].
    + destruct (Js.truthy_str text) eqn:Ht; simpl.
      * eexists _, _. split; [reflexivity|]. split; [lia|]. right.
        eexists. split; [reflexivity|]. simpl. by apply truthy_str_true.
      * eexists _, _. split; [reflexivity|]. split; [lia|]. left. eauto.
    + simpl. eexists _, _. split; [reflexivity|]. split; [lia|]. left. eauto.
  - eexists _, _. split; [reflexivity|]. split; [lia|]. left. eauto.
Qed.

Lemma generate_markdown_spec w key summary context autoMode :
  ∃ n r,
    generate_markdown w key summary context autoMode = Some (n, r)
    ∧ (n ≤ 1)%nat
    ∧ ∀ c u, r = inr (c, u) → Js.trim c ≠ "".
Proof.
  unfold generate_markdown. destruct (openai w) as [api|].
  - destruct (generateTestCases_spec (prompts w) api context key autoMode)
      as (n & r & -> & Hn & [[m ->]|(g & -> & Hg)]).
    + eexists _, _. split; [reflexivity|]. split; [done|]. intros ? ? [=].
    + eexists _, _. split; [reflexivity|]. split; [done|].
      intros c u [= <- _].
      destruct (Js.startsWith (OpenAIService.g_content g) "#") eqn:Hs; simpl.
      * by apply startsWith_hash_not_blank.
      * by apply startsWith_hash_not_blank.
  - eexists _, _. split; [reflexivity|]. split; [lia|]. intros ? ? [=].
Qed.

Lemma app_nonempty_r (a b : string) : b ≠ "" → a +:+ b ≠ "".
Proof. destruct a; [done|]. by intros _. Qed.

(** What [run_generation] leaves: the collection as it was, or the record
    under [id] replaced by its failed or completed form. *)
Lemma run_generation_spec w autoMode id g s :
  validate g = true →
  ∃ s' resp,
    run_generation w autoMode id g s = Some (s', resp)
    ∧ projects s' = projects s ∧ next_oid s' = next_oid s
    ∧ (generations s' = generations s
       ∨ ∃ g', generations s' = <[id := g']> (generations s)
           ∧ ((∃ err done, g' = with_outcome g "failed" err done)
              ∨ (∃ done usage md,
                   g' = with_completion g done usage md
                   ∧ validate_markdown md = true
                   ∧ Js.trim (content md) ≠ ""))).
Proof.
  intros Hv. unfold run_generation.
  assert (∀ err done, validate (with_outcome g "failed" err done) = true) as Hf.
  { intros. apply validate_spec in Hv as (? & ? & ? & ?). by apply validate_spec. }
  destruct (jira w) as [getIssue|].
  2: { eexists _, _. split; [reflexivity|]. auto. }
  destruct (getIssue (issueKey g)) as [summary description|err].
  2: { rewrite save_and_send_valid by done. eexists _, _.
       split; [reflexivity|]. simpl. split_and!; try done. right. eauto 10. }
  destruct (generate_markdown_spec w (issueKey g) summary
              ("Title: " +:+ summary +:+ OpenAIService.newline
               +:+ OpenAIService.newline +:+ "Description: " +:+ description)
              autoMode) as (n & r & -> & _ & Hr).
  destruct r as [message|[c u]].
  - rewrite save_and_send_valid by done. eexists _, _.
    split; [reflexivity|]. simpl. split_and!; try done. right. eauto 10.
  - specialize (Hr c u eq_refl).
    assert (validate_markdown
              {| content := c;
                 filename := issueKey g +:+ "_testcases_" +:+ pretty id +:+ ".md" |}
            = true) as Hmd.
    { unfold validate_markdown, required. simpl. apply andb_true_iff. split.
      - by apply truthy_str_true, trim_nonempty.
      - apply truthy_str_true. by apply app_nonempty_r. }
    rewrite save_and_send_valid.
    + eexists _, _. split; [reflexivity|]. simpl. split_and!; try done.
      right. eexists. split; [reflexivity|]. right. eauto 10.
    + apply validate_spec in Hv as (? & ? & ? & ?). apply validate_spec.
      simpl. by rewrite Hmd.
Qed.

Lemma validate_new actor key r t : validate (new_generation actor key r t) = true.
Proof. reflexivity. Qed.

(** What [persist_new] leaves: the new record under a fresh id, with the
    registry as [attach_project] left it. *)
Lemma persist_new_spec actor key t s :
  let s1 := (attach_project actor key t s).1 in
  let g := new_generation actor key (attach_project actor key t s).2 t in
  persist_new actor key t s =
  ({| generations := <[next_oid s1 := g]> (generations s1);
      projects := projects s1; next_oid := S (next_oid s1) |},
   Some (next_oid s1, g)).
Proof.
  intros s1 g. unfold persist_new.
  destruct (attach_project_spec actor key t s) as (ps & n & Hs1 & _ & _ & Hr).
  destruct (attach_project actor key t s) as [s1' r] eqn:E. simpl in *.
  subst s1 g. unfold fresh_oid. cbv beta iota zeta.
  by rewrite update_project_stats_promise.
Qed.

(** The three forms the record of a request can be left in. *)
Lemma post_testcases_spec actor key autoMode w s :
  Js.truthy_str key = true →
  let s1 := (attach_project actor key (now w) s).1 in
  let g := new_generation actor key (attach_project actor key (now w) s).2 (now w) in
  ∃ s' resp g',
    post_testcases actor (CreateRequest (Some key) autoMode) w s = Some (s', resp)
    ∧ generations s' = <[next_oid s1 := g']> (generations s)
    ∧ next_oid s' = S (next_oid s1)
    ∧ projects s' = projects s1
    ∧ (g' = g
       ∨ (∃ err done, g' = with_outcome g "failed" err done)
       ∨ (∃ done usage md,
            g' = with_completion g done usage md
            ∧ validate_markdown md = true
            ∧ Js.trim (content md) ≠ "")).
Proof.
  intros Hk s1 g. unfold post_testcases. simpl. rewrite Hk.
  rewrite persist_new_spec. fold s1 g.
  destruct (attach_project_spec actor key (now w) s) as (ps & n & Hs1 & _ & _ & _).
  fold s1 in Hs1.
  assert (generations s1 = generations s) as Hgs by (by rewrite Hs1).
  destruct (run_generation_spec w autoMode (next_oid s1) g
              {| generations := <[next_oid s1 := g]> (generations s1);
                 projects := projects s1; next_oid := S (next_oid s1) |}
              (validate_new _ _ _ _))
    as (s' & resp & -> & Hp & Hn & Hcases).
  simpl in *. exists s', resp.
  destruct Hcases as [Hsame|(g' & Hg' & Hform)].
  - exists g. rewrite Hsame, Hgs. split_and!; auto.
  - exists g'. rewrite Hg', insert_insert_eq, Hgs. split_and!; auto.
Qed.

Lemma post_testcases_store_ok actor req w s s' resp :
  store_ok s →
  post_testcases actor req w s = Some (s', resp) → store_ok s'.
Proof.
  intros Hs H. destruct req as [[key|] autoMode].
  2: { unfold post_testcases in H. simpl in H. by simplify_eq. }
  destruct (Js.truthy_str key) eqn:Hk.
  2: { unfold post_testcases in H. simpl in H. rewrite Hk in H. by simplify_eq. }
  destruct (post_testcases_spec actor key autoMode w s Hk)
    as (s'' & resp' & g' & E & Hgs & Hn & Hps & Hform).
  rewrite E in H. simplify_eq.
  destruct (attach_project_spec actor key (now w) s)
    as (ps & n & Hs1 & Hle & Hall & Hr).
  destruct Hs as [Hgens Hprojs].
  rewrite Hs1 in Hgs, Hn, Hps. simpl in *.
  split.
  - rewrite Hgs, Hn. intros i gi Hi.
    destruct (decide (n = i)) as [<-|Hne].
    + rewrite lookup_insert_eq in Hi. simplify_eq. split; [lia|].
      pose proof (gen_ok_new actor key _ (now w) Hr) as Hnew.
      destruct Hform as [->|[(err & done & ->)|(done & usage & md & -> & ? & ?)]].
      * done.
      * by apply gen_ok_failed.
      * by apply gen_ok_completed.
    + rewrite lookup_insert_ne in Hi by done.
      destruct (Hgens i gi Hi). split; [lia|done].
  - rewrite Hps. by apply Hall.
Qed.

Lemma put_content_store_ok actor id c t s :
  store_ok s → store_ok (put_content actor id c t s).1.
Proof.
  intros Hs. unfold put_content.
  destruct c as [c|]; [|done].
  destruct (String.eqb_spec (Js.trim c) "") as [|Hc]; [done|].
  destruct (findById id s) as [gen|] eqn:Hgen; [|done].
  destruct (isOwner actor gen); [|done]. simpl.
  destruct (is_completed gen) eqn:Hst; [|done]. simpl.
  destruct (track_version actor c t gen) as [vs cv] eqn:E.
  destruct Hs as [Hgens Hprojs]. destruct (Hgens id gen Hgen) as [Hid Hok].
  apply store_ok_save_and_send; [done..|].
  replace vs with (track_version actor c t gen).1 by (by rewrite E).
  replace cv with (track_version actor c t gen).2 by (by rewrite E).
  intros Hval. apply gen_ok_revised; try done.
  unfold is_completed, status_value in Hst.
  destruct (status gen) as [st|]; [|done]. simpl in Hst.
  by apply String.eqb_eq in Hst as ->.
Qed.

Lemma put_publish_store_ok actor id p t s :
  store_ok s → store_ok (put_publish actor id p t s).1.
Proof.
  intros Hs. unfold put_publish.
  destruct p as [p|]; [|done].
  destruct (findById id s) as [gen|] eqn:Hgen; [|done].
  destruct (isOwner actor gen); [|done]. simpl.
  destruct (is_completed gen); [|done]. simpl.
  destruct Hs as [Hgens Hprojs]. destruct (Hgens id gen Hgen) as [Hid Hok].
  apply store_ok_save_and_send; [done..|].
  intros _. destruct p; by apply gen_ok_published.
Qed.

Lemma delete_store_ok actor id s :
  store_ok s → store_ok (delete_generation actor id s).1.
Proof.
  intros Hs. unfold delete_generation.
  destruct (findById id s) as [gen|]; [|done].
  destruct (isOwner actor gen); [|done]. simpl.
  destruct Hs as [Hgens Hprojs]. split; [|done]. simpl.
  intros i g Hi. apply lookup_delete_Some in Hi as [_ Hi]. by apply Hgens.
Qed.

Lemma handle_store_ok r s s' resp :
  store_ok s → handle r s = Some (s', resp) → store_ok s'.
Proof.
  intros Hs H. destruct r; simpl in *.
  - by eapply post_testcases_store_ok.
  - by simplify_eq.
  - by simplify_eq.
  - injection H as H. replace s' with (put_content actor id body_content t s).1
      by (by rewrite H). by apply put_content_store_ok.
  - injection H as H. replace s' with (put_publish actor id body_published t s).1
      by (by rewrite H). by apply put_publish_store_ok.
  - injection H as H. replace s' with (delete_generation actor id s).1
      by (by rewrite H). by apply delete_store_ok.
Qed.

Lemma store_ok_empty : store_ok empty_store.
Proof.
  split; [|by constructor]. simpl. intros id g H. by rewrite lookup_empty in H.
Qed.

Lemma reachable_store_ok s : reachable s → store_ok s.
Proof.
  induction 1 as [|s r s' _ IH [resp Hh]]; [apply store_ok_empty|].
  by eapply handle_store_ok.
Qed.

(** ** Runs and reachability *)

Lemma run_steps rs s s' : run rs s = Some s' → steps s rs s'.
Proof.
  revert s. induction rs as [|r rs IH]; simpl; intros s H.
  - simplify_eq. constructor.
  - destruct (handle r s) as [[s1 resp]|] eqn:E; [|done].
    econstructor; [|by apply IH]. by exists resp.
Qed.

Lemma steps_reachable s rs s' : reachable s → steps s rs s' → reachable s'.
Proof.
  intros Hs H. induction H as [|s r s1 rs s' Hstep _ IH]; [done|].
  apply IH. by econstructor.
Qed.

Lemma after_reachable rs :
  is_Some (run rs empty_store) → reachable (after rs).
Proof.
  intros [s Hs]. unfold after. rewrite Hs. simpl.
  eapply steps_reachable; [constructor|]. by apply run_steps.
Qed.

(** ** The status of a stored record under one request *)

Lemma save_and_send_lookup id g r s i :
  generations (save_and_send id g r s).1 !! i = generations s !! i
  ∨ (i = id ∧ generations (save_and_send id g r s).1 !! i = Some g).
Proof.
  unfold save_and_send. destruct (save id g s) as [s'|] eqn:E; simpl; [|by left].
  apply save_Some in E as [_ ->]. simpl.
  destruct (decide (id = i)) as [->|Hne].
  - right. by rewrite lookup_insert_eq.
  - left. by rewrite lookup_insert_ne.
Qed.

Lemma is_completed_status g : is_completed g = true ↔ status g = Some "completed".
Proof.
  unfold is_completed, status_value. destruct (status g) as [st|]; simpl.
  - rewrite String.eqb_eq. split; congruence.
  - split; discriminate.
Qed.

Lemma isOwner_spec actor g : isOwner actor g = true ↔ email g = actor.
Proof. unfold isOwner. apply String.eqb_eq. Qed.

Lemma isOwner_false actor g : isOwner actor g = false ↔ email g ≠ actor.
Proof. unfold isOwner. apply String.eqb_neq. Qed.

Lemma handle_keeps_status r s s' resp id g st :
  store_ok s → handle r s = Some (s', resp) →
  generations s !! id = Some g → status g = Some st →
  generations s' !! id = None
  ∨ ∃ g', generations s' !! id = Some g' ∧ status g' = Some st.
Proof.
  intros [Hgens _] H Hg Hst. destruct (Hgens id g Hg) as [Hid _].
  destruct r as [a req w|a i|a i|a i c t|a i p t|a i]; simpl in H.
  - destruct req as [[key|] autoMode]; unfold post_testcases in H; simpl in H.
    2: { simplify_eq. eauto. }
    destruct (Js.truthy_str key) eqn:Hk.
    2: { simplify_eq. eauto. }
    destruct (post_testcases_spec a key autoMode w s Hk)
      as (s'' & resp' & g' & E & Hgs & _).
    unfold post_testcases in E. simpl in E. rewrite Hk in E.
    rewrite E in H. simplify_eq.
    destruct (attach_project_spec a key (now w) s) as (ps & n & Hs1 & Hle & _).
    rewrite Hs1 in Hgs. simpl in Hgs. right. exists g.
    rewrite Hgs, lookup_insert_ne by lia. done.
  - simplify_eq. eauto.
  - simplify_eq. eauto.
  - injection H as H.
    replace s' with (put_content a i c t s).1 by (by rewrite H). clear H.
    right. unfold put_content.
    destruct c as [c|]; [|eauto].
    destruct (String.eqb (Js.trim c) ""); [eauto|].
    destruct (findById i s) as [gen|] eqn:Hgen; [|eauto].
    destruct (isOwner a gen); [|eauto]. simpl.
    destruct (is_completed gen); [|eauto]. simpl.
    destruct (track_version a c t gen) as [vs cv].
    destruct (save_and_send_lookup i
                (with_content gen vs cv (set_markdown_content gen c))
                (ok (ContentUpdated c (Js.num_or cv 1))) s id) as [->|[-> ->]].
    + eauto.
    + unfold findById in Hgen. rewrite Hgen in Hg. simplify_eq. eauto.
  - injection H as H.
    replace s' with (put_publish a i p t s).1 by (by rewrite H). clear H.
    right. unfold put_publish.
    destruct p as [p|]; [|eauto].
    destruct (findById i s) as [gen|] eqn:Hgen; [|eauto].
    destruct (isOwner a gen); [|eauto]. simpl.
    destruct (is_completed gen); [|eauto]. simpl.
    match goal with
    | |- context [save_and_send i ?g' ?r s] =>
        destruct (save_and_send_lookup i g' r s id) as [->|[-> ->]]
    end.
    + eauto.
    + unfold findById in Hgen. rewrite Hgen in Hg. simplify_eq.
      eexists. split; [done|]. by destruct p.
  - injection H as H.
    replace s' with (delete_generation a i s).1 by (by rewrite H). clear H.
    unfold delete_generation.
    destruct (findById i s) as [gen|] eqn:Hgen; [|eauto].
    destruct (isOwner a gen); [|eauto]. simpl.
    destruct (decide (i = id)) as [->|Hne].
    + left. apply lookup_delete_eq.
    + right. rewrite lookup_delete_ne by done. eauto.
Qed.

Lemma versions_shape_invariant g : versions_shape g → versions_invariant g.
Proof.
  intros [Hcv Hvs]. unfold versions_invariant. split_and!.
  - rewrite Hvs. apply NoDup_fmap_2; [|apply NoDup_seqZ].
    intros n m. apply to_string_inj.
  - intros v Hv.
    assert (versionNumber v ∈ versionNumber <$> versions g) as Hin
      by (by apply list_elem_of_fmap_2).
    rewrite Hvs in Hin. apply list_elem_of_fmap in Hin as (n & -> & Hn).
    apply elem_of_seqZ in Hn. exists n. split; [done|lia].
  - intros Hnil. rewrite Hnil in Hvs. simpl in Hvs.
    symmetry in Hvs. apply fmap_nil_inv in Hvs.
    apply (f_equal length) in Hvs. rewrite length_seqZ in Hvs. simpl in Hvs. lia.
  - intros Hne.
    assert (2 ≤ currentVersion g)%Z as Hcv2.
    { destruct (decide (currentVersion g = 1)) as [E|]; [|lia].
      rewrite E, seqZ_nil in Hvs by lia.
      apply fmap_nil_inv in Hvs. done. }
    assert (Js.to_string (currentVersion g - 1) ∈ versionNumber <$> versions g)
      as Hin.
    { rewrite Hvs. apply list_elem_of_fmap_2. apply elem_of_seqZ. lia. }
    apply list_elem_of_fmap in Hin as (v & Hv & Hin). eauto.
Qed.

Lemma store_completed_reachable : reachable store_completed.
Proof.
  apply after_reachable.
  eexists. vm_compute. reflexivity.
Qed.

Lemma store_failed_reachable : reachable store_failed.
Proof.
  apply after_reachable.
  eexists. vm_compute. reflexivity.
Qed.

Lemma store_revised_reachable : reachable store_revised.
Proof.
  apply after_reachable.
  eexists. vm_compute. reflexivity.
Qed.

(** * The claims *)

(** ** C1: the record at creation, and the values of [status] *)

(** C1, as stated, fails: the record [POST /testcases] persists for issue
    TES-1 has no status at all, so its status is not "pending". *)
Lemma created_record_is_not_pending :
  let s1 := (persist_new qa "TES-1" 1000 empty_store).1 in
  status <$> generations s1 !! 1%nat = Some None
  ∧ status <$> generations s1 !! 1%nat ≠ Some (Some "pending").
Proof. by vm_compute. Qed.

(** C1, amended: for every request with an issue key, the handler is
    [run_generation] applied to the store [persist_new] leaves; in that
    store, the one the external calls start from, the new record is
    persisted with its status unset and [startedAt] at the creation time.
    In every store the service can reach, the status of every generation
    is unset, "completed" or "failed". *)
Theorem created_record_has_no_status actor key autoMode w s :
  Js.truthy_str key = true →
  ∃ s1 id g,
    persist_new actor key (now w) s = (s1, Some (id, g))
    ∧ post_testcases actor
        {| body_issueKey := Some key; body_autoMode := autoMode |} w s
      = run_generation w autoMode id g s1
    ∧ generations s1 !! id = Some g
    ∧ status g = None
    ∧ startedAt g = Some (now w)
    ∧ ∀ s0 i g0,
        reachable s0 → generations s0 !! i = Some g0 → status_in_schema g0.
Proof.
  intros Hk. eexists _, _, _. split; [apply persist_new_spec|].
  split_and!.
  - unfold post_testcases. simpl. rewrite Hk. by rewrite persist_new_spec.
  - simpl. apply lookup_insert_eq.
  - done.
  - done.
  - intros s0 i g0 Hs0 Hg0. apply reachable_store_ok in Hs0 as [Hgens _].
    destruct (Hgens i g0 Hg0) as [_ Hok]. apply validate_status, Hok.
Qed.

Lemma created_record_has_no_status_witness :
  Js.truthy_str "TES-1" = true
  ∧ ∃ s1 id g,
      persist_new qa "TES-1" (now world_up) empty_store = (s1, Some (id, g))
      ∧ post_testcases qa
          {| body_issueKey := Some "TES-1"; body_autoMode := false |}
          world_up empty_store
        = run_generation world_up false id g s1
      ∧ generations s1 !! id = Some g
      ∧ status g = None
      ∧ startedAt g = Some (now world_up)
      ∧ ∀ s0 i g0,
          reachable s0 → generations s0 !! i = Some g0 → status_in_schema g0.
Proof.
  split; [reflexivity|].
  apply (created_record_has_no_status qa "TES-1" false world_up empty_store).
  reflexivity.
Defined.

(** ** C2: the invariant of the version archive *)

(** C2: in every store the service can reach, so after any sequence of
    requests, a completed generation archives no version number twice, every
    archived number is below [currentVersion], and [currentVersion] is the
    highest archived number plus one (1 for an empty archive); one more
    request, a revision in particular, leaves it so. *)
Theorem completed_versions_invariant s id g :
  reachable s → generations s !! id = Some g → status g = Some "completed" →
  versions_invariant g
  ∧ ∀ r s' g',
      step s r s' → generations s' !! id = Some g' →
      status g' = Some "completed" ∧ versions_invariant g'.
Proof.
  intros Hs Hg Hst. split.
  - apply reachable_store_ok in Hs as [Hgens _].
    destruct (Hgens id g Hg) as [_ Hok]. apply versions_shape_invariant, Hok.
  - intros r s' g' Hstep Hg'.
    pose proof (reachable_store_ok s Hs) as Hok.
    destruct Hstep as [resp Hh].
    destruct (handle_keeps_status r s s' resp id g "completed" Hok Hh Hg Hst)
      as [E|(g'' & E & Hst')]; rewrite E in Hg'; simplify_eq.
    split; [done|].
    pose proof (handle_store_ok r s s' resp Hok Hh) as [Hgens' _].
    destruct (Hgens' id g' E) as [_ Hok']. apply versions_shape_invariant, Hok'.
Qed.

Lemma completed_versions_invariant_witness :
  reachable store_revised
  ∧ ∃ g, generations store_revised !! 1%nat = Some g
         ∧ status g = Some "completed"
         ∧ versionNumber <$> versions g = ["1"]
         ∧ currentVersion g = 2
         ∧ (versions_invariant g
            ∧ ∀ r s' g',
                step store_revised r s' → generations s' !! 1%nat = Some g' →
                status g' = Some "completed" ∧ versions_invariant g').
Proof.
  split; [apply store_revised_reachable|].
  eexists. split; [vm_compute; reflexivity|]. split; [reflexivity|].
  split; [reflexivity|]. split; [reflexivity|].
  apply (completed_versions_invariant store_revised 1%nat).
  - apply store_revised_reachable.
  - vm_compute; reflexivity.
  - reflexivity.
Defined.

(** ** C3: a revision with different content *)




(** Content that is empty or white space only is refused before the
    record is looked up. *)
Lemma blank_content_is_rejected actor id c t s :
  Js.trim c = "" →
  put_content actor id (Some c) t s = (s, bad_request "Content is required!").
Proof. intros H. unfold put_content. by rewrite H. Qed.

(** ** C4: a revision with the same content *)

Lemma with_content_same g md :
  result g = Some md →
  with_content g (versions g) (currentVersion g)
    (set_markdown_content g (current_content g)) = g.
Proof.
  intros H. unfold with_content, set_markdown_content, current_content.
  rewrite H. destruct g, md. simpl in *. by rewrite H.
Qed.

(** C4: on a completed generation, a revision by the owner with the
    content that is already current succeeds and changes nothing: the store
    is the same afterwards, [versions] and [currentVersion] included, and
    the answer reports the unchanged [currentVersion]. *)
Theorem revise_same_content_is_noop s id g actor t :
  reachable s → generations s !! id = Some g → status g = Some "completed" →
  email g = actor →
  put_content actor id (Some (current_content g)) t s =
    (s, ok (ContentUpdated (current_content g) (currentVersion g)))
  ∧ ∀ g', generations (put_content actor id (Some (current_content g)) t s).1
            !! id = Some g' →
          versions g' = versions g ∧ currentVersion g' = currentVersion g.
Proof.
  intros Hs Hg Hst Hown.
  pose proof (reachable_store_ok s Hs) as [Hgens _].
  destruct (Hgens id g Hg) as [_ Hok].
  pose proof Hok as [Hv Hm Hp Hr [Hcv Hvs]].
  destruct (Hr Hst) as (md & Hmd & Hcur).
  assert (put_content actor id (Some (current_content g)) t s =
          (s, ok (ContentUpdated (current_content g) (currentVersion g)))) as E.
  { unfold put_content.
    assert (Js.trim (current_content g) ≠ "") as Hne
      by (unfold current_content; by rewrite Hmd).
    destruct (String.eqb_spec (Js.trim (current_content g)) "") as [|_]; [done|].
    unfold findById. rewrite Hg.
    rewrite (proj2 (isOwner_spec actor g) Hown). simpl.
    rewrite (proj2 (is_completed_status g) Hst). simpl.
    rewrite track_version_same.
    rewrite (with_content_same g md Hmd).
    rewrite save_and_send_valid by done.
    rewrite insert_id by done. rewrite num_or_nonzero by lia.
    by destruct s. }
  split; [done|]. rewrite E. simpl. intros g' Hg'. by simplify_eq.
Qed.

Lemma revise_same_content_is_noop_witness :
  reachable store_revised
  ∧ ∃ g, generations store_revised !! 1%nat = Some g
    ∧ status g = Some "completed"
    ∧ email g = qa
    ∧ (put_content qa 1%nat (Some (current_content g)) 4000 store_revised =
         (store_revised,
          ok (ContentUpdated (current_content g) (currentVersion g)))
       ∧ ∀ g', generations
                 (put_content qa 1%nat (Some (current_content g)) 4000
                    store_revised).1 !! 1%nat = Some g' →
               versions g' = versions g ∧ currentVersion g' = currentVersion g).
Proof.
  split; [apply store_revised_reachable|].
  eexists. split; [vm_compute; reflexivity|]. split; [reflexivity|].
  split; [reflexivity|].
  apply (revise_same_content_is_noop store_revised 1%nat).
  - apply store_revised_reachable.
  - vm_compute; reflexivity.
  - reflexivity.
  - reflexivity.
Defined.

(** ** C5: who may view *)

(** C5, as stated, fails: the owner of a failed generation does not get
    the view, and does not get "not found" either; the answer is a 400. *)
Lemma owner_view_of_failed_generation :
  email <$> generations store_failed !! 1%nat = Some qa
  ∧ status <$> generations store_failed !! 1%nat = Some (Some "failed")
  ∧ get_view qa 1%nat store_failed = bad_request "Generation not completed yet"
  ∧ code (get_view qa 1%nat store_failed) ≠ 200%nat
  ∧ code (get_view qa 1%nat store_failed) ≠ 404%nat.
Proof. by vm_compute. Qed.

(** C5, amended: the view of an existing generation succeeds exactly when
    the generation is completed and the actor is its owner or it is
    published; so for a completed generation the owner succeeds whatever
    [published] is. A non-owner succeeds if and only if it is published and
    completed, and gets "not found" otherwise. The owner of a generation
    that is not completed gets 400 "Generation not completed yet". *)
Theorem view_access actor id s g :
  generations s !! id = Some g →
  (code (get_view actor id s) = 200%nat ↔
     status g = Some "completed" ∧ (email g = actor ∨ published g = true))
  ∧ (email g ≠ actor →
     (code (get_view actor id s) = 200%nat ↔
        published g = true ∧ status g = Some "completed")
     ∧ (¬ (published g = true ∧ status g = Some "completed") →
        get_view actor id s = not_found "Not found!"))
  ∧ (email g = actor → status g ≠ Some "completed" →
     get_view actor id s = bad_request "Generation not completed yet").
Proof.
  intros Hg. unfold get_view, findById. rewrite Hg.
  unfold isPublishedAndCompleted.
  rewrite <- !is_completed_status.
  destruct (isOwner actor g) eqn:Ho;
    [apply isOwner_spec in Ho|apply isOwner_false in Ho];
    destruct (published g), (is_completed g); simpl;
    intuition (discriminate || congruence).
Qed.

Lemma view_access_witness :
  ∃ g, generations store_failed !! 1%nat = Some g
  ∧ ((code (get_view qa 1%nat store_failed) = 200%nat ↔
        status g = Some "completed" ∧ (email g = qa ∨ published g = true))
     ∧ (email g ≠ qa →
        (code (get_view qa 1%nat store_failed) = 200%nat ↔
           published g = true ∧ status g = Some "completed")
        ∧ (¬ (published g = true ∧ status g = Some "completed") →
           get_view qa 1%nat store_failed = not_found "Not found!"))
     ∧ (email g = qa → status g ≠ Some "completed" →
        get_view qa 1%nat store_failed
        = bad_request "Generation not completed yet")).
Proof.
  eexists. split; [vm_compute; reflexivity|].
  apply (view_access qa 1%nat store_failed). vm_compute; reflexivity.
Defined.

(** ** C6: the retry loop of the generator call *)

(** C6 fails on the code: the [throw] placed after the [catch] inside the
    loop ends it on the first failure. With an API that rejects the first
    call and would answer the second, exactly one call is made, its failure
    is thrown, and the generation is stored as failed with that message
    behind the route's prefix. Whatever the API does, no more than one call
    is made. *)
Theorem first_failure_ends_the_retry_loop :
  OpenAIService.maxRetries = 3%nat
  ∧ (∀ systemPrompt userMessage,
       api_flaky systemPrompt userMessage 1%nat
       = OpenAIService.Resolves "# Test Cases for TES-1" usage_1)
  ∧ OpenAIService.generateTestCases prompts_1 api_flaky
      "Title: Login form" "TES-1" false
    = Some (1%nat, inl "rate limit exceeded")
  ∧ (λ g, (status g, error g)) <$>
      generations (after [create_TES1 world_flaky]) !! 1%nat
    = Some (Some "failed", Some "OpenAI generation failed: rate limit exceeded")
  ∧ ∀ b api context key autoMode,
      ∃ n r, OpenAIService.generateTestCases b api context key autoMode
             = Some (n, r) ∧ (n ≤ 1)%nat.
Proof.
  split; [reflexivity|]. split; [done|]. split; [by vm_compute|].
  split; [by vm_compute|].
  intros b api context key autoMode.
  destruct (generateTestCases_spec b api context key autoMode)
    as (n & r & E & Hn & _).
  eauto.
Qed.

(** ** C7: a set status is final *)

Lemma save_and_send_next_oid id g r s :
  next_oid (save_and_send id g r s).1 = next_oid s.
Proof.
  unfold save_and_send. destruct (save id g s) as [s'|] eqn:E; [|done].
  by apply save_Some in E as [_ ->].
Qed.

(** An id below the counter that names no record names none after a
    request either: new records take their id from the counter. *)
Lemma handle_absent_stays r s s' resp (id : oid) :
  handle r s = Some (s', resp) →
  (id < next_oid s)%nat → generations s !! id = None →
  (id < next_oid s')%nat ∧ generations s' !! id = None.
Proof.
  intros H Hid Hnone.
  destruct r as [a req w|a i|a i|a i c t|a i p t|a i]; simpl in H.
  - destruct req as [[key|] autoMode]; unfold post_testcases in H; simpl in H.
    2: { by simplify_eq. }
    destruct (Js.truthy_str key) eqn:Hk.
    2: { by simplify_eq. }
    destruct (post_testcases_spec a key autoMode w s Hk)
      as (s'' & resp' & g' & E & Hgs & Hn & _).
    unfold post_testcases in E. simpl in E. rewrite Hk in E.
    rewrite E in H. simplify_eq.
    destruct (attach_project_spec a key (now w) s) as (ps & n & Hs1 & Hle & _).
    rewrite Hs1 in Hgs, Hn. simpl in Hgs, Hn.
    rewrite Hgs, Hn, lookup_insert_ne by lia. split; [lia|done].
  - by simplify_eq.
  - by simplify_eq.
  - injection H as H.
    replace s' with (put_content a i c t s).1 by (by rewrite H). clear H.
    unfold put_content.
    destruct c as [c|]; [|done].
    destruct (String.eqb (Js.trim c) ""); [done|].
    destruct (findById i s) as [gen|] eqn:Hgen; [|done].
    destruct (isOwner a gen); [|done]. simpl.
    destruct (is_completed gen); [|done]. simpl.
    destruct (track_version a c t gen) as [vs cv].
    rewrite save_and_send_next_oid. split; [done|].
    match goal with
    | |- context [save_and_send i ?g' ?r s] =>
        destruct (save_and_send_lookup i g' r s id) as [->|[-> _]]
    end; [done|].
    exfalso. unfold findById in Hgen. congruence.
  - injection H as H.
    replace s' with (put_publish a i p t s).1 by (by rewrite H). clear H.
    unfold put_publish.
    destruct p as [p|]; [|done].
    destruct (findById i s) as [gen|] eqn:Hgen; [|done].
    destruct (isOwner a gen); [|done]. simpl.
    destruct (is_completed gen); [|done]. simpl.
    rewrite save_and_send_next_oid. split; [done|].
    match goal with
    | |- context [save_and_send i ?g' ?r s] =>
        destruct (save_and_send_lookup i g' r s id) as [->|[-> _]]
    end; [done|].
    exfalso. unfold findById in Hgen. congruence.
  - injection H as H.
    replace s' with (delete_generation a i s).1 by (by rewrite H). clear H.
    unfold delete_generation.
    destruct (findById i s) as [gen|] eqn:Hgen; [|done].
    destruct (isOwner a gen); [|done]. simpl. split; [done|].
    apply lookup_delete_None. by right.
Qed.

Lemma handle_next_oid_mono r s s' resp :
  handle r s = Some (s', resp) → (next_oid s ≤ next_oid s')%nat.
Proof.
  intros H.
  destruct r as [a req w|a i|a i|a i c t|a i p t|a i]; simpl in H.
  - destruct req as [[key|] autoMode]; unfold post_testcases in H; simpl in H.
    2: { by simplify_eq. }
    destruct (Js.truthy_str key) eqn:Hk.
    2: { by simplify_eq. }
    destruct (post_testcases_spec a key autoMode w s Hk)
      as (s'' & resp' & g' & E & _ & Hn & _).
    unfold post_testcases in E. simpl in E. rewrite Hk in E.
    rewrite E in H. simplify_eq.
    destruct (attach_project_spec a key (now w) s) as (ps & n & Hs1 & Hle & _).
    rewrite Hs1 in Hn. simpl in Hn. lia.
  - by simplify_eq.
  - by simplify_eq.
  - injection H as H.
    replace s' with (put_content a i c t s).1 by (by rewrite H). clear H.
    unfold put_content.
    repeat case_match; simpl; rewrite ?save_and_send_next_oid; done.
  - injection H as H.
    replace s' with (put_publish a i p t s).1 by (by rewrite H). clear H.
    unfold put_publish.
    repeat case_match; simpl; rewrite ?save_and_send_next_oid; done.
  - injection H as H.
    replace s' with (delete_generation a i s).1 by (by rewrite H). clear H.
    unfold delete_generation. repeat case_match; done.
Qed.

Lemma steps_absent_stays s rs s' (id : oid) :
  steps s rs s' → (id < next_oid s)%nat → generations s !! id = None →
  generations s' !! id = None.
Proof.
  induction 1 as [s|s r s1 rs s' [resp Hh] _ IH]; intros Hid Hnone; [done|].
  destruct (handle_absent_stays r s s1 resp id Hh Hid Hnone). by apply IH.
Qed.

Lemma steps_keep_status s rs s' id g st :
  store_ok s → steps s rs s' →
  generations s !! id = Some g → status g = Some st →
  generations s' !! id = None
  ∨ ∃ g', generations s' !! id = Some g' ∧ status g' = Some st.
Proof.
  intros Hs Hsteps. revert g.
  induction Hsteps as [s|s r s1 rs s' [resp Hh] Hrest IH]; intros g Hg Hst.
  - eauto.
  - pose proof (handle_store_ok r s s1 resp Hs Hh) as Hs1.
    destruct (handle_keeps_status r s s1 resp id g st Hs Hh Hg Hst)
      as [Hgone|(g1 & Hg1 & Hst1)].
    + left. eapply steps_absent_stays; [done| |done].
      destruct Hs as [Hgens _]. destruct (Hgens id g Hg) as [Hid _].
      pose proof (handle_next_oid_mono r s s1 resp Hh). lia.
    + by eapply IH.
Qed.

(** C7: once a generation in a reachable store has a status, which is
    then "completed" or "failed", no sequence of further requests changes
    it: afterwards the record is either deleted or still has that status. *)
Theorem terminal_status_is_final s id g st rs s' :
  reachable s → generations s !! id = Some g → status g = Some st →
  steps s rs s' →
  (st = "completed" ∨ st = "failed")
  ∧ (generations s' !! id = None
     ∨ ∃ g', generations s' !! id = Some g' ∧ status g' = Some st).
Proof.
  intros Hs Hg Hst Hsteps. apply reachable_store_ok in Hs. split.
  - destruct Hs as [Hgens _]. destruct (Hgens id g Hg) as [_ Hok].
    destruct (validate_status g (ok_valid g Hok)) as [E|[E|E]];
      rewrite Hst in E; simplify_eq; auto.
  - by eapply steps_keep_status.
Qed.

Lemma terminal_status_is_final_witness :
  reachable store_failed
  ∧ ∃ g s',
      generations store_failed !! 1%nat = Some g
      ∧ status g = Some "failed"
      ∧ steps store_failed
          [create_TES1 world_up;
           PutContent qa 1%nat (Some "# Another try") 3000;
           PutPublish qa 1%nat (Some true) 4000] s'
      ∧ (("failed" = "completed" ∨ "failed" = "failed")
         ∧ (generations s' !! 1%nat = None
            ∨ ∃ g', generations s' !! 1%nat = Some g'
                    ∧ status g' = Some "failed")).
Proof.
  split; [apply store_failed_reachable|].
  eexists _, _. split; [vm_compute; reflexivity|]. split; [reflexivity|].
  assert (∀ s', run [create_TES1 world_up;
                      PutContent qa 1%nat (Some "# Another try") 3000;
                      PutPublish qa 1%nat (Some true) 4000] store_failed = Some s' →
                steps store_failed
                  [create_TES1 world_up;
                   PutContent qa 1%nat (Some "# Another try") 3000;
                   PutPublish qa 1%nat (Some true) 4000] s') as Hrun.
  { intros s'. apply run_steps. }
  split; [apply Hrun; vm_compute; reflexivity|].
  eapply (terminal_status_is_final store_failed 1%nat).
  - apply store_failed_reachable.
  - vm_compute; reflexivity.
  - reflexivity.
  - apply Hrun. vm_compute; reflexivity.
Defined.

(** ** C8: how a denial is rendered *)

(** C8, as stated, fails for delete: a non-owner who deletes an existing
    generation is answered 403 with a message of its own, where a missing
    record gives 404; the record stays. *)
Lemma delete_by_non_owner_is_forbidden :
  email <$> generations store_completed !! 1%nat = Some qa
  ∧ delete_generation guest 1%nat store_completed =
      (store_completed,
       {| code := 403; sent := Failure "You can only delete your own generations" |})
  ∧ generations store_completed !! 2%nat = None
  ∧ (delete_generation guest 2%nat store_completed).2
    = not_found "Generation not found".
Proof. by vm_compute. Qed.

(** C8, amended: for an existing generation and a non-owner, edit and
    publish-toggle leave the store alone and answer exactly as they do when
    the record does not exist (404 "Generation not found!", or the 400 of a
    malformed body); view, when the generation is not both published and
    completed, answers 404 "Not found!", a 404 like the one for a missing
    record; delete leaves the store alone and answers 403 "You can only
    delete your own generations". *)
Theorem denial_rendering actor id s g :
  generations s !! id = Some g → email g ≠ actor →
  (∀ c t, put_content actor id c t s
          = (s, (put_content actor id c t (findByIdAndDelete id s)).2))
  ∧ (∀ p t, put_publish actor id p t s
            = (s, (put_publish actor id p t (findByIdAndDelete id s)).2))
  ∧ (isPublishedAndCompleted g = false →
     get_view actor id s = not_found "Not found!"
     ∧ get_view actor id (findByIdAndDelete id s)
       = not_found "Generation not found!")
  ∧ delete_generation actor id s =
      (s, {| code := 403;
             sent := Failure "You can only delete your own generations" |}).
Proof.
  intros Hg Hne. apply isOwner_false in Hne.
  assert (findById id (findByIdAndDelete id s) = None) as Hdel
    by apply lookup_delete_eq.
  split_and!.
  - intros c t. unfold put_content. rewrite Hdel. unfold findById. rewrite Hg, Hne.
    simpl. by repeat case_match.
  - intros p t. unfold put_publish. rewrite Hdel. unfold findById. rewrite Hg, Hne.
    simpl. by repeat case_match.
  - intros Hp. unfold get_view. rewrite Hdel. unfold findById.
    by rewrite Hg, Hne, Hp.
  - unfold delete_generation, findById. by rewrite Hg, Hne.
Qed.

Lemma denial_rendering_witness :
  ∃ g, generations store_completed !! 1%nat = Some g
  ∧ email g ≠ guest
  ∧ ((∀ c t, put_content guest 1%nat c t store_completed
             = (store_completed,
                (put_content guest 1%nat c t
                   (findByIdAndDelete 1%nat store_completed)).2))
     ∧ (∀ p t, put_publish guest 1%nat p t store_completed
               = (store_completed,
                  (put_publish guest 1%nat p t
                     (findByIdAndDelete 1%nat store_completed)).2))
     ∧ (isPublishedAndCompleted g = false →
        get_view guest 1%nat store_completed = not_found "Not found!"
        ∧ get_view guest 1%nat (findByIdAndDelete 1%nat store_completed)
          = not_found "Generation not found!")
     ∧ delete_generation guest 1%nat store_completed =
         (store_completed,
          {| code := 403;
             sent := Failure "You can only delete your own generations" |})).
Proof.
  eexists. split; [vm_compute; reflexivity|]. split; [by vm_compute|].
  apply (denial_rendering guest 1%nat store_completed).
  - vm_compute; reflexivity.
  - by vm_compute.
Defined.

(** ** C9: the project of a new generation *)

(** C9 fails on the code: [findOrCreateProject] is called without
    [await], so the handler holds a promise, whose [_id] is undefined. For
    issue TES-1 the registry gets project TES, but the generations stored
    for it carry no project reference and the project's [totalGenerations]
    is never written: it is still 0 after two generations. No request ever
    attaches a generation or moves the count. *)
Theorem project_is_never_attached :
  extractProjectKey "TES-1" = Some "TES"
  ∧ (λ p, (projectKey p, totalGenerations p)) <$>
      projects (after [create_TES1 world_up; create_TES1 world_up])
    = [("TES", 0)]
  ∧ (λ g, (issueKey g, status g, project g)) <$>
      generations (after [create_TES1 world_up; create_TES1 world_up]) !! 1%nat
    = Some ("TES-1", Some "completed", None)
  ∧ (λ g, (issueKey g, status g, project g)) <$>
      generations (after [create_TES1 world_up; create_TES1 world_up]) !! 2%nat
    = Some ("TES-1", Some "completed", None)
  ∧ (∀ actor key t s,
       ref_id (attach_project actor key t s).2 = None
       ∧ project (new_generation actor key (attach_project actor key t s).2 t)
         = None
       ∧ ∀ s', update_project_stats (attach_project actor key t s).2 s' = s')
  ∧ ∀ s, reachable s →
      (∀ id g, generations s !! id = Some g → project g = None)
      ∧ Forall (λ p, totalGenerations p = 0) (projects s).
Proof.
  split; [reflexivity|]. split; [by vm_compute|]. split; [by vm_compute|].
  split; [by vm_compute|]. split.
  - intros actor key t s.
    destruct (attach_project_spec actor key t s) as (ps & n & _ & _ & _ & Hr).
    split; [done|]. split.
    + simpl. rewrite Hr. by destruct (ref_truthy _).
    + intros s'. by apply update_project_stats_promise.
  - intros s Hs. apply reachable_store_ok in Hs as [Hgens Hprojs].
    split; [|done]. intros id g Hg. destruct (Hgens id g Hg) as [_ Hok].
    apply Hok.
Qed.

(** ** C10: the stored mode and the [autoMode] flag *)

(** C10 fails on the code. The stored mode is "manual" whatever
    [autoMode] is, as the claim says. But the flag does not only choose the
    prompt: the service file binds no [AUTO_PROMPT], so with
    [autoMode = true] reading it throws before any call is made, no prompt
    is sent at all, and the same request that is answered 200 and stored
    completed with [autoMode = false] is answered 500 and stored failed. *)
Theorem auto_mode_fails_the_generation :
  (∀ actor key autoMode w s,
     Js.truthy_str key = true →
     ∃ s' resp g,
       post_testcases actor
         {| body_issueKey := Some key; body_autoMode := autoMode |} w s
       = Some (s', resp)
       ∧ generations s' !! next_oid (attach_project actor key (now w) s).1
         = Some g
       ∧ mode g = Some "manual")
  ∧ (∀ b api context key,
       OpenAIService.AUTO_PROMPT b = None →
       OpenAIService.generateTestCases b api context key true
       = Some (0%nat, inl "AUTO_PROMPT is not defined"))
  ∧ OpenAIService.AUTO_PROMPT (prompts world_up) = None
  ∧ (code ∘ snd) <$>
      post_testcases qa
        {| body_issueKey := Some "TES-1"; body_autoMode := false |}
        world_up empty_store
    = Some 200%nat
  ∧ (λ g, (mode g, status g, error g)) <$>
      generations
        (after [PostTestcases qa
                  {| body_issueKey := Some "TES-1"; body_autoMode := false |}
                  world_up]) !! 1%nat
    = Some (Some "manual", Some "completed", None)
  ∧ snd <$>
      post_testcases qa
        {| body_issueKey := Some "TES-1"; body_autoMode := true |}
        world_up empty_store
    = Some {| code := 500; sent := Failure "AUTO_PROMPT is not defined" |}
  ∧ (λ g, (mode g, status g, error g)) <$>
      generations
        (after [PostTestcases qa
                  {| body_issueKey := Some "TES-1"; body_autoMode := true |}
                  world_up]) !! 1%nat
    = Some (Some "manual", Some "failed",
            Some "OpenAI generation failed: AUTO_PROMPT is not defined").
Proof.
  split.
  { intros actor key autoMode w s Hk.
    destruct (post_testcases_spec actor key autoMode w s Hk)
      as (s' & resp & g' & E & Hgs & _ & _ & Hform).
    exists s', resp, g'. split; [done|]. split.
    - rewrite Hgs. apply lookup_insert_eq.
    - by destruct Hform as [->|[(? & ? & ->)|(? & ? & ? & -> & _)]]. }
  split.
  { intros b api context key Hb. unfold OpenAIService.generateTestCases.
    by rewrite Hb. }
  split; [reflexivity|]. split; [by vm_compute|]. split; [by vm_compute|].
  split; by vm_compute.
Qed.

(** * Further properties of the code *)

(** ** [POST /testcases], case by case *)

Lemma new_generation_ref actor key r t :
  ref_id r = None →
  new_generation actor key r t = new_generation actor key NoProject t.
Proof. intros H. unfold new_generation. rewrite H. by destruct (ref_truthy r). Qed.

Lemma generate_markdown_hash w key summary context autoMode n c u :
  generate_markdown w key summary context autoMode = Some (n, inr (c, u)) →
  Js.startsWith c "#" = true.
Proof.
  unfold generate_markdown. destruct (openai w) as [api|]; [|done].
  destruct (OpenAIService.generateTestCases _ _ _ _ _) as [[k [m|[r|]]]|];
    try done.
  intros [= _ <- _].
  by destruct (Js.startsWith (OpenAIService.g_content r) "#") eqn:E.
Qed.

Lemma validate_completion g done usage c name :
  validate g = true → c ≠ "" → name ≠ "" →
  validate (with_completion g done usage {| content := c; filename := name |})
  = true.
Proof.
  intros Hv Hc Hn. apply validate_spec in Hv as (? & ? & ? & ?).
  apply validate_spec. simpl. split_and!; try done.
  unfold validate_markdown, required. simpl.
  by rewrite (proj2 (truthy_str_true c) Hc), (proj2 (truthy_str_true name) Hn).
Qed.

Lemma validate_outcome_failed g err done :
  validate g = true → validate (with_outcome g "failed" err done) = true.
Proof.
  intros Hv. apply validate_spec in Hv as (? & ? & ? & ?). by apply validate_spec.
Qed.

(** The handler from [jira.getIssue] on: without a JIRA service nothing is
    written; with one, the record is saved in one of three forms. *)
Lemma run_generation_cases w autoMode id g s :
  validate g = true →
  (jira w = None
   ∧ run_generation w autoMode id g s =
     Some (s, next "JIRA_EMAIL and JIRA_API_TOKEN must be set in environment variables"))
  ∨ ∃ g' resp,
      generation_outcome w autoMode id g g' resp
      ∧ run_generation w autoMode id g s = Some (with_record id g' s, resp).
Proof.
  intros Hv. unfold run_generation.
  destruct (jira w) as [getIssue|] eqn:Hj; [right|by left].
  destruct (getIssue (issueKey g)) as [summary description|err] eqn:Hi.
  2: { eexists _, _. split; [by eapply outcome_no_issue|].
       by rewrite save_and_send_valid by by apply validate_outcome_failed. }
  destruct (generate_markdown_spec w (issueKey g) summary
              ("Title: " +:+ summary +:+ OpenAIService.newline
               +:+ OpenAIService.newline +:+ "Description: " +:+ description)
              autoMode) as (n & r & E & _ & Hr).
  rewrite E. destruct r as [message|[c u]].
  - eexists _, _. split; [by eapply outcome_generator_failed|].
    by rewrite save_and_send_valid by by apply validate_outcome_failed.
  - eexists _, _. split; [by eapply outcome_completed|].
    rewrite save_and_send_valid; [done|].
    apply validate_completion; [done| |by apply app_nonempty_r].
    by eapply trim_nonempty, Hr.
Qed.

(** The whole handler for a request with an issue key. *)
Lemma post_testcases_cases actor key autoMode w s :
  Js.truthy_str key = true →
  let s1 := (attach_project actor key (now w) s).1 in
  let id := next_oid s1 in
  let g := new_generation actor key NoProject (now w) in
  let base := {| generations := generations s; projects := projects s1;
                 next_oid := S id |} in
  (jira w = None
   ∧ post_testcases actor
       {| body_issueKey := Some key; body_autoMode := autoMode |} w s
     = Some (with_record id g base,
             next "JIRA_EMAIL and JIRA_API_TOKEN must be set in environment variables"))
  ∨ ∃ g' resp,
      generation_outcome w autoMode id g g' resp
      ∧ post_testcases actor
          {| body_issueKey := Some key; body_autoMode := autoMode |} w s
        = Some (with_record id g' base, resp).
Proof.
  intros Hk s1 id g base. unfold post_testcases. simpl. rewrite Hk.
  rewrite persist_new_spec. fold s1. fold id.
  destruct (attach_project_spec actor key (now w) s) as (ps & n & Hs1 & _ & _ & Hr).
  rewrite (new_generation_ref _ _ _ _ Hr). fold g.
  assert (generations s1 = generations s) as Hgs by (unfold s1; by rewrite Hs1).
  rewrite Hgs.
  match goal with
  | |- context [run_generation w autoMode id g ?sb] =>
      destruct (run_generation_cases w autoMode id g sb (validate_new _ _ _ _))
        as [[Hj ->]|(g' & resp & Hout & ->)]
  end.
  - left. split; [done|]. done.
  - right. exists g', resp. split; [done|].
    unfold with_record. simpl. by rewrite insert_insert_eq.
Qed.

Lemma str_or_nonempty s d : d ≠ "" → Js.str_or s d ≠ "".
Proof.
  intros Hd. unfold Js.str_or. destruct (Js.truthy_str s) eqn:E; [|done].
  by apply truthy_str_true.
Qed.

Lemma outcome_created w autoMode id actor key t g' resp :
  generation_outcome w autoMode id (new_generation actor key NoProject t) g' resp →
  created actor key id g'.
Proof.
  inversion 1; subst.
  - apply created_failed. by apply str_or_nonempty.
  - by apply created_failed.
  - apply created_completed. by eapply generate_markdown_hash.
Qed.

(** ** One request, one record *)

Lemma is_completed_false g : is_completed g = false ↔ status g ≠ Some "completed".
Proof.
  rewrite <- is_completed_status. destruct (is_completed g); split; congruence.
Qed.

Lemma put_content_cases actor id c t s :
  put_content actor id c t s = (s, (put_content actor id c t s).2)
  ∨ ∃ body gen,
      c = Some body ∧ Js.trim body ≠ ""
      ∧ generations s !! id = Some gen
      ∧ email gen = actor ∧ status gen = Some "completed"
      ∧ put_content actor id c t s =
          (with_record id
             (with_content gen (track_version actor body t gen).1
                (track_version actor body t gen).2
                (set_markdown_content gen body)) s,
           ok (ContentUpdated body
                 (Js.num_or (track_version actor body t gen).2 1))).
Proof.
  unfold put_content. destruct c as [body|]; [|by left].
  destruct (String.eqb_spec (Js.trim body) "") as [|Hb]; [by left|].
  unfold findById. destruct (generations s !! id) as [gen|] eqn:Hg; [|by left].
  destruct (isOwner actor gen) eqn:Ho; [|by left]. simpl.
  destruct (is_completed gen) eqn:Hc; [|by left]. simpl.
  destruct (track_version actor body t gen) as [vs cv] eqn:E. simpl.
  unfold save_and_send.
  destruct (save id _ s) as [s'|] eqn:Hs; [|by left].
  right. apply save_Some in Hs as [_ ->].
  exists body, gen. split_and!; try done.
  - by apply isOwner_spec.
  - by apply is_completed_status.
  - by rewrite E.
Qed.

Lemma put_publish_cases actor id p t s :
  put_publish actor id p t s = (s, (put_publish actor id p t s).2)
  ∨ ∃ b gen,
      p = Some b
      ∧ generations s !! id = Some gen
      ∧ email gen = actor ∧ status gen = Some "completed"
      ∧ put_publish actor id p t s =
          (with_record id
             (if b then with_published gen true (Some t) (Some actor)
              else with_published gen false None None) s,
           ok (if b then PublishState true (Some t) (Some actor)
               else PublishState false None None)).
Proof.
  unfold put_publish. destruct p as [b|]; [|by left].
  unfold findById. destruct (generations s !! id) as [gen|] eqn:Hg; [|by left].
  destruct (isOwner actor gen) eqn:Ho; [|by left]. simpl.
  destruct (is_completed gen) eqn:Hc; [|by left]. simpl.
  unfold save_and_send.
  destruct (save id _ s) as [s'|] eqn:Hs; [|by left].
  right. apply save_Some in Hs as [_ ->].
  exists b, gen. split_and!; try done.
  - by apply isOwner_spec.
  - by apply is_completed_status.
  - by destruct b.
Qed.

Lemma delete_cases actor id s :
  delete_generation actor id s = (s, (delete_generation actor id s).2)
  ∨ ∃ gen,
      generations s !! id = Some gen ∧ email gen = actor
      ∧ delete_generation actor id s =
          (findByIdAndDelete id s, ok (Message "Generation deleted successfully")).
Proof.
  unfold delete_generation, findById.
  destruct (generations s !! id) as [gen|] eqn:Hg; [|by left].
  destruct (isOwner actor gen) eqn:Ho; [|by left]. simpl.
  right. exists gen. split_and!; try done. by apply isOwner_spec.
Qed.

Lemma lookup_with_record (id : oid) g s (i : oid) :
  generations (with_record id g s) !! i
  = if decide (id = i) then Some g else generations s !! i.
Proof. unfold with_record. simpl. apply lookup_insert. Qed.

(** What a request does to the record under any one id. *)
Lemma handle_record_step r s s' resp (id : oid) :
  store_ok s → handle r s = Some (s', resp) →
  record_step (actor_of r) id (generations s !! id) (generations s' !! id).
Proof.
  intros [Hgens _] H.
  destruct r as [a req w|a i|a i|a i c t|a i p t|a i]; simpl in *.
  - destruct req as [[key|] autoMode]; unfold post_testcases in H; simpl in H.
    2: { simplify_eq. constructor. }
    destruct (Js.truthy_str key) eqn:Hk.
    2: { simplify_eq. constructor. }
    assert (generations s !! next_oid (attach_project a key (now w) s).1 = None)
      as Hfresh.
    { destruct (attach_project_spec a key (now w) s) as (ps & n & -> & Hle & _).
      simpl. destruct (generations s !! n) as [g0|] eqn:E; [|done].
      destruct (Hgens n g0 E). lia. }
    destruct (post_testcases_cases a key autoMode w s Hk)
      as [[_ E]|(g' & resp' & Hout & E)];
      unfold post_testcases in E; simpl in E; rewrite Hk in E;
      rewrite E in H; injection H as <- _; rewrite lookup_with_record;
      cbn [generations]; case_decide; try constructor.
    + subst id. rewrite Hfresh. eapply record_created; [done|constructor].
    + subst id. rewrite Hfresh. eapply record_created; [done|].
      by eapply outcome_created.
  - simplify_eq. constructor.
  - simplify_eq. constructor.
  - injection H as H.
    destruct (put_content_cases a i c t s)
      as [E|(body & gen & -> & Hb & Hg & Ho & Hc & E)];
      rewrite E in H; simplify_eq; [constructor|].
    rewrite lookup_with_record. case_decide; [|constructor].
    subst. rewrite Hg. by constructor.
  - injection H as H.
    destruct (put_publish_cases a i p t s)
      as [E|(b & gen & -> & Hg & Ho & Hc & E)];
      rewrite E in H; simplify_eq; [constructor|].
    rewrite lookup_with_record. case_decide; [|constructor].
    subst. rewrite Hg. destruct b; by constructor.
  - injection H as H.
    destruct (delete_cases a i s) as [E|(gen & Hg & Ho & E)];
      rewrite E in H; simplify_eq; [constructor|].
    simpl. destruct (decide (i = id)) as [->|Hne].
    + rewrite lookup_delete_eq, Hg. by constructor.
    + rewrite lookup_delete_ne by done. constructor.
Qed.

(** ** Fields that go together *)

Lemma created_consistent actor key id g :
  Js.truthy_str key = true → created actor key id g → gen_consistent id g.
Proof.
  intros Hk Hc. apply truthy_str_true in Hk.
  destruct Hc as [t|t e fin He|t fin usage c Hc]; split; simpl; try done.
  - intros _. split_and!; eauto.
  - intros _. split_and!; eauto.
Qed.

Lemma revised_consistent actor id g c t :
  status g = Some "completed" → email g = actor → Js.trim c ≠ "" →
  gen_consistent id g →
  gen_consistent id
    (with_content g (track_version actor c t g).1 (track_version actor c t g).2
       (set_markdown_content g c)).
Proof.
  intros Hst Ho Hc [H1 H2 H3 H4 H5 H6 H7 H8].
  destruct (H3 Hst) as ((c0 & Hres) & Herr & Hdone & Hu).
  split; simpl; try done.
  - intros E. congruence.
  - intros E. congruence.
  - intros _. split_and!; try done. exists c.
    unfold set_markdown_content. by rewrite Hres.
  - rewrite track_version_eq.
    destruct (Js.truthy_str (current_content g)) eqn:Hcur; simpl; [|done].
    destruct (negb _); simpl; [|done].
    apply Forall_app. split; [done|]. constructor; [|done]. simpl.
    split; [done|]. by apply truthy_str_true.
Qed.

Lemma record_step_consistent actor id o o' :
  record_step actor id o o' →
  (∀ g, o = Some g → gen_consistent id g) →
  ∀ g', o' = Some g' → gen_consistent id g'.
Proof.
  intros Hstep Ho g' Hg'.
  destruct Hstep as [o|key g Hk Hc|g c t Hst Hown Hc|g t Hst Hown|g Hst Hown|g Hown];
    simplify_eq.
  - by apply Ho.
  - by eapply created_consistent.
  - apply revised_consistent; auto.
  - destruct (Ho g eq_refl) as [H1 H2 H3 H4 H5 H6 H7 H8].
    split; simpl; try done; try (intros _; split_and!; by eauto).
  - destruct (Ho g eq_refl) as [H1 H2 H3 H4 H5 H6 H7 H8]. by split.
Qed.

Lemma reachable_consistent s :
  reachable s → ∀ id g, generations s !! id = Some g → gen_consistent id g.
Proof.
  induction 1 as [|s r s' Hs IH [resp Hh]]; intros id g Hg.
  - simpl in Hg. by rewrite lookup_empty in Hg.
  - eapply record_step_consistent;
      [by eapply handle_record_step, Hh; apply reachable_store_ok| |done].
    intros g0 Hg0. by eapply IH.
Qed.

(** ** What stays and what grows *)

Lemma same_identity_refl g : same_identity g g.
Proof. by repeat split. Qed.

Lemma same_identity_trans g1 g2 g3 :
  same_identity g1 g2 → same_identity g2 g3 → same_identity g1 g3.
Proof.
  intros (a1 & a2 & a3 & a4 & a5 & a6 & a7) (b1 & b2 & b3 & b4 & b5 & b6 & b7).
  split_and!; try congruence.
  intros Hr. specialize (a7 Hr). rewrite <- a7. apply b7.
  destruct Hr as [m Hm]. rewrite Hm in a7. simpl in a7.
  destruct (result g2); [eauto|done].
Qed.

Lemma history_extends_same g g' :
  versions g' = versions g → currentVersion g' = currentVersion g →
  history_extends g g'.
Proof.
  intros Hv Hc. unfold history_extends. rewrite Hv, Hc.
  split_and!; [done|lia|]. rewrite Z.sub_diag, Nat.sub_diag. done.
Qed.

Lemma history_extends_refl g : history_extends g g.
Proof. by apply history_extends_same. Qed.

Lemma history_extends_trans g1 g2 g3 :
  history_extends g1 g2 → history_extends g2 g3 → history_extends g1 g3.
Proof.
  intros (a1 & a2 & a3) (b1 & b2 & b3).
  pose proof (prefix_length _ _ a1). pose proof (prefix_length _ _ b1).
  split_and!; [by etrans|lia|lia].
Qed.

Lemma record_step_keeps actor id g g' :
  (1 ≤ currentVersion g)%Z →
  record_step actor id (Some g) (Some g') →
  same_identity g g' ∧ history_extends g g' ∧ status g' = status g.
Proof.
  intros Hcv Hstep. inversion Hstep; subst.
  - split; [apply same_identity_refl|]. split; [apply history_extends_refl|done].
  - split.
    { split_and!; try done. intros [m Hm]. simpl.
      unfold set_markdown_content. by rewrite Hm. }
    split; [|done]. unfold history_extends. simpl. rewrite track_version_eq.
    destruct (_ && _); simpl.
    + rewrite num_or_nonzero by lia. split_and!.
      * by apply prefix_app_r.
      * lia.
      * rewrite length_app. simpl.
        replace (currentVersion g + 1 - currentVersion g)%Z with 1%Z by lia.
        simpl. lia.
    + by apply history_extends_same.
  - split; [by repeat split|]. split; [by apply history_extends_same|done].
  - split; [by repeat split|]. split; [by apply history_extends_same|done].
Qed.

Lemma steps_keep s rs s' (id : oid) g g' :
  store_ok s → steps s rs s' →
  generations s !! id = Some g → generations s' !! id = Some g' →
  same_identity g g' ∧ history_extends g g' ∧ status g' = status g.
Proof.
  intros Hs Hsteps. revert g.
  induction Hsteps as [s|s r s1 rs s' [resp Hh] Hrest IH]; intros g Hg Hg'.
  - simplify_eq. split; [apply same_identity_refl|].
    split; [apply history_extends_refl|done].
  - pose proof (handle_store_ok r s s1 resp Hs Hh) as Hs1.
    pose proof (handle_record_step r s s1 resp id Hs Hh) as Hstep.
    destruct Hs as [Hgens _]. destruct (Hgens id g Hg) as [Hid Hok].
    destruct (generations s1 !! id) as [g1|] eqn:Hg1.
    + rewrite Hg in Hstep.
      destruct (record_step_keeps _ _ _ _ (proj1 (ok_versions g Hok)) Hstep)
        as (I1 & H1 & S1).
      destruct (IH Hs1 g1 eq_refl Hg') as (I2 & H2 & S2).
      split; [by eapply same_identity_trans|].
      split; [by eapply history_extends_trans|congruence].
    + exfalso.
      pose proof (handle_next_oid_mono r s s1 resp Hh).
      assert (generations s' !! id = None) as E
        by (eapply steps_absent_stays; [done|lia|done]).
      congruence.
Qed.

(** ** Extras on the routes *)

Lemma reachable_valid s (id : oid) g :
  reachable s → generations s !! id = Some g → gen_ok g.
Proof.
  intros Hs Hg. apply reachable_store_ok in Hs as [Hgens _].
  by destruct (Hgens id g Hg).
Qed.

Lemma with_record_same (id : oid) g s :
  generations s !! id = Some g → with_record id g s = s.
Proof.
  intros H. unfold with_record. rewrite insert_id by done. by destruct s.
Qed.







(** X3: in every reachable store a generation has one of three shapes.
    Without a status it has no result, no error and no [completedAt]. Failed,
    it has a non-empty error, a [completedAt] and no result. Completed, it
    has a [completedAt], the token usage, no error, and a result whose
    content is not blank and whose filename is
    [<issueKey>_testcases_<id>.md]. Only a completed one has archived
    versions or is published. *)
Theorem lifecycle_shapes s (id : oid) g :
  reachable s → generations s !! id = Some g →
  (status g = None ∧ result g = None ∧ error g = None ∧ completedAt g = None
   ∧ versions g = [] ∧ published g = false)
  ∨ (status g = Some "failed" ∧ result g = None
     ∧ (∃ e, error g = Some e ∧ e ≠ "") ∧ is_Some (completedAt g)
     ∧ versions g = [] ∧ published g = false)
  ∨ (status g = Some "completed"
     ∧ (∃ c, Js.trim c ≠ ""
             ∧ result g = Some {| content := c;
                                  filename := issueKey g +:+ "_testcases_"
                                              +:+ pretty id +:+ ".md" |})
     ∧ error g = None ∧ is_Some (completedAt g) ∧ is_Some (tokenUsage g)).
Proof.
  intros Hs Hg. pose proof (reachable_valid s id g Hs Hg) as Hok.
  destruct (reachable_consistent s Hs id g Hg) as [H1 H2 H3 _ _ _ H7 _].
  destruct (validate_status g (ok_valid g Hok)) as [E|[E|E]].
  - left. destruct (H1 E) as (? & ? & ?). destruct H7 as [? ?]; [congruence|].
    by split_and!.
  - right; right. destruct (H3 E) as ((c & Hc) & ? & ? & ?).
    destruct (ok_result g Hok E) as (md & Hmd & Hne).
    split_and!; try done. exists c. split; [|done]. rewrite Hc in Hmd.
    by simplify_eq.
  - right; left. destruct (H2 E) as (? & ? & ?). destruct H7 as [? ?]; [congruence|].
    by split_and!.
Qed.

Lemma lifecycle_shapes_witness :
  reachable store_failed
  ∧ ∃ g, generations store_failed !! 1%nat = Some g
    ∧ status g = Some "failed" ∧ result g = None
    ∧ (∃ e, error g = Some e ∧ e ≠ "").
Proof.
  split; [apply store_failed_reachable|].
  eexists. split; [vm_compute; reflexivity|].
  destruct (lifecycle_shapes store_failed 1%nat _ store_failed_reachable
              ltac:(vm_compute; reflexivity))
    as [(E & _)|[(E & Hr & He & _)|(E & _)]].
  - by vm_compute in E.
  - done.
  - by vm_compute in E.
Defined.

(** X4: the archive of a generation only grows, and only at its end:
    after any sequence of requests the earlier [versions] are a prefix of
    the later ones, unaltered and in the same order, [currentVersion] has
    not gone down, and it has gone up by exactly the number of entries
    added. *)
Theorem history_is_append_only s rs s' (id : oid) g g' :
  reachable s → steps s rs s' →
  generations s !! id = Some g → generations s' !! id = Some g' →
  versions g `prefix_of` versions g'
  ∧ (currentVersion g ≤ currentVersion g')%Z
  ∧ Z.of_nat (length (versions g')) - Z.of_nat (length (versions g))
    = currentVersion g' - currentVersion g.
Proof.
  intros Hs Hsteps Hg Hg'.
  destruct (steps_keep s rs s' id g g' (reachable_store_ok s Hs) Hsteps Hg Hg')
    as (_ & (Hp & Hle & Hlen) & _).
  pose proof (prefix_length _ _ Hp). split_and!; [done|done|lia].
Qed.

Lemma history_is_append_only_witness :
  reachable store_completed
  ∧ steps store_completed
      [PutContent qa 1%nat (Some "# Test Cases, second draft") 3000] store_revised
  ∧ ∃ g g',
      generations store_completed !! 1%nat = Some g
      ∧ generations store_revised !! 1%nat = Some g'
      ∧ (versions g `prefix_of` versions g'
         ∧ (currentVersion g ≤ currentVersion g')%Z
         ∧ Z.of_nat (length (versions g')) - Z.of_nat (length (versions g))
           = currentVersion g' - currentVersion g).
Proof.
  assert (steps store_completed
            [PutContent qa 1%nat (Some "# Test Cases, second draft") 3000]
            store_revised) as Hsteps.
  { apply run_steps. vm_compute; reflexivity. }
  split; [apply store_completed_reachable|]. split; [done|].
  eexists _, _. split; [vm_compute; reflexivity|].
  split; [vm_compute; reflexivity|].
  eapply (history_is_append_only store_completed _ store_revised 1%nat).
  - apply store_completed_reachable.
  - exact Hsteps.
  - vm_compute; reflexivity.
  - vm_compute; reflexivity.
Defined.

(** X5: no request changes who owns a generation, which issue it is
    for, its project reference, its mode, its creation and start times, or,
    once it has a result, the filename of that result; and its status, once
    the record exists, is never changed by a later request. *)
Theorem identity_is_immutable s rs s' (id : oid) g g' :
  reachable s → steps s rs s' →
  generations s !! id = Some g → generations s' !! id = Some g' →
  email g' = email g ∧ issueKey g' = issueKey g ∧ project g' = project g
  ∧ mode g' = mode g ∧ createdAt g' = createdAt g
  ∧ startedAt g' = startedAt g ∧ status g' = status g
  ∧ (is_Some (result g) → filename <$> result g' = filename <$> result g).
Proof.
  intros Hs Hsteps Hg Hg'.
  destruct (steps_keep s rs s' id g g' (reachable_store_ok s Hs) Hsteps Hg Hg')
    as ((? & ? & ? & ? & ? & ? & ?) & _ & ?).
  by split_and!.
Qed.

Lemma identity_is_immutable_witness :
  reachable store_completed
  ∧ steps store_completed
      [PutContent qa 1%nat (Some "# Test Cases, second draft") 3000] store_revised
  ∧ ∃ g g',
      generations store_completed !! 1%nat = Some g
      ∧ generations store_revised !! 1%nat = Some g'
      ∧ (email g' = email g ∧ issueKey g' = issueKey g ∧ project g' = project g
         ∧ mode g' = mode g ∧ createdAt g' = createdAt g
         ∧ startedAt g' = startedAt g ∧ status g' = status g
         ∧ (is_Some (result g) →
            filename <$> result g' = filename <$> result g)).
Proof.
  assert (steps store_completed
            [PutContent qa 1%nat (Some "# Test Cases, second draft") 3000]
            store_revised) as Hsteps.
  { apply run_steps. vm_compute; reflexivity. }
  split; [apply store_completed_reachable|]. split; [done|].
  eexists _, _. split; [vm_compute; reflexivity|].
  split; [vm_compute; reflexivity|].
  eapply (identity_is_immutable store_completed _ store_revised 1%nat).
  - apply store_completed_reachable.
  - exact Hsteps.
  - vm_compute; reflexivity.
  - vm_compute; reflexivity.
Defined.

(** X6: in every reachable store the archive of a generation holds
    [currentVersion - 1] entries; the entry at position [i] (from 0) carries
    the numeral of [i + 1] as its version number, names the owner as
    [updatedBy] and has non-empty content. *)
Theorem archive_is_numbered_in_order s (id : oid) g :
  reachable s → generations s !! id = Some g →
  Z.of_nat (length (versions g)) = currentVersion g - 1
  ∧ ∀ i v, versions g !! i = Some v →
      versionNumber v = Js.to_string (Z.of_nat i + 1)
      ∧ updatedBy v = email g ∧ v_content v ≠ "".
Proof.
  intros Hs Hg. pose proof (reachable_valid s id g Hs Hg) as Hok.
  destruct (ok_versions g Hok) as [Hcv Hvs].
  destruct (reachable_consistent s Hs id g Hg) as [_ _ _ _ _ Hed _ _].
  split.
  - apply (f_equal length) in Hvs.
    rewrite !length_fmap, length_seqZ in Hvs. lia.
  - intros i v Hi. split.
    + assert ((versionNumber <$> versions g) !! i = Some (versionNumber v)) as E
        by (by rewrite list_lookup_fmap, Hi).
      rewrite Hvs, list_lookup_fmap in E.
      destruct (seqZ 1 (currentVersion g - 1) !! i) as [n|] eqn:En; [|done].
      apply lookup_seqZ in En as [-> _]. simpl in E.
      injection E as <-. f_equal. lia.
    + rewrite Forall_forall in Hed. apply Hed.
      by eapply list_elem_of_lookup_2.
Qed.

Lemma archive_is_numbered_in_order_witness :
  reachable store_revised
  ∧ ∃ g, generations store_revised !! 1%nat = Some g
    ∧ (Z.of_nat (length (versions g)) = currentVersion g - 1
       ∧ ∀ i v, versions g !! i = Some v →
           versionNumber v = Js.to_string (Z.of_nat i + 1)
           ∧ updatedBy v = email g ∧ v_content v ≠ "").
Proof.
  split; [apply store_revised_reachable|].
  eexists. split; [vm_compute; reflexivity|].
  apply (archive_is_numbered_in_order store_revised 1%nat).
  - apply store_revised_reachable.
  - vm_compute; reflexivity.
Defined.

(** X7: the owner can delete a generation whatever its status and
    whether or not it is published. Afterwards, and after any further
    requests, no record is stored under that id, and the view answers
    everyone 404 "Generation not found!": an id is never used again. *)
Theorem deleted_stays_deleted s (id : oid) g actor rs s' :
  reachable s → generations s !! id = Some g → email g = actor →
  steps (findByIdAndDelete id s) rs s' →
  delete_generation actor id s =
    (findByIdAndDelete id s, ok (Message "Generation deleted successfully"))
  ∧ generations s' !! id = None
  ∧ ∀ viewer, get_view viewer id s' = not_found "Generation not found!".
Proof.
  intros Hs Hg Ho Hsteps.
  destruct (reachable_store_ok s Hs) as [Hgens _].
  destruct (Hgens id g Hg) as [Hid _].
  assert (generations s' !! id = None) as Hnone.
  { eapply steps_absent_stays; [done|done|]. apply lookup_delete_eq. }
  split_and!; [|done|].
  - unfold delete_generation, findById. rewrite Hg.
    by rewrite (proj2 (isOwner_spec actor g) Ho).
  - intros viewer. unfold get_view, findById. by rewrite Hnone.
Qed.

Lemma deleted_stays_deleted_witness :
  reachable store_failed
  ∧ ∃ g s',
      generations store_failed !! 1%nat = Some g ∧ email g = qa
      ∧ steps (findByIdAndDelete 1%nat store_failed) [create_TES1 world_up] s'
      ∧ (delete_generation qa 1%nat store_failed =
           (findByIdAndDelete 1%nat store_failed,
            ok (Message "Generation deleted successfully"))
         ∧ generations s' !! 1%nat = None
         ∧ ∀ viewer, get_view viewer 1%nat s' = not_found "Generation not found!").
Proof.
  split; [apply store_failed_reachable|].
  assert (∀ s', run [create_TES1 world_up] (findByIdAndDelete 1%nat store_failed)
                = Some s' →
                steps (findByIdAndDelete 1%nat store_failed)
                  [create_TES1 world_up] s') as Hrun.
  { intros s'. apply run_steps. }
  eexists _, _. split; [vm_compute; reflexivity|]. split; [reflexivity|].
  split; [apply Hrun; vm_compute; reflexivity|].
  eapply (deleted_stays_deleted store_failed 1%nat).
  - apply store_failed_reachable.
  - vm_compute; reflexivity.
  - reflexivity.
  - apply Hrun. vm_compute; reflexivity.
Defined.

Lemma header_value_app (a b : string) :
  header_value (a +:+ b) = header_value a && header_value b.
Proof.
  induction a as [|c a IH]; [done|].
  change (String c a +:+ b) with (String c (a +:+ b)). simpl.
  by rewrite IH, andb_assoc.
Qed.

Lemma content_disposition_ok name :
  header_value (content_disposition name) = header_value name.
Proof.
  unfold content_disposition. rewrite !header_value_app.
  change (header_value "attachment; filename=") with true.
  change (header_value double_quote) with true.
  by rewrite andb_true_r.
Qed.

(** X8: download is gated like view. Whenever the view is refused the
    download is refused with the same status code. Whenever the view
    succeeds, the download sends the content and the filename the view
    shows, unless the filename holds a character no header may carry (a
    control character other than a tab); the download is then answered 500
    where the view is answered 200. That happens: an issue key ending in a
    line feed passes into the filename. *)
Theorem download_agrees_with_view actor (id : oid) s :
  (code (get_view actor id s) ≠ 200%nat →
   code (get_download actor id s) = code (get_view actor id s))
  ∧ (∀ d, get_view actor id s = ok (Viewed d) →
       get_download actor id s
       = if header_value (vd_filename d)
         then ok (Attachment (vd_filename d) (vd_content d))
         else next invalid_header)
  ∧ code (get_view qa 1%nat store_linefeed) = 200%nat
  ∧ get_download qa 1%nat store_linefeed = next invalid_header.
Proof.
  split_and!; [| |by vm_compute..].
  - unfold get_download, get_view. destruct (findById id s) as [gen|]; [|done].
    destruct (negb (isOwner actor gen) && negb (isPublishedAndCompleted gen));
      [done|].
    by destruct (negb (is_completed gen)).
  - unfold get_download, get_view. destruct (findById id s) as [gen|]; [|done].
    destruct (negb (isOwner actor gen) && negb (isPublishedAndCompleted gen));
      [done|].
    destruct (negb (is_completed gen)); [done|].
    intros d [= <-]. cbn [vd_filename vd_content].
    by rewrite content_disposition_ok.
Qed.

(** X9: what [POST /testcases] answers tells what it stored. For a
    request with an issue key the record under the new id is completed
    exactly when the answer is 200, and the answer then carries the stored
    markdown; it is failed exactly when the answer is 404 (JIRA gave no
    issue) or 500 with a JIRA service in place (the generator failed), with
    a non-empty error stored; it is left without status exactly when the
    JIRA service could not be built, which is answered 500. *)
Theorem creation_answer_matches_record actor key autoMode w s :
  Js.truthy_str key = true →
  ∃ s' resp g,
    post_testcases actor
      {| body_issueKey := Some key; body_autoMode := autoMode |} w s
    = Some (s', resp)
    ∧ generations s' !! next_oid (attach_project actor key (now w) s).1 = Some g
    ∧ (status g = Some "completed" ↔ code resp = 200%nat)
    ∧ (status g = Some "completed" →
       ∃ md, result g = Some md
             ∧ sent resp = Generated
                 (next_oid (attach_project actor key (now w) s).1) key md)
    ∧ (status g = Some "failed" ↔
       code resp = 404%nat ∨ (code resp = 500%nat ∧ is_Some (jira w)))
    ∧ (status g = Some "failed" → ∃ e, error g = Some e ∧ e ≠ "")
    ∧ (status g = None ↔ jira w = None)
    ∧ (jira w = None → code resp = 500%nat).
Proof.
  intros Hk.
  destruct (post_testcases_cases actor key autoMode w s Hk)
    as [[Hj E]|(g' & resp & Hout & E)]; rewrite E.
  - eexists _, _, _. split; [done|].
    split; [rewrite lookup_with_record; by case_decide|].
    rewrite Hj. simpl. split_and!; try done.
    + split; [done|]. intros [?|[_ [? ?]]]; done.
  - eexists _, _, _. split; [done|].
    split; [rewrite lookup_with_record; by case_decide|].
    destruct Hout as [f err Hj Hf|f sm ds n m Hj Hf Hgen|f sm ds n c u Hj Hf Hgen];
      rewrite Hj; simpl; split_and!; try done; try (by split);
      try (by eauto); try (split; [by eauto|done]).
    + intros _. eexists. split; [done|]. by apply str_or_nonempty.
    + split; [done|]. intros [?|[? _]]; done.
Qed.

Lemma creation_answer_matches_record_witness :
  Js.truthy_str "TES-1" = true
  ∧ ∃ s' resp g,
      post_testcases qa
        {| body_issueKey := Some "TES-1"; body_autoMode := false |}
        world_flaky empty_store
      = Some (s', resp)
      ∧ generations s'
          !! next_oid (attach_project qa "TES-1" (now world_flaky) empty_store).1
        = Some g
      ∧ (status g = Some "completed" ↔ code resp = 200%nat)
      ∧ (status g = Some "completed" →
         ∃ md, result g = Some md
               ∧ sent resp = Generated
                   (next_oid (attach_project qa "TES-1" (now world_flaky)
                                empty_store).1) "TES-1" md)
      ∧ (status g = Some "failed" ↔
         code resp = 404%nat ∨ (code resp = 500%nat ∧ is_Some (jira world_flaky)))
      ∧ (status g = Some "failed" → ∃ e, error g = Some e ∧ e ≠ "")
      ∧ (status g = None ↔ jira world_flaky = None)
      ∧ (jira world_flaky = None → code resp = 500%nat).
Proof.
  split; [reflexivity|].
  apply (creation_answer_matches_record qa "TES-1" false world_flaky empty_store).
  reflexivity.
Defined.

(** X10: a 200 from [POST /testcases] means the request had an issue
    key and a new record of that issue is stored for the actor as completed at version 1
    with an empty archive, unpublished, started at the request's clock and
    completed at the later one; its content begins with "#", its filename is
    [<issueKey>_testcases_<id>.md], and the answer carries this id and
    markdown. *)
Theorem successful_creation_record actor req w s s' resp :
  post_testcases actor req w s = Some (s', resp) → code resp = 200%nat →
  ∃ key (id : oid) c usage,
    body_issueKey req = Some key
    ∧ Js.startsWith c "#" = true
    ∧ sent resp = Generated id key
        {| content := c;
           filename := key +:+ "_testcases_" +:+ pretty id +:+ ".md" |}
    ∧ generations s' !! id =
        Some {| issueKey := key; email := actor; project := None;
                mode := Some "manual"; status := Some "completed";
                createdAt := now w; startedAt := Some (now w);
                completedAt := Some (finished w); tokenUsage := Some usage;
                result := Some {| content := c;
                                  filename := key +:+ "_testcases_"
                                              +:+ pretty id +:+ ".md" |};
                error := None; published := false; publishedAt := None;
                publishedBy := None; versions := []; currentVersion := 1 |}.
Proof.
  intros H Hcode. destruct req as [[key|] autoMode].
  2: { unfold post_testcases in H. simpl in H. by simplify_eq. }
  destruct (Js.truthy_str key) eqn:Hk.
  2: { unfold post_testcases in H. simpl in H. rewrite Hk in H. by simplify_eq. }
  destruct (post_testcases_cases actor key autoMode w s Hk)
    as [[Hj E]|(g' & resp' & Hout & E)]; rewrite E in H; simplify_eq.
  destruct Hout as [f err Hj Hf|f sm ds n m Hj Hf Hgen|f sm ds n c u Hj Hf Hgen];
    try done.
  exists key, (next_oid (attach_project actor key (now w) s).1), c, u.
  split_and!; try done.
  - by eapply generate_markdown_hash.
  - rewrite lookup_with_record. by case_decide.
Qed.

Lemma successful_creation_record_witness :
  ∃ s' resp,
    post_testcases qa {| body_issueKey := Some "TES-1"; body_autoMode := false |}
      world_up empty_store = Some (s', resp)
    ∧ code resp = 200%nat
    ∧ ∃ key (id : oid) c usage,
        Some "TES-1" = Some key
        ∧ Js.startsWith c "#" = true
        ∧ sent resp = Generated id key
            {| content := c;
               filename := key +:+ "_testcases_" +:+ pretty id +:+ ".md" |}
        ∧ generations s' !! id =
            Some {| issueKey := key; email := qa; project := None;
                    mode := Some "manual"; status := Some "completed";
                    createdAt := now world_up; startedAt := Some (now world_up);
                    completedAt := Some (finished world_up);
                    tokenUsage := Some usage;
                    result := Some {| content := c;
                                      filename := key +:+ "_testcases_"
                                                  +:+ pretty id +:+ ".md" |};
                    error := None; published := false; publishedAt := None;
                    publishedBy := None; versions := []; currentVersion := 1 |}.
Proof.
  eexists _, _. split; [vm_compute; reflexivity|]. split; [reflexivity|].
  eapply (successful_creation_record qa
            {| body_issueKey := Some "TES-1"; body_autoMode := false |}
            world_up empty_store).
  - vm_compute; reflexivity.
  - reflexivity.
Defined.

(** X11: a generation that is not completed can be neither edited nor
    published: for every actor and every body both requests leave the store
    as it is; to the owner, a well-formed edit is answered 400 "Only
    completed generations can be updated!" and a publish or unpublish 400
    "Only completed generations can be published!". *)
Theorem only_completed_is_editable actor (id : oid) s g c p t :
  generations s !! id = Some g → status g ≠ Some "completed" →
  (put_content actor id c t s).1 = s
  ∧ (put_publish actor id p t s).1 = s
  ∧ (email g = actor → ∀ body, Js.trim body ≠ "" →
     (put_content actor id (Some body) t s).2
     = bad_request "Only completed generations can be updated!")
  ∧ (email g = actor → ∀ b,
     (put_publish actor id (Some b) t s).2
     = bad_request "Only completed generations can be published!").
Proof.
  intros Hg Hst. apply is_completed_false in Hst.
  unfold put_content, put_publish, findById. rewrite Hg, Hst. simpl.
  split_and!.
  - destruct c as [body|]; [|done].
    destruct (String.eqb _ _); [done|]. by destruct (isOwner actor g).
  - destruct p; [|done]. by destruct (isOwner actor g).
  - intros Ho body Hb. apply isOwner_spec in Ho. rewrite Ho. simpl.
    by destruct (String.eqb_spec (Js.trim body) "").
  - intros Ho b. apply isOwner_spec in Ho. by rewrite Ho.
Qed.

Lemma only_completed_is_editable_witness :
  ∃ g, generations store_failed !! 1%nat = Some g
  ∧ status g ≠ Some "completed"
  ∧ ((put_content qa 1%nat (Some "# Retry") 3000 store_failed).1 = store_failed
     ∧ (put_publish qa 1%nat (Some true) 3000 store_failed).1 = store_failed
     ∧ (email g = qa → ∀ body, Js.trim body ≠ "" →
        (put_content qa 1%nat (Some body) 3000 store_failed).2
        = bad_request "Only completed generations can be updated!")
     ∧ (email g = qa → ∀ b,
        (put_publish qa 1%nat (Some b) 3000 store_failed).2
        = bad_request "Only completed generations can be published!")).
Proof.
  eexists. split; [vm_compute; reflexivity|]. split; [by vm_compute|].
  apply (only_completed_is_editable qa 1%nat store_failed).
  - vm_compute; reflexivity.
  - by vm_compute.
Defined.

(** X12: requests by other actors never change or remove a generation:
    after any sequence of requests none of which is made by its owner, the
    record is stored exactly as it was. *)
Theorem strangers_change_nothing s rs s' (id : oid) g :
  reachable s → steps s rs s' → generations s !! id = Some g →
  Forall (λ r, actor_of r ≠ email g) rs →
  generations s' !! id = Some g.
Proof.
  intros Hs Hsteps. apply reachable_store_ok in Hs. revert Hs.
  induction Hsteps as [s|s r s1 rs s' [resp Hh] Hrest IH];
    intros Hs Hg Hall; [done|].
  inversion Hall as [|? ? Hr Hrs]; subst.
  pose proof (handle_record_step r s s1 resp id Hs Hh) as Hstep.
  rewrite Hg in Hstep.
  apply IH; [by eapply handle_store_ok| |done].
  inversion Hstep; subst; done.
Qed.

Lemma strangers_change_nothing_witness :
  reachable store_completed
  ∧ ∃ g s',
      steps store_completed
        [PutContent guest 1%nat (Some "# Defaced") 3000;
         PutPublish guest 1%nat (Some true) 3100;
         Delete guest 1%nat] s'
      ∧ generations store_completed !! 1%nat = Some g
      ∧ Forall (λ r, actor_of r ≠ email g)
          [PutContent guest 1%nat (Some "# Defaced") 3000;
           PutPublish guest 1%nat (Some true) 3100;
           Delete guest 1%nat]
      ∧ generations s' !! 1%nat = Some g.
Proof.
  split; [apply store_completed_reachable|].
  assert (∀ s', run [PutContent guest 1%nat (Some "# Defaced") 3000;
                      PutPublish guest 1%nat (Some true) 3100;
                      Delete guest 1%nat] store_completed = Some s' →
                steps store_completed
                  [PutContent guest 1%nat (Some "# Defaced") 3000;
                   PutPublish guest 1%nat (Some true) 3100;
                   Delete guest 1%nat] s') as Hrun.
  { intros s'. apply run_steps. }
  eexists _, _. split; [apply Hrun; vm_compute; reflexivity|].
  split; [vm_compute; reflexivity|].
  split; [by repeat constructor|].
  eapply (strangers_change_nothing store_completed _ _ 1%nat).
  - apply store_completed_reachable.
  - apply Hrun. vm_compute; reflexivity.
  - vm_compute; reflexivity.
  - by repeat constructor.
Defined.

Lemma put_content_owner s (id : oid) g actor body t :
  reachable s → generations s !! id = Some g →
  status g = Some "completed" → email g = actor → actor ≠ "" →
  Js.trim body ≠ "" →
  put_content actor id (Some body) t s =
    (with_record id
       (with_content g (track_version actor body t g).1
          (track_version actor body t g).2 (set_markdown_content g body)) s,
     ok (ContentUpdated body (Js.num_or (track_version actor body t g).2 1))).
Proof.
  intros Hs Hg Hst Ho Ha Hb. pose proof (reachable_valid s id g Hs Hg) as Hok.
  pose proof (validate_revised actor body t g Hok Hst Ha Hb) as Hok'.
  unfold put_content, findById.
  destruct (String.eqb_spec (Js.trim body) "") as [|_]; [done|].
  rewrite Hg, (proj2 (isOwner_spec actor g) Ho). simpl.
  rewrite (proj2 (is_completed_status g) Hst). simpl.
  destruct (track_version actor body t g) as [vs cv] eqn:E. simpl in *.
  by rewrite save_and_send_valid by exact Hok'.
Qed.



(** X14: after an owner whose token carries an email has revised a
    completed generation with different content, the view shows the new
    content at the raised version, an archive one entry longer whose last
    entry is the prior content under the prior version number, and the
    editor as [lastUpdatedBy]. (An owner without email cannot revise: the
    save is refused and the view shows the record as it was.) *)
Theorem view_shows_the_revision s (id : oid) g actor body t :
  reachable s → generations s !! id = Some g →
  status g = Some "completed" → email g = actor → actor ≠ "" →
  Js.trim body ≠ "" → body ≠ current_content g →
  ∃ d, get_view actor id (put_content actor id (Some body) t s).1
       = ok (Viewed d)
       ∧ vd_content d = body
       ∧ vd_currentVersion d = currentVersion g + 1
       ∧ vd_versions d =
           (versions g ++
            [ {| versionNumber := Js.to_string (currentVersion g);
                 v_content := current_content g; releaseDate := t;
                 updatedBy := actor; notes := None |} ])%list
       ∧ vd_lastUpdatedBy d = actor
       ∧ vd_published d = published g.
Proof.
  intros Hs Hg Hst Ho Ha Hb Hdiff.
  pose proof (reachable_valid s id g Hs Hg) as Hok.
  destruct (ok_versions g Hok) as [Hcv _].
  destruct (ok_result g Hok Hst) as (md & Hmd & Hne).
  rewrite (put_content_owner s id g actor body t Hs Hg Hst Ho Ha Hb).
  rewrite track_version_changed; [|lia| |done].
  2: { unfold current_content. rewrite Hmd. by apply trim_nonempty. }
  cbn [fst snd]. unfold get_view, findById. rewrite lookup_with_record.
  case_decide; [|done].
  unfold isOwner, isPublishedAndCompleted, is_completed, status_value. simpl.
  rewrite Hst, Ho, String.eqb_refl. simpl.
  eexists. split; [reflexivity|]. simpl. split_and!; try done.
  rewrite last_snoc. simpl. unfold Js.str_or.
  by rewrite (proj2 (truthy_str_true actor) Ha).
Qed.

Lemma view_shows_the_revision_witness :
  reachable store_completed
  ∧ ∃ g, generations store_completed !! 1%nat = Some g
    ∧ status g = Some "completed" ∧ email g = qa ∧ qa ≠ ""
    ∧ Js.trim "# Test Cases, second draft" ≠ ""
    ∧ "# Test Cases, second draft" ≠ current_content g
    ∧ ∃ d, get_view qa 1%nat
             (put_content qa 1%nat (Some "# Test Cases, second draft") 3000
                store_completed).1
           = ok (Viewed d)
           ∧ vd_content d = "# Test Cases, second draft"
           ∧ vd_currentVersion d = currentVersion g + 1
           ∧ vd_versions d =
               (versions g ++
                [ {| versionNumber := Js.to_string (currentVersion g);
                     v_content := current_content g; releaseDate := 3000;
                     updatedBy := qa; notes := None |} ])%list
           ∧ vd_lastUpdatedBy d = qa
           ∧ vd_published d = published g.
Proof.
  split; [apply store_completed_reachable|].
  eexists. split; [vm_compute; reflexivity|].
  split; [reflexivity|]. split; [reflexivity|]. split; [done|].
  split; [by vm_compute|]. split; [by vm_compute|].
  apply (view_shows_the_revision store_completed 1%nat).
  - apply store_completed_reachable.
  - vm_compute; reflexivity.
  - reflexivity.
  - reflexivity.
  - done.
  - by vm_compute.
  - by vm_compute.
Defined.

(** ** Extras on the project registry *)

Lemma upper_char_alpha c : is_alpha c = true → Js.is_upper (Js.upper_char c) = true.
Proof. destruct c as [[] [] [] [] [] [] [] []]; vm_compute; congruence. Qed.

Lemma upper_char_digit c : Js.is_digit c = true → Js.upper_char c = c.
Proof. destruct c as [[] [] [] [] [] [] [] []]; vm_compute; congruence. Qed.

Lemma upper_char_is_alpha c : is_alpha (Js.upper_char c) = is_alpha c.
Proof. by destruct c as [[] [] [] [] [] [] [] []]. Qed.

Lemma upper_char_is_alnum c : is_alnum (Js.upper_char c) = is_alnum c.
Proof. by destruct c as [[] [] [] [] [] [] [] []]. Qed.

Lemma upper_char_dash c : Ascii.eqb (Js.upper_char c) "-" = Ascii.eqb c "-".
Proof. by destruct c as [[] [] [] [] [] [] [] []]. Qed.

Lemma upper_char_idemp c : Js.upper_char (Js.upper_char c) = Js.upper_char c.
Proof. by destruct c as [[] [] [] [] [] [] [] []]. Qed.

Lemma upper_char_upper c :
  Js.is_upper c || Js.is_digit c = true → Js.upper_char c = c.
Proof. destruct c as [[] [] [] [] [] [] [] []]; vm_compute; congruence. Qed.

Lemma upper_not_whitespace c :
  Js.is_upper c || Js.is_digit c = true → Js.is_whitespace c = false.
Proof. destruct c as [[] [] [] [] [] [] [] []]; vm_compute; congruence. Qed.

Lemma alnum_upper c :
  is_alnum c = true → Js.is_upper (Js.upper_char c) || Js.is_digit (Js.upper_char c) = true.
Proof. destruct c as [[] [] [] [] [] [] [] []]; vm_compute; congruence. Qed.

Lemma dash_not_alnum : is_alnum "-" = false.
Proof. reflexivity. Qed.

Lemma toUpperCase_app a b :
  Js.toUpperCase (a +:+ b) = Js.toUpperCase a +:+ Js.toUpperCase b.
Proof. induction a as [|c a IH]; simpl; [done|]. by rewrite IH. Qed.

Lemma toUpperCase_idemp s : Js.toUpperCase (Js.toUpperCase s) = Js.toUpperCase s.
Proof.
  induction s as [|c s IH]; simpl; [done|]. by rewrite upper_char_idemp, IH.
Qed.

Lemma span_alnum_split s :
  s = (span_alnum s).1 +:+ (span_alnum s).2
  ∧ chars_all is_alnum (span_alnum s).1 = true
  ∧ ((span_alnum s).2 = ""
     ∨ ∃ c r, (span_alnum s).2 = String c r ∧ is_alnum c = false).
Proof.
  induction s as [|c s (IH1 & IH2 & IH3)]; simpl; [by auto|].
  destruct (is_alnum c) eqn:Hc.
  - destruct (span_alnum s) as [run rest]. simpl in *.
    rewrite Hc, IH2. split; [|by split].
    change (String c s = String c (run +:+ rest)). congruence.
  - simpl. split; [done|]. split; [done|]. right. eauto.
Qed.

Lemma span_alnum_app run c rest :
  chars_all is_alnum run = true → is_alnum c = false →
  span_alnum (run +:+ String c rest) = (run, String c rest).
Proof.
  intros Hr Hc. induction run as [|d run IH]; simpl in *.
  - by rewrite Hc.
  - apply andb_true_iff in Hr as [Hd Hr]. by rewrite Hd, IH.
Qed.

Lemma span_alnum_upper s :
  span_alnum (Js.toUpperCase s)
  = (Js.toUpperCase (span_alnum s).1, Js.toUpperCase (span_alnum s).2).
Proof.
  induction s as [|c s IH]; simpl; [done|].
  rewrite upper_char_is_alnum. destruct (is_alnum c); simpl; [|done].
  rewrite IH. by destruct (span_alnum s).
Qed.

Lemma toUpperCase_key run :
  chars_all is_alnum run = true →
  chars_all (λ x, Js.is_upper x || Js.is_digit x) (Js.toUpperCase run) = true.
Proof.
  induction run as [|c run IH]; simpl; [done|].
  intros H. apply andb_true_iff in H as [Hc Hr].
  by rewrite (alnum_upper c Hc), IH.
Qed.

(** X15: [extractProjectKey] gives a key exactly for an issue key that
    is a letter and at least one more letter or digit, followed by a dash;
    the key is that prefix, the part before the first dash, in upper
    case. So a key it gives is an upper-case letter followed by at least one
    upper-case letter or digit. *)
Theorem extractProjectKey_spec s k :
  extractProjectKey s = Some k ↔
  ∃ p rest, s = p +:+ "-" +:+ rest ∧ key_prefix p ∧ k = Js.toUpperCase p.
Proof.
  split.
  - destruct s as [|c s']; simpl; [done|].
    destruct (is_alpha c) eqn:Hc; [|done].
    destruct (span_alnum_split s') as (Hs & Hrun & _).
    destruct (span_alnum s') as [[|d run] [|dash rest]]; try done.
    simpl in Hs, Hrun.
    destruct (Ascii.eqb_spec dash "-") as [->|]; [|done].
    intros [= <-]. exists (String c (String d run)), rest.
    split; [simpl; by rewrite Hs|]. split; [|done].
    exists c, (String d run). by split_and!.
  - intros (p & rest & -> & (c & run & -> & Hc & Hne & Hrun) & ->).
    change (String c run +:+ "-" +:+ rest)
      with (String c (run +:+ String "-" rest)).
    unfold extractProjectKey. rewrite Hc.
    rewrite (span_alnum_app run "-" rest Hrun dash_not_alnum).
    destruct run as [|d run]; [done|]. done.
Qed.

(** The keys [extractProjectKey] gives have the registry's shape. *)
Lemma extractProjectKey_shape s k : extractProjectKey s = Some k → project_key k.
Proof.
  intros H. apply extractProjectKey_spec in H
    as (p & rest & _ & (c & run & -> & Hc & Hne & Hrun) & ->).
  exists (Js.upper_char c), (Js.toUpperCase run). simpl.
  split_and!; [done|by apply upper_char_alpha| |by apply toUpperCase_key].
  by destruct run.
Qed.

Lemma upper_units_ascii c :
  N.ltb (Js.code c) 128 = true →
  JiraService.upper_units c = String (Js.upper_char c) "".
Proof. destruct c as [[] [] [] [] [] [] [] []]; try discriminate; done. Qed.

(** On ASCII strings the two upper-casings of the model are one. *)
Lemma toUpperCase_ascii s :
  chars_all (λ c, N.ltb (Js.code c) 128) s = true →
  JiraService.toUpperCase s = Js.toUpperCase s.
Proof.
  induction s as [|c s IH]; [done|]. simpl.
  intros [Hc Hs]%andb_true_iff. by rewrite (upper_units_ascii c Hc), IH.
Qed.

(** X16: on an issue key of ASCII characters [extractProjectKey] does not
    depend on the case: the upper-cased key gives the same result. Beyond
    ASCII it can: sharp s upper-cases to "SS", so a key that has no project
    prefix gets one. And an issue key without a dash right after its
    letters and digits gives nothing. *)
Theorem extractProjectKey_ignores_case s :
  (chars_all (λ c, N.ltb (Js.code c) 128) s = true →
   JiraService.toUpperCase s = Js.toUpperCase s
   ∧ extractProjectKey (JiraService.toUpperCase s) = extractProjectKey s)
  ∧ (let key := "a" +:+ String (ascii_of_nat 223) "-1" in
     extractProjectKey key = None
     ∧ extractProjectKey (JiraService.toUpperCase key) = Some "ASS")
  ∧ (chars_all is_alnum s = true → extractProjectKey s = None).
Proof.
  split_and!.
  - intros Hs. rewrite (toUpperCase_ascii s Hs). split; [done|].
    clear Hs. destruct s as [|c s']; simpl; [done|].
    rewrite upper_char_is_alpha. destruct (is_alpha c); [|done].
    rewrite span_alnum_upper.
    destruct (span_alnum s') as [[|d run] [|dash rest]]; simpl; try done.
    rewrite upper_char_dash. destruct (Ascii.eqb dash "-"); [|done].
    by rewrite !upper_char_idemp, toUpperCase_idemp.
  - by vm_compute.
  - intros H. destruct (extractProjectKey s) as [k|] eqn:E; [|done].
    apply extractProjectKey_spec in E as (p & rest & -> & _ & _).
    exfalso. clear -H. induction p as [|c p IH]; simpl in H.
    + done.
    + apply andb_true_iff in H as [_ H]. by apply IH.
Qed.

Lemma string_app_cons c (s t : string) : String c s +:+ t = String c (s +:+ t).
Proof. reflexivity. Qed.

Lemma string_app_nil_r (s : string) : s +:+ "" = s.
Proof.
  induction s as [|c s IH]; [done|]. by rewrite string_app_cons, IH.
Qed.

Lemma rev_app_rev_app s a b :
  String.rev_app (String.rev_app s a) b = String.rev_app a (s +:+ b).
Proof.
  revert a b. induction s as [|c s IH]; intros a b; [done|].
  rewrite string_app_cons. simpl. by rewrite IH.
Qed.

Lemma string_rev_involutive s : String.rev (String.rev s) = s.
Proof.
  unfold String.rev. rewrite rev_app_rev_app. simpl. apply string_app_nil_r.
Qed.

Lemma chars_all_rev_app f s acc :
  chars_all f (String.rev_app s acc) = chars_all f s && chars_all f acc.
Proof.
  revert acc. induction s as [|c s IH]; simpl; intros acc; [done|].
  rewrite IH. simpl. destruct (f c), (chars_all f s); done.
Qed.

Lemma trimStart_id s :
  chars_all (λ c, negb (Js.is_whitespace c)) s = true → Js.trimStart s = s.
Proof.
  destruct s as [|c s]; simpl; [done|]. intros H.
  apply andb_true_iff in H as [Hc _]. by destruct (Js.is_whitespace c).
Qed.

(** A string without white space is its own [trim]. *)
Lemma trim_id s :
  chars_all (λ c, negb (Js.is_whitespace c)) s = true → Js.trim s = s.
Proof.
  intros H. unfold Js.trim, Js.trimEnd. rewrite (trimStart_id s H).
  rewrite trimStart_id; [apply string_rev_involutive|].
  unfold String.rev. by rewrite chars_all_rev_app, H.
Qed.

Lemma chars_all_impl (f g : ascii → bool) s :
  (∀ c, f c = true → g c = true) → chars_all f s = true → chars_all g s = true.
Proof.
  intros Hfg. induction s as [|c s IH]; simpl; [done|].
  intros H. apply andb_true_iff in H as [Hc Hs]. by rewrite (Hfg c Hc), IH.
Qed.

Lemma toUpperCase_id s :
  chars_all (λ x, Js.is_upper x || Js.is_digit x) s = true → Js.toUpperCase s = s.
Proof.
  induction s as [|c s IH]; simpl; [done|].
  intros H. apply andb_true_iff in H as [Hc Hs].
  by rewrite (upper_char_upper c Hc), IH.
Qed.

Lemma project_key_chars k :
  project_key k → chars_all (λ x, Js.is_upper x || Js.is_digit x) k = true ∧ k ≠ "".
Proof.
  intros (c & run & -> & Hc & _ & Hrun). simpl. by rewrite Hc, Hrun.
Qed.

(** The normalisation of [findOrCreateProject] leaves a project key as it
    is. *)
Lemma normalize_project_key k :
  project_key k → Js.toUpperCase (Js.trim k) = k.
Proof.
  intros Hk. destruct (project_key_chars k Hk) as [Hc _].
  rewrite trim_id; [by apply toUpperCase_id|].
  eapply chars_all_impl; [|done]. intros c H. simpl.
  by rewrite (upper_not_whitespace c H).
Qed.

Lemma find_key_None key (ps : list project_doc) :
  List.find (λ p, String.eqb (projectKey p) key) ps = None →
  key ∉ projectKey <$> ps.
Proof.
  induction ps as [|p ps IH]; simpl; [intros _; apply not_elem_of_nil|].
  destruct (String.eqb_spec (projectKey p) key) as [|Hne]; [done|].
  intros H. apply not_elem_of_cons. split; [done|by apply IH].
Qed.

Lemma find_key_Some key (ps : list project_doc) p :
  List.find (λ p, String.eqb (projectKey p) key) ps = Some p →
  p ∈ ps ∧ projectKey p = key.
Proof.
  intros H. apply find_some in H as [Hin Hk].
  split; [by apply list_elem_of_In|by apply String.eqb_eq].
Qed.

Lemma NoDup_fmap_eq {A B} (f : A → B) (l : list A) x y :
  NoDup (f <$> l) → x ∈ l → y ∈ l → f x = f y → x = y.
Proof.
  induction l as [|a l IH]; simpl; intros Hnd Hx Hy Hf.
  - by apply elem_of_nil in Hx.
  - apply NoDup_cons in Hnd as [Ha Hnd].
    apply elem_of_cons in Hx as [->|Hx]; apply elem_of_cons in Hy as [->|Hy];
      try done.
    + exfalso. apply Ha. rewrite Hf. by apply list_elem_of_fmap_2.
    + exfalso. apply Ha. rewrite <- Hf. by apply list_elem_of_fmap_2.
    + by apply IH.
Qed.

(** Saving a changed copy of a registered project touches only its entry:
    keys and ids stay as they are. *)
Lemma save_project_update s p p' :
  NoDup (p_id <$> projects s) → p ∈ projects s →
  p_id p' = p_id p → projectKey p' = projectKey p →
  projectKey <$> projects (save_project p' s) = projectKey <$> projects s
  ∧ p_id <$> projects (save_project p' s) = p_id <$> projects s
  ∧ length (projects (save_project p' s)) = length (projects s)
  ∧ p' ∈ projects (save_project p' s)
  ∧ ∀ q, q ∈ projects (save_project p' s) → q = p' ∨ q ∈ projects s.
Proof.
  intros Hnd Hp Hid Hkey. unfold save_project. simpl.
  assert (existsb (λ q, Nat.eqb (p_id q) (p_id p')) (projects s) = true) as ->.
  { apply existsb_exists. exists p. split; [by apply list_elem_of_In|].
    rewrite Hid. apply Nat.eqb_refl. }
  assert (∀ q, q ∈ projects s → Nat.eqb (p_id q) (p_id p') = true → q = p) as Hq.
  { intros q Hin E. apply Nat.eqb_eq in E.
    eapply (NoDup_fmap_eq p_id); [done..|congruence]. }
  set (f := λ q, if Nat.eqb (p_id q) (p_id p') then p' else q).
  change (map f (projects s)) with (f <$> projects s). subst f.
  split_and!.
  - rewrite <- list_fmap_compose. apply list_fmap_ext.
    intros i q Hin. apply list_elem_of_lookup_2 in Hin. simpl.
    destruct (Nat.eqb _ _) eqn:E; [|done].
    rewrite (Hq q Hin E). done.
  - rewrite <- list_fmap_compose. apply list_fmap_ext.
    intros i q Hin. simpl. destruct (Nat.eqb _ _) eqn:E; [|done].
    by apply Nat.eqb_eq in E.
  - apply length_fmap.
  - apply list_elem_of_fmap. exists p. split; [|done].
    by rewrite Hid, Nat.eqb_refl.
  - intros q Hin. apply list_elem_of_fmap in Hin as (q0 & E & Hin).
    destruct (Nat.eqb _ _); [by left|]. subst. by right.
Qed.

Lemma find_key_unique (ps : list project_doc) p :
  NoDup (projectKey <$> ps) → p ∈ ps →
  List.find (λ q, String.eqb (projectKey q) (projectKey p)) ps = Some p.
Proof.
  intros Hnd Hp.
  destruct (List.find _ ps) as [q|] eqn:E.
  - apply find_key_Some in E as [Hq Hk]. f_equal.
    by eapply (NoDup_fmap_eq projectKey).
  - apply find_key_None in E. exfalso. apply E. by apply list_elem_of_fmap_2.
Qed.

Lemma existsb_fresh_id (ps : list project_doc) n :
  Forall (λ p, (p_id p < n)%nat) ps →
  existsb (λ q, Nat.eqb (p_id q) n) ps = false.
Proof.
  induction 1 as [|p ps Hp _ IH]; simpl; [done|].
  rewrite IH, orb_false_r. apply Nat.eqb_neq. lia.
Qed.

Lemma findOrCreateProject_effect k actor t s :
  registry_ok s → project_key k →
  let s' := (findOrCreateProject k actor t s).1 in
  ∃ p, (findOrCreateProject k actor t s).2 = inr p
    ∧ projectKey p = k ∧ lastGeneratedAt p = Some t
    ∧ findOne_project k s' = Some p
    ∧ registry_ok s'
    ∧ generations s' = generations s
    ∧ match findOne_project k s with
      | Some p0 =>
          length (projects s') = length (projects s)
          ∧ p_id p = p_id p0 ∧ firstGeneratedAt p = firstGeneratedAt p0
          ∧ totalGenerations p = totalGenerations p0
          ∧ createdBy p = createdBy p0
      | None =>
          projects s' = (projects s ++ [p])%list
          ∧ p_id p = next_oid s ∧ firstGeneratedAt p = Some t
          ∧ totalGenerations p = 0 ∧ createdBy p = Some actor
      end.
Proof.
  intros (Hkeys & Hids & Hall) Hk s'. subst s'.
  destruct (project_key_chars k Hk) as [_ Hne].
  unfold findOrCreateProject.
  rewrite (proj2 (truthy_str_true k) Hne). simpl.
  rewrite (normalize_project_key k Hk).
  destruct (findOne_project k s) as [p0|] eqn:Hfind.
  - unfold findOne_project in Hfind. apply find_key_Some in Hfind as [Hin Hkey0].
    set (p' := {| p_id := p_id p0; projectKey := projectKey p0;
                  firstGeneratedAt := firstGeneratedAt p0;
                  lastGeneratedAt := Some t;
                  totalGenerations := totalGenerations p0;
                  createdBy := createdBy p0 |}).
    destruct (save_project_update s p0 p' Hids Hin eq_refl eq_refl)
      as (Ek & Ei & El & Hin' & Hsub).
    cbn [fst snd]. exists p'. split_and!; try done.
    + unfold findOne_project. rewrite <- Hkey0.
      change (projectKey p0) with (projectKey p').
      apply find_key_unique; [by rewrite Ek|done].
    + split_and!; [by rewrite Ek|by rewrite Ei|].
      apply Forall_forall. intros q Hq. rewrite Forall_forall in Hall.
      destruct (Hsub q Hq) as [->|Hq0]; [|by apply Hall].
      simpl. apply (Hall p0 Hin).
  - unfold findOne_project in Hfind. apply find_key_None in Hfind.
    unfold fresh_oid. cbv zeta. unfold required.
    rewrite (proj2 (truthy_str_true k) Hne).
    set (p := {| p_id := next_oid s; projectKey := k;
                 firstGeneratedAt := Some t; lastGeneratedAt := Some t;
                 totalGenerations := 0; createdBy := Some actor |}).
    assert (Forall (λ q, (p_id q < next_oid s)%nat) (projects s)) as Hlt
      by (eapply Forall_impl; [done|]; by intros q [? _]).
    unfold save_project. cbn [fst snd projects generations next_oid p_id].
    change (p_id p) with (next_oid s).
    rewrite (existsb_fresh_id _ _ Hlt).
    exists p. split_and!; try done.
    + unfold findOne_project. simpl.
      change k with (projectKey p) at 1.
      apply find_key_unique.
      * rewrite fmap_app. apply NoDup_app. split; [done|]. split.
        -- intros x Hx Hx'. apply list_elem_of_singleton in Hx'. by subst.
        -- apply NoDup_singleton.
      * apply elem_of_app. right. by apply list_elem_of_singleton.
    + split_and!; simpl.
      * rewrite fmap_app. apply NoDup_app. split; [done|]. split.
        -- intros x Hx Hx'. apply list_elem_of_singleton in Hx'. by subst.
        -- apply NoDup_singleton.
      * rewrite fmap_app. apply NoDup_app. split; [done|]. split.
        -- intros x Hx Hx'. apply list_elem_of_singleton in Hx'. subst.
           apply list_elem_of_fmap in Hx as (q & E & Hq).
           rewrite Forall_forall in Hlt. specialize (Hlt q Hq). simpl in E. lia.
        -- apply NoDup_singleton.
      * apply Forall_app. split.
        -- eapply Forall_impl; [exact Hall|]. intros q [? ?]. split; [lia|done].
        -- constructor; [|done]. simpl. split; [lia|done].
Qed.


Lemma registry_ok_empty : registry_ok empty_store.
Proof. split_and!; simpl; by constructor. Qed.

Lemma attach_project_registry actor key t s :
  registry_ok s → registry_ok (attach_project actor key t s).1.
Proof.
  intros Hs. unfold attach_project.
  destruct (extractProjectKey key) as [k|] eqn:E; [|done].
  destruct (findOrCreateProject_effect k actor t s Hs
              (extractProjectKey_shape key k E)) as (p & _ & _ & _ & _ & H & _).
  by destruct (findOrCreateProject k actor t s).
Qed.

Lemma registry_ok_bump s s' :
  registry_ok s → projects s' = projects s → (next_oid s ≤ next_oid s')%nat →
  registry_ok s'.
Proof.
  intros (H1 & H2 & H3) Hp Hn. unfold registry_ok. rewrite Hp.
  split_and!; [done..|]. eapply Forall_impl; [done|].
  intros q [? ?]. split; [lia|done].
Qed.

Lemma save_and_send_projects id g r s :
  projects (save_and_send id g r s).1 = projects s.
Proof.
  unfold save_and_send. destruct (save id g s) as [s'|] eqn:E; [|done].
  by apply save_Some in E as [_ ->].
Qed.

Lemma handle_projects r s s' resp :
  handle r s = Some (s', resp) →
  (projects s' = projects s
   ∨ ∃ a key autoMode w,
       r = PostTestcases a {| body_issueKey := Some key; body_autoMode := autoMode |} w
       ∧ Js.truthy_str key = true
       ∧ projects s' = projects (attach_project a key (now w) s).1).
Proof.
  intros H. destruct r as [a req w|a i|a i|a i c t|a i p t|a i]; simpl in H.
  - destruct req as [[key|] autoMode]; unfold post_testcases in H; simpl in H.
    2: { left. by simplify_eq. }
    destruct (Js.truthy_str key) eqn:Hk.
    2: { left. by simplify_eq. }
    destruct (post_testcases_spec a key autoMode w s Hk)
      as (s'' & resp' & g' & E & _ & _ & Hps & _).
    unfold post_testcases in E. simpl in E. rewrite Hk in E.
    rewrite E in H. simplify_eq. right. eauto 10.
  - left. by simplify_eq.
  - left. by simplify_eq.
  - left. injection H as H.
    replace s' with (put_content a i c t s).1 by (by rewrite H).
    unfold put_content. repeat case_match; simpl;
      rewrite ?save_and_send_projects; done.
  - left. injection H as H.
    replace s' with (put_publish a i p t s).1 by (by rewrite H).
    unfold put_publish. repeat case_match; simpl;
      rewrite ?save_and_send_projects; done.
  - left. injection H as H.
    replace s' with (delete_generation a i s).1 by (by rewrite H).
    unfold delete_generation. repeat case_match; done.
Qed.

Lemma handle_registry_ok r s s' resp :
  registry_ok s → handle r s = Some (s', resp) → registry_ok s'.
Proof.
  intros Hs H. pose proof (handle_next_oid_mono r s s' resp H) as Hn.
  destruct (handle_projects r s s' resp H)
    as [Hp|(a & key & autoMode & w & -> & Hk & Hp)].
  - by eapply registry_ok_bump.
  - simpl in H.
    destruct (post_testcases_spec a key autoMode w s Hk)
      as (s'' & resp' & g' & E & _ & Hn' & _).
    rewrite E in H. simplify_eq.
    eapply (registry_ok_bump (attach_project a key (now w) s).1);
      [by apply attach_project_registry|done|lia].
Qed.

Lemma reachable_registry_ok s : reachable s → registry_ok s.
Proof.
  induction 1 as [|s r s' _ IH [resp Hh]]; [apply registry_ok_empty|].
  by eapply handle_registry_ok.
Qed.


(** X18: in every reachable store the registry holds no project key
    twice and no id twice, and every key is an upper-case letter followed by
    upper-case letters or digits. A generation request whose issue key has
    a project prefix leaves that project registered: it adds one project
    when the key was not registered and none when it was. *)
Theorem registry_keys_are_unique s :
  reachable s →
  registry_ok s
  ∧ ∀ actor key autoMode w k,
      extractProjectKey key = Some k →
      ∃ s' resp,
        post_testcases actor
          {| body_issueKey := Some key; body_autoMode := autoMode |} w s
        = Some (s', resp)
        ∧ k ∈ projectKey <$> projects s'
        ∧ length (projects s')
          = if decide (k ∈ projectKey <$> projects s)
            then length (projects s) else S (length (projects s)).
Proof.
  intros Hs. pose proof (reachable_registry_ok s Hs) as Hreg.
  split; [done|]. intros actor key autoMode w k Hk.
  assert (Js.truthy_str key = true) as Ht by (by destruct key).
  destruct (post_testcases_spec actor key autoMode w s Ht)
    as (s' & resp & g' & E & _ & _ & Hps & _).
  exists s', resp. split; [done|]. rewrite Hps.
  unfold attach_project. rewrite Hk.
  destruct (findOrCreateProject_effect k actor (now w) s Hreg
              (extractProjectKey_shape key k Hk))
    as (p & _ & Hkey & _ & Hfind & _ & _ & Hcase).
  destruct (findOrCreateProject k actor (now w) s) as [s1 r]. simpl in *.
  unfold findOne_project in Hfind. apply find_key_Some in Hfind as [Hin _].
  split.
  - rewrite <- Hkey. by apply list_elem_of_fmap_2.
  - unfold findOne_project in Hcase.
    destruct (List.find _ (projects s)) as [p0|] eqn:E0.
    + apply find_key_Some in E0 as [Hin0 Hk0].
      destruct Hcase as (-> & _). rewrite decide_True; [done|].
      rewrite <- Hk0. by apply list_elem_of_fmap_2.
    + apply find_key_None in E0. destruct Hcase as (-> & _).
      rewrite decide_False by done. rewrite length_app. simpl. lia.
Qed.

Lemma registry_keys_are_unique_witness :
  reachable store_completed
  ∧ registry_ok store_completed
  ∧ ∃ s' resp,
      post_testcases guest
        {| body_issueKey := Some "tes-2"; body_autoMode := false |}
        world_up store_completed
      = Some (s', resp)
      ∧ "TES" ∈ projectKey <$> projects s'
      ∧ length (projects s')
        = if decide ("TES" ∈ projectKey <$> projects store_completed)
          then length (projects store_completed)
          else S (length (projects store_completed)).
Proof.
  split; [apply store_completed_reachable|].
  destruct (registry_keys_are_unique store_completed store_completed_reachable)
    as [Hreg Hpost].
  split; [exact Hreg|].
  apply (Hpost guest "tes-2" false world_up "TES"). reflexivity.
Defined.

(** ** Extras on the generator call *)

(** With its prompt bound, [generateTestCases] makes one call and its
    result is that call's. *)
Lemma generateTestCases_first b api context key (autoMode : bool) systemPrompt :
  (if autoMode then OpenAIService.AUTO_PROMPT b
   else Some (OpenAIService.MANUAL_PROMPT b)) = Some systemPrompt →
  OpenAIService.generateTestCases b api context key autoMode =
  Some (1%nat,
        match api systemPrompt (issue_context key context) 0%nat with
        | OpenAIService.Resolves text usage =>
            if Js.truthy_str text
            then inr (Some {| OpenAIService.g_content := text;
                              OpenAIService.g_tokenUsage := usage |})
            else inl "Empty response from OpenAI"
        | OpenAIService.Rejects message => inl message
        end).
Proof.
  intros Hp. unfold OpenAIService.generateTestCases. rewrite Hp.
  unfold OpenAIService.maxRetries.
  cbn [while OpenAIService.retryCount Nat.ltb Nat.leb].
  unfold OpenAIService.loop_body, OpenAIService.attempt, issue_context.
  cbn [OpenAIService.calls OpenAIService.retryCount OpenAIService.lastError].
  destruct (api _ _ _) as [text usage|message]; [|done].
  by destruct (Js.truthy_str text).
Qed.

Lemma generate_markdown_first w key summary context (autoMode : bool) api
    systemPrompt :
  openai w = Some api →
  (if autoMode then OpenAIService.AUTO_PROMPT (prompts w)
   else Some (OpenAIService.MANUAL_PROMPT (prompts w))) = Some systemPrompt →
  generate_markdown w key summary context autoMode =
  Some (1%nat,
        match api systemPrompt (issue_context key context) 0%nat with
        | OpenAIService.Resolves text usage =>
            if Js.truthy_str text
            then inr (titled key summary text, usage)
            else inl "Empty response from OpenAI"
        | OpenAIService.Rejects message => inl message
        end).
Proof.
  intros Ho Hp. unfold generate_markdown. rewrite Ho.
  rewrite (generateTestCases_first _ _ _ _ _ _ Hp).
  destruct (api _ _ _) as [text usage|message]; [|done].
  destruct (Js.truthy_str text); [|done]. unfold titled. simpl.
  by destruct (Js.startsWith text "#").
Qed.

(** The route once JIRA has given the issue and the generator has been
    called: the record and the answer follow the first API call. *)
Lemma post_testcases_generated actor key (autoMode : bool) w s getIssue api
    summary description systemPrompt :
  Js.truthy_str key = true →
  jira w = Some getIssue → getIssue key = IssueFound summary description →
  openai w = Some api →
  (if autoMode then OpenAIService.AUTO_PROMPT (prompts w)
   else Some (OpenAIService.MANUAL_PROMPT (prompts w))) = Some systemPrompt →
  let id := next_oid (attach_project actor key (now w) s).1 in
  let g := new_generation actor key NoProject (now w) in
  ∃ s' resp g',
    post_testcases actor
      {| body_issueKey := Some key; body_autoMode := autoMode |} w s
    = Some (s', resp)
    ∧ generations s' !! id = Some g'
    ∧ (∀ text usage,
         api systemPrompt (issue_context key (route_context summary description))
           0%nat = OpenAIService.Resolves text usage →
         text ≠ "" →
         g' = with_completion g (finished w) (Some usage)
                {| content := titled key summary text;
                   filename := key +:+ "_testcases_" +:+ pretty id +:+ ".md" |}
         ∧ resp = ok (Generated id key
                        {| content := titled key summary text;
                           filename := key +:+ "_testcases_" +:+ pretty id
                                       +:+ ".md" |}))
    ∧ (∀ usage,
         api systemPrompt (issue_context key (route_context summary description))
           0%nat = OpenAIService.Resolves "" usage →
         g' = with_outcome g "failed"
                (Some "OpenAI generation failed: Empty response from OpenAI")
                (finished w)
         ∧ resp = {| code := 500; sent := Failure "Empty response from OpenAI" |})
    ∧ (∀ message,
         api systemPrompt (issue_context key (route_context summary description))
           0%nat = OpenAIService.Rejects message →
         g' = with_outcome g "failed"
                (Some ("OpenAI generation failed: " +:+ message)) (finished w)
         ∧ resp = {| code := 500;
                     sent := Failure (Js.str_or message
                                        "Failed to generate test cases") |}).
Proof.
  intros Hk Hj Hi Ho Hp id g.
  destruct (post_testcases_cases actor key autoMode w s Hk)
    as [[Hj' _]|(g' & resp & Hout & E)]; [congruence|].
  rewrite E. eexists _, _, g'. split; [done|].
  split; [rewrite lookup_with_record; by case_decide|].
  pose proof (generate_markdown_first w key summary
                (route_context summary description) autoMode api systemPrompt
                Ho Hp) as Hgen.
  unfold route_context in *.
  destruct Hout as [f err Hj1 Hf|f sm ds n m Hj1 Hf Hg|f sm ds n c u Hj1 Hf Hg];
    simpl in Hf; rewrite Hj in Hj1; simplify_eq; rewrite Hi in Hf; simplify_eq;
    simpl in Hg; rewrite Hgen in Hg.
  - split_and!.
    + intros text usage Ha Hne. rewrite Ha in Hg.
      by rewrite (proj2 (truthy_str_true text) Hne) in Hg.
    + intros usage Ha. rewrite Ha in Hg. simpl in Hg. by simplify_eq.
    + intros message Ha. rewrite Ha in Hg. by simplify_eq.
  - split_and!.
    + intros text usage Ha Hne. rewrite Ha in Hg.
      rewrite (proj2 (truthy_str_true text) Hne) in Hg. by simplify_eq.
    + intros usage Ha. rewrite Ha in Hg. simpl in Hg. by simplify_eq.
    + intros message Ha. rewrite Ha in Hg. by simplify_eq.
Qed.

(** X19: when JIRA gives the issue and the first API call answers with
    text, the generation is stored completed with that call's token usage
    and the answer is 200. The stored markdown is the text itself when it
    begins with "#"; otherwise it is the text under the heading
    "# Test Cases for <issueKey>: <summary>", with "Untitled" for an empty
    summary. *)
Theorem stored_markdown_has_a_title actor key w s getIssue api summary
    description text usage :
  Js.truthy_str key = true →
  jira w = Some getIssue → getIssue key = IssueFound summary description →
  openai w = Some api →
  api (OpenAIService.MANUAL_PROMPT (prompts w))
    (issue_context key (route_context summary description)) 0%nat
  = OpenAIService.Resolves text usage →
  text ≠ "" →
  let id := next_oid (attach_project actor key (now w) s).1 in
  let md := {| content := titled key summary text;
               filename := key +:+ "_testcases_" +:+ pretty id +:+ ".md" |} in
  ∃ s' g',
    post_testcases actor
      {| body_issueKey := Some key; body_autoMode := false |} w s
    = Some (s', ok (Generated id key md))
    ∧ generations s' !! id = Some g'
    ∧ status g' = Some "completed" ∧ result g' = Some md
    ∧ tokenUsage g' = Some usage
    ∧ (Js.startsWith text "#" = true → content md = text)
    ∧ (Js.startsWith text "#" = false →
       content md =
         "# Test Cases for " +:+ key +:+ ": " +:+ Js.str_or summary "Untitled"
         +:+ OpenAIService.newline +:+ OpenAIService.newline +:+ text).
Proof.
  intros Hk Hj Hi Ho Ha Hne id md.
  destruct (post_testcases_generated actor key false w s getIssue api summary
              description _ Hk Hj Hi Ho eq_refl)
    as (s' & resp & g' & E & Hg & Hres & _ & _).
  destruct (Hres text usage Ha Hne) as [-> ->].
  exists s'. eexists. split; [done|]. split; [done|].
  split_and!; try done; unfold md, titled; simpl; by intros ->.
Qed.

Lemma stored_markdown_has_a_title_witness :
  ∃ s' g',
    post_testcases qa
      {| body_issueKey := Some "TES-1"; body_autoMode := false |}
      world_plain empty_store
    = Some (s', ok (Generated 1%nat "TES-1"
                      {| content := titled "TES-1" "Login form"
                                      "1. Sign in with a valid account";
                         filename := "TES-1_testcases_1.md" |}))
    ∧ generations s' !! 1%nat = Some g'
    ∧ status g' = Some "completed"
    ∧ content <$> result g'
      = Some ("# Test Cases for TES-1: Login form" +:+ OpenAIService.newline
              +:+ OpenAIService.newline +:+ "1. Sign in with a valid account").
Proof.
  destruct (stored_markdown_has_a_title qa "TES-1" world_plain empty_store
              jira_up api_plain "Login form"
              "The user signs in with email and password."
              "1. Sign in with a valid account" usage_1
              eq_refl eq_refl eq_refl eq_refl eq_refl ltac:(done))
    as (s' & g' & E & Hg & Hst & Hres & _ & _ & Hplain).
  exists s', g'. split; [exact E|]. split; [exact Hg|]. split; [exact Hst|].
  rewrite Hres. simpl. f_equal.
Defined.

(** X20: an empty completion is a failure: when JIRA gives the issue and
    the first API call answers with no text, the request is answered 500
    "Empty response from OpenAI" and the generation is stored failed, with
    no result and the error "OpenAI generation failed: Empty response from
    OpenAI". *)
Theorem empty_completion_fails actor key w s getIssue api summary description
    usage :
  Js.truthy_str key = true →
  jira w = Some getIssue → getIssue key = IssueFound summary description →
  openai w = Some api →
  api (OpenAIService.MANUAL_PROMPT (prompts w))
    (issue_context key (route_context summary description)) 0%nat
  = OpenAIService.Resolves "" usage →
  ∃ s' g',
    post_testcases actor
      {| body_issueKey := Some key; body_autoMode := false |} w s
    = Some (s', {| code := 500; sent := Failure "Empty response from OpenAI" |})
    ∧ generations s' !! next_oid (attach_project actor key (now w) s).1 = Some g'
    ∧ status g' = Some "failed" ∧ result g' = None
    ∧ error g' = Some "OpenAI generation failed: Empty response from OpenAI".
Proof.
  intros Hk Hj Hi Ho Ha.
  destruct (post_testcases_generated actor key false w s getIssue api summary
              description _ Hk Hj Hi Ho eq_refl)
    as (s' & resp & g' & E & Hg & _ & Hres & _).
  destruct (Hres usage Ha) as [-> ->].
  exists s'. eexists. by split_and!.
Qed.

Lemma empty_completion_fails_witness :
  ∃ s' g',
    post_testcases qa
      {| body_issueKey := Some "TES-1"; body_autoMode := false |}
      world_silent empty_store
    = Some (s', {| code := 500; sent := Failure "Empty response from OpenAI" |})
    ∧ generations s'
        !! next_oid (attach_project qa "TES-1" (now world_silent) empty_store).1
      = Some g'
    ∧ status g' = Some "failed" ∧ result g' = None
    ∧ error g' = Some "OpenAI generation failed: Empty response from OpenAI".
Proof.
  apply (empty_completion_fails qa "TES-1" world_silent empty_store
           jira_up api_silent "Login form"
           "The user signs in with email and password." usage_1);
    reflexivity.
Defined.

(** X21: with no binding for [AUTO_PROMPT], a request with
    [autoMode = true] never reaches the API: [generateTestCases] makes no
    call and throws "AUTO_PROMPT is not defined"; when JIRA gives the issue
    the request is answered 500 with that message and the generation is
    stored failed. *)
Theorem auto_mode_without_prompt_fails actor key w s getIssue api summary
    description :
  OpenAIService.AUTO_PROMPT (prompts w) = None →
  Js.truthy_str key = true →
  jira w = Some getIssue → getIssue key = IssueFound summary description →
  openai w = Some api →
  (∀ context,
     OpenAIService.generateTestCases (prompts w) api context key true
     = Some (0%nat, inl "AUTO_PROMPT is not defined"))
  ∧ ∃ s' g',
      post_testcases actor
        {| body_issueKey := Some key; body_autoMode := true |} w s
      = Some (s', {| code := 500; sent := Failure "AUTO_PROMPT is not defined" |})
      ∧ generations s' !! next_oid (attach_project actor key (now w) s).1
        = Some g'
      ∧ status g' = Some "failed"
      ∧ error g' = Some "OpenAI generation failed: AUTO_PROMPT is not defined".
Proof.
  intros Hp Hk Hj Hi Ho.
  assert (∀ context,
            OpenAIService.generateTestCases (prompts w) api context key true
            = Some (0%nat, inl "AUTO_PROMPT is not defined")) as Hgen
    by (intros; unfold OpenAIService.generateTestCases; by rewrite Hp).
  split; [done|].
  destruct (post_testcases_cases actor key true w s Hk)
    as [[Hj' _]|(g' & resp & Hout & E)]; [congruence|].
  rewrite E. eexists _, g'.
  assert (∀ sm cx, generate_markdown w key sm cx true
                   = Some (0%nat, inl "AUTO_PROMPT is not defined")) as Hmd
    by (intros; unfold generate_markdown; by rewrite Ho, Hgen).
  destruct Hout as [f err Hj1 Hf|f sm ds n m Hj1 Hf Hg|f sm ds n c u Hj1 Hf Hg];
    simpl in Hf; rewrite Hj in Hj1; simplify_eq; rewrite Hi in Hf; simplify_eq;
    simpl in Hg; rewrite Hmd in Hg; simplify_eq.
  split_and!; try done. rewrite lookup_with_record. by case_decide.
Qed.

Lemma auto_mode_without_prompt_fails_witness :
  (∀ context,
     OpenAIService.generateTestCases (prompts world_up) api_up context "TES-1" true
     = Some (0%nat, inl "AUTO_PROMPT is not defined"))
  ∧ ∃ s' g',
      post_testcases qa
        {| body_issueKey := Some "TES-1"; body_autoMode := true |}
        world_up empty_store
      = Some (s', {| code := 500; sent := Failure "AUTO_PROMPT is not defined" |})
      ∧ generations s'
          !! next_oid (attach_project qa "TES-1" (now world_up) empty_store).1
        = Some g'
      ∧ status g' = Some "failed"
      ∧ error g' = Some "OpenAI generation failed: AUTO_PROMPT is not defined".
Proof.
  apply (auto_mode_without_prompt_fails qa "TES-1" world_up empty_store
           jira_up api_up "Login form"
           "The user signs in with email and password."); reflexivity.
Defined.

(** ** Extras on the text extraction *)

Lemma adf_ind (P : JiraService.adf → Prop) :
  (∀ t x, P (JiraService.Node t x None)) →
  (∀ t x nodes, Forall P nodes → P (JiraService.Node t x (Some nodes))) →
  ∀ n, P n.
Proof.
  intros Hleaf Hnode. fix IH 1. intros [t x [nodes|]]; [|apply Hleaf].
  apply Hnode. induction nodes as [|n nodes IHnodes]; constructor.
  - apply IH.
  - apply IHnodes.
Qed.

Lemma join_cons sep p (rest : list string) :
  rest ≠ [] →
  JiraService.join sep (p :: rest) = p +:+ sep +:+ JiraService.join sep rest.
Proof. by destruct rest. Qed.

Lemma string_app_empty (a b : string) : a +:+ b = "" → a = "" ∧ b = "".
Proof. destruct a; [done|]. by rewrite string_app_cons. Qed.

Lemma string_app_assoc (a b c : string) : (a +:+ b) +:+ c = a +:+ b +:+ c.
Proof.
  induction a as [|x a IH]; [done|]. by rewrite !string_app_cons, IH.
Qed.

Lemma join_empty sep (parts : list string) :
  Forall (λ x, x ≠ "") parts → JiraService.join sep parts = "" → parts = [].
Proof.
  intros Hall H. destruct parts as [|p [|q rest]]; [done|..].
  - simpl in H. by inversion Hall.
  - rewrite join_cons in H by done. apply string_app_empty in H as [-> _].
    by inversion Hall.
Qed.

Lemma join_app sep (l1 l2 : list string) :
  l1 ≠ [] → l2 ≠ [] →
  JiraService.join sep (l1 ++ l2)
  = JiraService.join sep l1 +:+ sep +:+ JiraService.join sep l2.
Proof.
  intros H1 H2. induction l1 as [|p l1 IH]; [done|].
  destruct l1 as [|q l1].
  - simpl app. by rewrite join_cons.
  - change ((p :: q :: l1) ++ l2)%list with (p :: ((q :: l1) ++ l2))%list.
    rewrite !join_cons by done. rewrite IH by done.
    by rewrite !string_app_assoc.
Qed.

(** Joining the joins of the non-empty groups is joining everything. *)
Lemma join_concat sep (groups : list (list string)) :
  Forall (Forall (λ x, x ≠ "")) groups →
  JiraService.join sep
    (List.filter Js.truthy_str (List.map (JiraService.join sep) groups))
  = JiraService.join sep (concat groups)
  ∧ (List.filter Js.truthy_str (List.map (JiraService.join sep) groups) = []
     ↔ concat groups = []).
Proof.
  induction 1 as [|g groups Hg _ [IH1 IH2]]; [done|]. simpl.
  destruct (Js.truthy_str (JiraService.join sep g)) eqn:E.
  - apply truthy_str_true in E.
    assert (g ≠ []) as Hne by (by intros ->).
    split.
    + destruct (List.filter _ _) as [|r rs] eqn:Er.
      * rewrite (proj1 IH2 eq_refl), app_nil_r. done.
      * assert (concat groups ≠ []) as Hc by (intros Hc; by apply IH2 in Hc).
        rewrite join_cons by done. rewrite join_app by done. by rewrite IH1.
    + split; [done|]. intros H. by apply app_eq_nil in H as [? _].
  - apply truthy_str_false in E. apply join_empty in E as ->; [|done]. done.
Qed.

Lemma leaves_nonempty n : Forall (λ x, x ≠ "") (JiraService.leaves n).
Proof.
  induction n as [t x|t x nodes IH] using adf_ind; simpl; [constructor|].
  induction IH as [|n nodes Hn _ IHn]; simpl; [constructor|].
  apply Forall_app. split; [|done].
  destruct (JiraService.is_text_node n) eqn:E; [|done].
  constructor; [|constructor].
  unfold JiraService.is_text_node in E.
  destruct (JiraService.node_type n), (JiraService.node_text n); try done.
  apply andb_true_iff in E as [_ E]. by apply truthy_str_true.
Qed.

(** X22: the text [extractTextFromADF] gives for a document is its text
    leaves, in document order and whatever their nesting, joined by single
    spaces; nodes without text contribute nothing, not even a space. *)
Theorem extractTextFromADF_flattens n :
  JiraService.extractTextFromADF n
  = JiraService.join " " (JiraService.leaves n).
Proof.
  induction n as [t x|t x nodes IH] using adf_ind; [done|].
  simpl.
  set (child := λ node,
         if JiraService.is_text_node node
         then [default "" (JiraService.node_text node)]
         else JiraService.leaves node).
  assert (List.map
            (λ node,
               if JiraService.is_text_node node
               then default "" (JiraService.node_text node)
               else match JiraService.node_content node with
                    | Some _ => JiraService.extractTextFromADF node
                    | None => ""
                    end) nodes
          = List.map (JiraService.join " ") (List.map child nodes)) as ->.
  { induction IH as [|m nodes Hm _ IHm]; simpl; [done|]. f_equal; [|done].
    unfold child. destruct (JiraService.is_text_node m); [done|].
    destruct m as [? ? [c|]]; simpl; [|done]. exact Hm. }
  rewrite flat_map_concat_map.
  apply join_concat. apply Forall_forall. intros g Hg.
  apply list_elem_of_In, in_map_iff in Hg as (m & <- & _). unfold child.
  destruct (JiraService.is_text_node m) eqn:E; [|apply leaves_nonempty].
  constructor; [|constructor].
  unfold JiraService.is_text_node in E.
  destruct (JiraService.node_type m), (JiraService.node_text m); try done.
  apply andb_true_iff in E as [_ E]. by apply truthy_str_true.
Qed.

(** ** Extras on the authentication middleware *)

Lemma prefix_slice (p s : string) :
  String.prefix p s = true → s = p +:+ Auth.slice (String.length p) s.
Proof.
  revert s. induction p as [|c p IH]; intros s; [done|].
  destruct s as [|d s]; [done|].
  change (String.prefix (String c p) (String d s))
    with (if Ascii.ascii_dec c d then String.prefix p s else false).
  destruct (Ascii.ascii_dec c d) as [->|]; [|done].
  intros H. rewrite string_app_cons. simpl. f_equal. by apply IH.
Qed.

Lemma prefix_app (p t : string) : String.prefix p (p +:+ t) = true.
Proof.
  induction p as [|c p IH]; [by destruct t|].
  rewrite string_app_cons.
  change (String.prefix (String c p) (String c (p +:+ t)))
    with (if Ascii.ascii_dec c c then String.prefix p (p +:+ t) else false).
  by destruct (Ascii.ascii_dec c c).
Qed.

Lemma slice_app (p t : string) : Auth.slice (String.length p) (p +:+ t) = t.
Proof. induction p as [|c p IH]; [done|]. by rewrite string_app_cons. Qed.

Lemma requireAuth_bearer token verify :
  Auth.requireAuth (Some ("Bearer " +:+ token)) verify =
  if Js.truthy_str token then
    match verify token with
    | Some p => inr {| Auth.userId := Auth.sub p; Auth.u_email := Auth.p_email p;
                       Auth.u_name := Auth.p_name p |}
    | None => inl {| code := 401; sent := Failure "Invalid authorization token" |}
    end
  else inl {| code := 401; sent := Failure "Authorization token missing" |}.
Proof.
  unfold Auth.requireAuth, Js.startsWith.
  change (default "" (Some ("Bearer " +:+ token))) with ("Bearer " +:+ token).
  rewrite (prefix_app "Bearer " token).
  change 7%nat with (String.length "Bearer "). rewrite slice_app.
  by destruct (Js.truthy_str token).
Qed.

Lemma requireAuth_no_bearer authorization verify :
  (∀ token, authorization ≠ Some ("Bearer " +:+ token)) →
  Auth.requireAuth authorization verify
  = inl {| code := 401; sent := Failure "Authorization token missing" |}.
Proof.
  intros Hno. unfold Auth.requireAuth, Js.startsWith.
  destruct (String.prefix "Bearer " (default "" authorization)) eqn:Hp; [|done].
  apply prefix_slice in Hp. destruct authorization as [h|]; [|done].
  exfalso. apply (Hno (Auth.slice (String.length "Bearer ") h)).
  f_equal. exact Hp.
Qed.

(** X23: [requireAuth] lets a request through exactly when the
    authorization header is "Bearer " followed by a non-empty token that
    [jwt.verify] accepts, and then [req.user] carries the token's [sub],
    [email] and [name]. Every other request is answered 401:
    "Authorization token missing" when there is no such header or the token
    is empty, "Invalid authorization token" when the token is refused. *)
Theorem requireAuth_spec authorization verify :
  (∀ u, Auth.requireAuth authorization verify = inr u ↔
     ∃ token p,
       authorization = Some ("Bearer " +:+ token) ∧ token ≠ ""
       ∧ verify token = Some p
       ∧ u = {| Auth.userId := Auth.sub p; Auth.u_email := Auth.p_email p;
                Auth.u_name := Auth.p_name p |})
  ∧ (∀ r, Auth.requireAuth authorization verify = inl r →
       code r = 401%nat
       ∧ ((∃ token, authorization = Some ("Bearer " +:+ token) ∧ token ≠ ""
                    ∧ verify token = None) →
          sent r = Failure "Invalid authorization token")
       ∧ (¬ (∃ token, authorization = Some ("Bearer " +:+ token) ∧ token ≠ ""
                      ∧ verify token = None) →
          sent r = Failure "Authorization token missing")).
Proof.
  assert ((∃ t, authorization = Some ("Bearer " +:+ t))
          ∨ (∀ token, authorization ≠ Some ("Bearer " +:+ token)))
    as [[t ->]|Hno].
  { destruct (String.prefix "Bearer " (default "" authorization)) eqn:Hp.
    - left. apply prefix_slice in Hp. destruct authorization as [h|]; [|done].
      eexists. f_equal. exact Hp.
    - right. intros token ->.
      change (default "" (Some ("Bearer " +:+ token)))
        with ("Bearer " +:+ token) in Hp.
      by rewrite (prefix_app "Bearer " token) in Hp. }
  - rewrite requireAuth_bearer.
    assert (∀ token, Some ("Bearer " +:+ t) = Some ("Bearer " +:+ token) →
                     token = t) as Huniq.
    { intros token [= E]. symmetry. exact E. }
    destruct (Js.truthy_str t) eqn:Ht.
    + apply truthy_str_true in Ht. destruct (verify t) as [p|] eqn:Hv.
      * split.
        -- intros u. split.
           ++ intros [= <-]. by exists t, p.
           ++ intros (token & p' & E & _ & Hv' & ->).
              apply Huniq in E as ->. congruence.
        -- intros r [=].
      * split.
        -- intros u. split; [done|].
           intros (token & p' & E & _ & Hv' & _).
           apply Huniq in E as ->. congruence.
        -- intros r [= <-]. split; [done|]. split; [done|].
           intros Hnot. exfalso. apply Hnot. by exists t.
    + apply truthy_str_false in Ht. split.
      * intros u. split; [done|].
        intros (token & p' & E & Hne & _). apply Huniq in E as ->. done.
      * intros r [= <-]. split; [done|]. split; [|done].
        intros (token & E & Hne & _). apply Huniq in E as ->. done.
  - rewrite requireAuth_no_bearer by done.
    split.
    + intros u. split; [done|]. intros (token & p & E & _). by apply Hno in E.
    + intros r [= <-]. split; [done|]. split; [|done].
      intros (token & E & _). by apply Hno in E.
Qed.

(** ** Extras on the listing route *)

Lemma elem_of_find_generations f s (id : oid) g :
  (id, g) ∈ find_generations f s
  ↔ generations s !! id = Some g ∧ matches f g = true.
Proof.
  unfold find_generations.
  rewrite list_elem_of_In, filter_In, <- list_elem_of_In, elem_of_map_to_list.
  done.
Qed.

Lemma find_generations_NoDup f s : NoDup (find_generations f s).*1.
Proof.
  unfold find_generations.
  eapply sublist_NoDup; [apply (NoDup_fst_map_to_list (generations s))|].
  apply fmap_sublist.
  induction (map_to_list (generations s)) as [|kv l IH]; simpl; [constructor|].
  destruct (matches f kv.2); by constructor.
Qed.

Lemma elem_of_sort_newest_first kv l : kv ∈ sort_newest_first l ↔ kv ∈ l.
Proof. unfold sort_newest_first. by rewrite merge_sort_Permutation. Qed.

Lemma newest_first_total : Total newest_first.
Proof. intros a b. unfold newest_first. lia. Qed.

Lemma newest_first_trans : Transitive newest_first.
Proof. intros a b c. unfold newest_first. lia. Qed.

Lemma StronglySorted_sublist {A} (R : relation A) (l k : list A) :
  l `sublist_of` k → StronglySorted R k → StronglySorted R l.
Proof.
  induction 1 as [|x l k Hs IH|x l k Hs IH]; intros Hk; [done|..].
  - inversion Hk as [|? ? Hk' Hall]; subst. constructor; [by apply IH|].
    eapply Forall_forall. intros y Hy. eapply Forall_forall in Hall; [done|].
    by eapply elem_of_sublist.
  - inversion Hk; subst. by apply IH.
Qed.

Lemma ceil_div_bounds a b :
  (0 < b → (Math.ceil_div a b - 1) * b < a ≤ Math.ceil_div a b * b)%Z.
Proof.
  intros Hb. unfold Math.ceil_div.
  pose proof (Z.div_mod (- a) b ltac:(lia)).
  pose proof (Z.mod_pos_bound (- a) b Hb). nia.
Qed.

Lemma list_filter_visible actor filterType g :
  matches (list_filter actor filterType) g = true →
  (email g = actor ∨ (published g = true ∧ status g = Some "completed"))
  ∧ (filterType = "mine" → email g = actor)
  ∧ (filterType = "published" →
     published g = true ∧ status g = Some "completed").
Proof.
  unfold list_filter.
  destruct (String.eqb_spec filterType "mine") as [->|Hm];
    [|destruct (String.eqb_spec filterType "published") as [->|Hp]]; simpl.
  - rewrite String.eqb_eq. intros ->. split; [by left|]. by split.
  - rewrite andb_true_iff, is_completed_status. intros H.
    split; [by right|]. by split.
  - rewrite orb_true_iff, andb_true_iff, is_completed_status, String.eqb_eq.
    intros H. split; [tauto|]. by split.
Qed.

Lemma get_list_inv actor q s l :
  get_list actor q s = Some l →
  ∃ page limit : Z,
    (1 ≤ page)%Z ∧ (1 ≤ limit ≤ 50)%Z
    ∧ l_generations l
      = take (Z.to_nat limit)
          (drop (Z.to_nat ((page - 1) * limit))
             (sort_newest_first
                (find_generations
                   (list_filter actor (Js.str_or (default "" (q_filter q)) "all"))
                   s)))
    ∧ l_pagination l
      = {| pg_page := page; pg_limit := limit;
           pg_total :=
             Z.of_nat
               (length
                  (find_generations
                     (list_filter actor
                        (Js.str_or (default "" (q_filter q)) "all")) s));
           pg_pages :=
             Math.ceil_div
               (Z.of_nat
                  (length
                     (find_generations
                        (list_filter actor
                           (Js.str_or (default "" (q_filter q)) "all")) s)))
               limit |}.
Proof.
  unfold get_list.
  destruct (parseInt (Js.str_or (default "" (q_page q)) "1")) as [p|];
    [|done].
  destruct (parseInt (Js.str_or (default "" (q_limit q)) "10")) as [n|];
    [|done].
  simpl. intros [= <-]. exists (Z.max 1 p), (Z.min 50 (Z.max 1 n)).
  split_and!; simpl; try done; lia.
Qed.

Lemma listing_visible actor q s l :
  get_list actor q s = Some l →
  Forall
    (λ kv,
       generations s !! kv.1 = Some kv.2
       ∧ (email kv.2 = actor
          ∨ (published kv.2 = true ∧ status kv.2 = Some "completed"))
       ∧ (q_filter q = Some "mine" → email kv.2 = actor)
       ∧ (q_filter q = Some "published" →
          published kv.2 = true ∧ status kv.2 = Some "completed"))
    (l_generations l)
  ∧ NoDup (l_generations l).*1.
Proof.
  intros (page & limit & _ & _ & -> & _)%get_list_inv.
  set (f := list_filter actor _).
  split.
  - apply Forall_forall. intros [id g] Hin.
    eapply elem_of_sublist in Hin; [|apply sublist_take].
    eapply elem_of_sublist in Hin; [|apply sublist_drop].
    apply elem_of_sort_newest_first, elem_of_find_generations in Hin
      as [Hg Hm].
    apply list_filter_visible in Hm as (Hv & Hmine & Hpub).
    simpl. split_and!; [done|done|..].
    + intros E. apply Hmine. by rewrite E.
    + intros E. apply Hpub. by rewrite E.
  - eapply sublist_NoDup;
      [|apply fmap_sublist; etrans; [apply sublist_take|apply sublist_drop]].
    unfold sort_newest_first. rewrite merge_sort_Permutation.
    apply find_generations_NoDup.
Qed.

(** X24: a listing shows only what its caller may see. Every document
    listed is stored under the id it is listed with and is the caller's own
    or published and completed; with [filter=mine] all are the caller's
    own, with [filter=published] all are published and completed, whoever
    owns them. No document is listed twice. *)
Theorem listing_shows_only_visible actor q s l :
  get_list actor q s = Some l →
  Forall
    (λ kv,
       generations s !! kv.1 = Some kv.2
       ∧ (email kv.2 = actor
          ∨ (published kv.2 = true ∧ status kv.2 = Some "completed"))
       ∧ (q_filter q = Some "mine" → email kv.2 = actor)
       ∧ (q_filter q = Some "published" →
          published kv.2 = true ∧ status kv.2 = Some "completed"))
    (l_generations l)
  ∧ NoDup (l_generations l).*1.
Proof. apply listing_visible. Qed.

Lemma listing_shows_only_visible_witness :
  ∃ l, get_list qa first_page store_shared = Some l
       ∧ (l_generations l).*1 = [3%nat; 1%nat]
       ∧ Forall
           (λ kv,
              generations store_shared !! kv.1 = Some kv.2
              ∧ (email kv.2 = qa
                 ∨ (published kv.2 = true ∧ status kv.2 = Some "completed"))
              ∧ (q_filter first_page = Some "mine" → email kv.2 = qa)
              ∧ (q_filter first_page = Some "published" →
                 published kv.2 = true ∧ status kv.2 = Some "completed"))
           (l_generations l)
       ∧ NoDup (l_generations l).*1.
Proof.
  eexists. split; [vm_compute; reflexivity|]. split; [reflexivity|].
  apply (listing_shows_only_visible qa first_page store_shared).
  vm_compute. reflexivity.
Defined.

(** X25: the paging numbers of a listing, for a page number and a
    collection within the range where JavaScript's arithmetic is exact.
    Without [page] and [limit] the route answers page 1 with limit 10. In
    every answer the page is at least 1 and the limit between 1 and 50;
    [pages] is the least number of pages of that limit that hold [total]
    documents; the page shown holds [limit] documents, or what is left of
    [total] after the pages before it when that is less (nothing beyond
    the last page); and the documents come newest first. *)
Theorem listing_pagination actor q s :
  exact_paging q s →
  (q_page q = None → q_limit q = None →
   ∃ l, get_list actor q s = Some l
        ∧ pg_page (l_pagination l) = 1%Z ∧ pg_limit (l_pagination l) = 10%Z)
  ∧ ∀ l, get_list actor q s = Some l →
      let p := l_pagination l in
      (1 ≤ pg_page p)%Z ∧ (1 ≤ pg_limit p ≤ 50)%Z
      ∧ (0 ≤ pg_total p)%Z
      ∧ ((pg_pages p - 1) * pg_limit p < pg_total p ≤ pg_pages p * pg_limit p)%Z
      ∧ Z.of_nat (length (l_generations l))
        = Z.min (pg_limit p)
            (Z.max 0 (pg_total p - (pg_page p - 1) * pg_limit p))
      ∧ StronglySorted newest_first (l_generations l).
Proof.
  intros _. split.
  { intros Hp Hl. unfold get_list. rewrite Hp, Hl. by eexists. }
  intros l (page & limit & Hp & Hl & -> & ->)%get_list_inv. simpl.
  set (f := list_filter actor _).
  split_and!; try lia.
  - apply ceil_div_bounds. lia.
  - apply ceil_div_bounds. lia.
  - rewrite length_take, length_drop. unfold sort_newest_first.
    rewrite merge_sort_Permutation. nia.
  - eapply StronglySorted_sublist;
      [etrans; [apply sublist_take|apply sublist_drop]|].
    apply StronglySorted_merge_sort;
      [exact newest_first_trans|exact newest_first_total].
Qed.

Lemma listing_pagination_witness :
  exact_paging
    {| q_page := Some "2"; q_limit := Some "1"; q_filter := Some "mine" |}
    store_shared
  ∧ ∃ l, get_list guest
         {| q_page := Some "2"; q_limit := Some "1"; q_filter := Some "mine" |}
         store_shared = Some l
       ∧ (l_generations l).*1 = [3%nat]
       ∧ l_pagination l
         = {| pg_page := 2; pg_limit := 1; pg_total := 2; pg_pages := 2 |}
       ∧ Z.of_nat (length (l_generations l))
         = Z.min (pg_limit (l_pagination l))
             (Z.max 0
                (pg_total (l_pagination l)
                 - (pg_page (l_pagination l) - 1) * pg_limit (l_pagination l))).
Proof.
  assert (exact_paging
            {| q_page := Some "2"; q_limit := Some "1";
               q_filter := Some "mine" |} store_shared) as Hexact.
  { split.
    - intros p [= <-]. reflexivity.
    - vm_compute. reflexivity. }
  split; [exact Hexact|].
  eexists. split; [vm_compute; reflexivity|].
  split; [reflexivity|]. split; [reflexivity|].
  apply (listing_pagination guest
           {| q_page := Some "2"; q_limit := Some "1"; q_filter := Some "mine" |}
           store_shared Hexact).
  vm_compute. reflexivity.
Defined.

(** Every natural number is read back by [parseInt] from some numeral. *)
Lemma digits_value_snoc acc s d :
  chars_all Js.is_digit s = true → Js.is_digit d = true →
  digits_value acc (s +:+ String d "")
  = (10 * digits_value acc s + Z.of_N (Js.code d - 48))%Z.
Proof.
  revert acc. induction s as [|c s IH]; intros acc Hs Hd.
  - change ("" +:+ String d "") with (String d ""). simpl. by rewrite Hd.
  - simpl in Hs. apply andb_true_iff in Hs as [Hc Hs].
    rewrite string_app_cons. simpl. rewrite Hc. by apply IH.
Qed.

Lemma chars_all_snoc f s d :
  chars_all f (s +:+ String d "") = chars_all f s && f d.
Proof.
  induction s as [|c s IH].
  - change ("" +:+ String d "") with (String d ""). simpl.
    by rewrite andb_true_r.
  - rewrite string_app_cons. simpl. by rewrite IH, andb_assoc.
Qed.

Lemma digit_char (r : Z) :
  (0 ≤ r < 10)%Z →
  ∃ d, Js.is_digit d = true ∧ Z.of_N (Js.code d - 48) = r.
Proof.
  intros Hr.
  assert (r = 0 ∨ r = 1 ∨ r = 2 ∨ r = 3 ∨ r = 4 ∨ r = 5 ∨ r = 6 ∨ r = 7
          ∨ r = 8 ∨ r = 9)%Z as Hc by lia.
  destruct Hc as [->|[->|[->|[->|[->|[->|[->|[->|[->| ->]]]]]]]]].
  - by exists "0"%char.
  - by exists "1"%char.
  - by exists "2"%char.
  - by exists "3"%char.
  - by exists "4"%char.
  - by exists "5"%char.
  - by exists "6"%char.
  - by exists "7"%char.
  - by exists "8"%char.
  - by exists "9"%char.
Qed.

Lemma numeral_exists (n : Z) :
  (0 ≤ n)%Z →
  ∃ s, s ≠ "" ∧ chars_all Js.is_digit s = true ∧ digits_value 0 s = n.
Proof.
  intros Hn. revert n Hn Hn. apply (Z_lt_induction
    (λ n, (0 ≤ n)%Z →
          ∃ s, s ≠ "" ∧ chars_all Js.is_digit s = true ∧ digits_value 0 s = n)).
  intros n IH Hn.
  destruct (decide (n < 10)%Z) as [Hlt|Hge].
  - destruct (digit_char n ltac:(lia)) as (d & Hd & Hv).
    exists (String d ""). simpl. rewrite Hd. split_and!; [done|done|].
    simpl. lia.
  - destruct (IH (n / 10)%Z) as (s & Hne & Hs & Hv).
    { pose proof (Z.div_lt_upper_bound n 10 n).
      pose proof (Z.div_pos n 10). lia. }
    { apply Z.div_pos; lia. }
    destruct (digit_char (n mod 10)%Z) as (d & Hd & Hdv).
    { apply Z.mod_pos_bound. lia. }
    exists (s +:+ String d ""). split_and!.
    + destruct s; [done|]. by rewrite string_app_cons.
    + by rewrite chars_all_snoc, Hs, Hd.
    + rewrite digits_value_snoc, Hv, Hdv by done.
      pose proof (Z.div_mod n 10). lia.
Qed.

Lemma parseInt_numeral s :
  s ≠ "" → chars_all Js.is_digit s = true →
  parseInt s = Some (digits_value 0 s).
Proof.
  destruct s as [|c s]; [done|]. intros _ Hs. simpl in Hs.
  apply andb_true_iff in Hs as [Hc _].
  unfold parseInt.
  assert (Js.is_whitespace c = false ∧ c ≠ "-"%char ∧ c ≠ "+"%char)
    as (Hw & Hm & Hp).
  { destruct c as [[] [] [] [] [] [] [] []]; try discriminate Hc; done. }
  cbn [Js.trimStart]. rewrite Hw.
  destruct c as [[] [] [] [] [] [] [] []]; try discriminate Hc; try done.
  all: cbv beta iota zeta; rewrite Hc; f_equal; apply Z.mul_1_l.
Qed.

Lemma parseInt_onto (n : Z) :
  (0 ≤ n)%Z → ∃ s, Js.truthy_str s = true ∧ parseInt s = Some n.
Proof.
  intros (s & Hne & Hs & <-)%numeral_exists. exists s.
  split; [by apply truthy_str_true|by apply parseInt_numeral].
Qed.

(** A document the query matches is on some page of one. *)
Lemma get_list_reaches actor filterType s (id : oid) g :
  generations s !! id = Some g →
  matches (list_filter actor (Js.str_or (default "" filterType) "all")) g
  = true →
  ∃ page l,
    get_list actor
      {| q_page := Some page; q_limit := Some "1"; q_filter := filterType |} s
    = Some l
    ∧ l_generations l = [(id, g)].
Proof.
  intros Hg Hm.
  assert ((id, g) ∈ sort_newest_first
            (find_generations
               (list_filter actor (Js.str_or (default "" filterType) "all")) s))
    as [i Hi]%list_elem_of_lookup_1
    by by apply elem_of_sort_newest_first, elem_of_find_generations.
  destruct (parseInt_onto (Z.of_nat i + 1)) as (page & Hne & Hpage); [lia|].
  exists page. eexists. unfold get_list. simpl.
  unfold Js.str_or at 1. rewrite Hne, Hpage.
  change (parseInt (Js.str_or "1" "10")) with (Some 1%Z). simpl.
  split; [reflexivity|]. simpl.
  match goal with
  | |- take ?a (drop ?b _) = _ =>
      replace a with 1%nat by lia; replace b with i by lia
  end.
  rewrite (drop_S _ _ _ Hi). done.
Qed.

(** X26: the listing and the view route agree on what is hidden. A
    generation appears on some page of the caller's default listing
    exactly when the caller's view of it is not answered 404 (it is
    answered 200, or 400 for the caller's own generation that is not
    completed); it appears on some page of the published listing exactly
    when every viewer's view of it is answered 200. *)
Theorem listing_agrees_with_view actor (id : oid) s :
  ((∃ q l g, q_filter q = None ∧ get_list actor q s = Some l
             ∧ (id, g) ∈ l_generations l)
   ↔ code (get_view actor id s) ≠ 404%nat)
  ∧ ((∃ q l g, q_filter q = Some "published" ∧ get_list actor q s = Some l
               ∧ (id, g) ∈ l_generations l)
     ↔ ∀ viewer, code (get_view viewer id s) = 200%nat).
Proof.
  split; split.
  - intros (q & l & g & Hf & Hl & Hin).
    destruct (listing_visible actor q s l Hl) as [Hall _].
    eapply Forall_forall in Hall as (Hg & Hv & _); [|exact Hin].
    simpl in Hg, Hv. unfold get_view, findById. rewrite Hg.
    assert (isOwner actor g || isPublishedAndCompleted g = true) as Hvis.
    { unfold isOwner, isPublishedAndCompleted.
      rewrite orb_true_iff, andb_true_iff, String.eqb_eq, is_completed_status.
      done. }
    destruct (isOwner actor g), (isPublishedAndCompleted g); try done;
      simpl; by destruct (is_completed g).
  - intros Hv. unfold get_view, findById in Hv.
    destruct (generations s !! id) as [g|] eqn:Hg; [|done].
    destruct (get_list_reaches actor None s id g Hg) as (page & l & Hl & Hin).
    { unfold list_filter. simpl. unfold isOwner, isPublishedAndCompleted in Hv.
      by destruct (String.eqb (email g) actor), (published g && is_completed g). }
    eexists _, l, g. split_and!; [|exact Hl|]; [done|].
    rewrite Hin. by apply list_elem_of_singleton.
  - intros (q & l & g & Hf & Hl & Hin) viewer.
    destruct (listing_visible actor q s l Hl) as [Hall _].
    eapply Forall_forall in Hall as (Hg & _ & _ & Hp); [|exact Hin].
    simpl in Hg, Hp. destruct (Hp Hf) as [Hpub Hst].
    unfold get_view, findById. rewrite Hg.
    unfold isPublishedAndCompleted.
    rewrite (proj2 (is_completed_status g) Hst), Hpub. simpl.
    by rewrite andb_false_r.
  - intros Hv.
    destruct (generations s !! id) as [g|] eqn:Hg;
      [|specialize (Hv actor); unfold get_view, findById in Hv;
        by rewrite Hg in Hv].
    destruct (get_list_reaches actor (Some "published") s id g Hg)
      as (page & l & Hl & Hin).
    { unfold list_filter. simpl.
      specialize (Hv (String "!" (email g))).
      unfold get_view, findById in Hv. rewrite Hg in Hv.
      unfold isOwner, isPublishedAndCompleted in Hv.
      assert (String.eqb (email g) (String "!" (email g)) = false) as Hne.
      { apply String.eqb_neq. intros E.
        apply (f_equal String.length) in E. simpl in E. lia. }
      rewrite Hne in Hv. simpl in Hv.
      by destruct (published g && is_completed g). }
    eexists _, l, g. split_and!; [|exact Hl|]; [done|].
    rewrite Hin. by apply list_elem_of_singleton.
Qed.

(** ** Extras on the JIRA service and the prelight route *)

Lemma chars_all_app f (a b : string) :
  chars_all f (a +:+ b) = chars_all f a && chars_all f b.
Proof.
  induction a as [|c a IH]; [done|].
  rewrite string_app_cons. simpl. by rewrite IH, andb_assoc.
Qed.

Lemma span_spec f s :
  s = (JiraService.span f s).1 +:+ (JiraService.span f s).2
  ∧ chars_all f (JiraService.span f s).1 = true
  ∧ match (JiraService.span f s).2 with
    | String c _ => f c = false
    | EmptyString => True
    end.
Proof.
  induction s as [|c s (IH1 & IH2 & IH3)]; simpl; [done|].
  destruct (f c) eqn:Hc; [|done].
  destruct (JiraService.span f s) as [p r]. simpl in *.
  rewrite string_app_cons, Hc. by rewrite <- IH1.
Qed.

Lemma span_app f (p r : string) :
  chars_all f p = true →
  match r with String c _ => f c = false | EmptyString => True end →
  JiraService.span f (p +:+ r) = (p, r).
Proof.
  intros Hp Hr. induction p as [|c p IH].
  - change ("" +:+ r) with r. destruct r as [|c r]; simpl; [done|].
    by rewrite Hr.
  - simpl in Hp. apply andb_true_iff in Hp as [Hc Hp].
    rewrite string_app_cons. simpl. by rewrite Hc, IH.
Qed.

(** The key test accepts letters, a dash, digits, and nothing else. *)
Lemma is_issue_key_spec s :
  JiraService.is_issue_key s = true
  ↔ ∃ letters digits,
      s = letters +:+ "-" +:+ digits ∧ letters ≠ "" ∧ digits ≠ ""
      ∧ chars_all Js.is_upper letters = true
      ∧ chars_all Js.is_digit digits = true.
Proof.
  unfold JiraService.is_issue_key. split.
  - destruct (span_spec Js.is_upper s) as (Hs & Hp & _).
    destruct (JiraService.span Js.is_upper s) as [p r]. simpl in *.
    destruct p as [|c p]; [done|]. destruct r as [|d r]; [done|].
    destruct (Ascii.eqb_spec d "-") as [->|Hd].
    + rewrite andb_true_iff, truthy_str_true. intros [Hne Hdig].
      by exists (String c p), r.
    + destruct d as [[] [] [] [] [] [] [] []]; done.
  - intros (letters & digits & -> & Hl & Hd & Hls & Hds).
    rewrite (span_app Js.is_upper letters ("-" +:+ digits)) by done.
    destruct letters; [done|].
    change ("-" +:+ digits) with (String "-" digits). cbv beta iota.
    rewrite Hds, andb_true_r. by apply truthy_str_true.
Qed.

Lemma key_chars_fixed c :
  Js.is_upper c || Js.is_digit c || Ascii.eqb c "-" = true →
  JiraService.upper_units c = String c ""
  ∧ Js.is_whitespace c = false.
Proof. destruct c as [[] [] [] [] [] [] [] []]; try discriminate; done. Qed.

Lemma normalize_fixed s :
  chars_all (λ c, Js.is_upper c || Js.is_digit c || Ascii.eqb c "-") s = true →
  JiraService.normalize s = s.
Proof.
  intros H. unfold JiraService.normalize. rewrite trim_id.
  - induction s as [|c s IH]; [done|]. simpl in H.
    apply andb_true_iff in H as [Hc Hs]. simpl.
    rewrite (proj1 (key_chars_fixed c Hc)), IH by done. done.
  - eapply chars_all_impl; [|exact H]. intros c Hc. simpl in Hc.
    by rewrite (proj2 (key_chars_fixed c Hc)).
Qed.

Lemma issue_key_chars s :
  JiraService.is_issue_key s = true →
  s ≠ ""
  ∧ chars_all (λ c, Js.is_upper c || Js.is_digit c || Ascii.eqb c "-") s = true.
Proof.
  intros (letters & digits & -> & Hl & Hd & Hls & Hds)%is_issue_key_spec.
  split; [destruct letters; [done|by rewrite string_app_cons]|].
  rewrite chars_all_app. change ("-" +:+ digits) with (String "-" digits).
  simpl. apply andb_true_iff. split.
  - eapply chars_all_impl; [|exact Hls]. intros c Hc. simpl in Hc.
    by rewrite Hc.
  - eapply chars_all_impl; [|exact Hds]. intros c Hc. simpl in Hc.
    rewrite Hc. by rewrite orb_true_r.
Qed.

(** X27: [getIssue] reads an issue key after trimming and upper-casing
    it. The key passes exactly when it then is one or more letters A-Z, a
    dash, and one or more digits. A key that does not pass is answered
    "Invalid issue key format" with the key as it was given, whatever JIRA
    would say; for one that passes, the normalized key is its own normal
    form, [getIssue] answers as it does for the normalized key, and the
    answer depends on JIRA only through the response to the one URL of
    that key. *)
Theorem getIssue_key_format baseUrl fetch issueKey :
  let key := JiraService.normalize issueKey in
  (JiraService.is_issue_key key = true
   ↔ ∃ letters digits,
       key = letters +:+ "-" +:+ digits ∧ letters ≠ "" ∧ digits ≠ ""
       ∧ chars_all Js.is_upper letters = true
       ∧ chars_all Js.is_digit digits = true)
  ∧ (JiraService.is_issue_key key = false →
     JiraService.getIssue baseUrl fetch issueKey
     = JiraService.Failed
         ("Invalid issue key format: " +:+ JiraService.quote +:+ issueKey
          +:+ JiraService.quote
          +:+ ". Expected format: PROJECT-NUMBER (e.g., TES-1, KAN-123)."))
  ∧ (JiraService.is_issue_key key = true →
     JiraService.normalize key = key
     ∧ JiraService.getIssue baseUrl fetch issueKey
       = JiraService.getIssue baseUrl fetch key
     ∧ ∀ fetch',
         fetch' (JiraService.url baseUrl key)
         = fetch (JiraService.url baseUrl key) →
         JiraService.getIssue baseUrl fetch' issueKey
         = JiraService.getIssue baseUrl fetch issueKey).
Proof.
  intros key. split; [apply is_issue_key_spec|]. split.
  - intros Hk. unfold JiraService.getIssue. fold key. by rewrite Hk.
  - intros Hk.
    assert (JiraService.normalize key = key) as Hfix
      by (apply normalize_fixed; by apply issue_key_chars).
    split; [done|]. split.
    + unfold JiraService.getIssue. fold key. by rewrite Hfix, Hk.
    + intros fetch' Hf. unfold JiraService.getIssue. fold key.
      by rewrite Hk, Hf.
Qed.

(** *** Substring search *)

Lemma prefix_cons c p d s :
  String.prefix (String c p) (String d s)
  = if Ascii.ascii_dec c d then String.prefix p s else false.
Proof. reflexivity. Qed.

Lemma prefix_nil_r w : String.prefix w "" = true → w = "".
Proof. by destruct w. Qed.

Lemma prefix_app_l w (a b : string) :
  String.prefix w a = true → String.prefix w (a +:+ b) = true.
Proof.
  revert a. induction w as [|c w IH]; intros a H; [by destruct (a +:+ b)|].
  destruct a as [|d a]; [done|]. rewrite string_app_cons.
  rewrite prefix_cons in *. destruct (Ascii.ascii_dec c d); [|done].
  by apply IH.
Qed.

Lemma includes_app_l (a b w : string) :
  includes a w = true → includes (a +:+ b) w = true.
Proof.
  induction a as [|c a IH].
  - change ("" +:+ b) with b. cbn [includes]. rewrite orb_false_r.
    intros ->%prefix_nil_r. by destruct b.
  - rewrite string_app_cons. cbn [includes].
    intros [H|H]%orb_true_iff; apply orb_true_iff.
    + left. by apply (prefix_app_l w (String c a) b).
    + right. by apply IH.
Qed.

Lemma includes_app_r (a b w : string) :
  includes b w = true → includes (a +:+ b) w = true.
Proof.
  intros H. induction a as [|c a IH]; [done|].
  rewrite string_app_cons. cbn [includes]. by rewrite IH, orb_true_r.
Qed.

(** A word that does not hold the code unit [q] is not found across it. *)
Lemma prefix_sep w (a b : string) q :
  chars_all (λ c, negb (Ascii.eqb c q)) w = true →
  String.prefix w (a +:+ String q b) = String.prefix w a.
Proof.
  revert a. induction w as [|c w IH]; intros a Hw.
  - by destruct a, (_ +:+ _).
  - simpl in Hw. apply andb_true_iff in Hw as [Hc Hw].
    destruct a as [|d a].
    + change ("" +:+ String q b) with (String q b). rewrite prefix_cons.
      destruct (Ascii.ascii_dec c q) as [->|]; [|done].
      by rewrite Ascii.eqb_refl in Hc.
    + rewrite string_app_cons, !prefix_cons.
      destruct (Ascii.ascii_dec c d); [|done]. by apply IH.
Qed.

Lemma includes_nil w : includes "" w = String.eqb w "".
Proof. by destruct w. Qed.

Lemma includes_sep w (a b : string) q :
  chars_all (λ c, negb (Ascii.eqb c q)) w = true →
  includes (a +:+ String q b) w = includes a w || includes b w.
Proof.
  intros Hw. induction a as [|d a IH].
  - pose proof (prefix_sep w "" b q Hw) as Hp.
    change ("" +:+ String q b) with (String q b) in *. cbn [includes].
    rewrite Hp. by rewrite orb_false_r.
  - pose proof (prefix_sep w (String d a) b q Hw) as Hp.
    rewrite string_app_cons in *. cbn [includes].
    rewrite IH, Hp. by rewrite orb_assoc.
Qed.

Lemma includes_empty_word s : includes s "" = true.
Proof. by destruct s. Qed.

Lemma includes_skip w (k b : string) :
  w ≠ "" →
  chars_all (λ q, chars_all (λ c, negb (Ascii.eqb c q)) w) k = true →
  includes (k +:+ b) w = includes b w.
Proof.
  intros Hw Hk. induction k as [|q k IH]; [done|].
  simpl in Hk. apply andb_true_iff in Hk as [Hq Hk].
  pose proof (includes_sep w "" (k +:+ b) q Hq) as H.
  change ("" +:+ String q (k +:+ b)) with (String q k +:+ b) in H.
  rewrite H, includes_nil, IH by done.
  by destruct (String.eqb_spec w "").
Qed.

(** A non-empty run of code units none of which is in the word splits the
    search. *)
Lemma includes_around w (a k b : string) :
  k ≠ "" →
  chars_all (λ q, chars_all (λ c, negb (Ascii.eqb c q)) w) k = true →
  includes (a +:+ k +:+ b) w = includes a w || includes b w.
Proof.
  intros Hne Hk.
  destruct (decide (w = "")) as [->|Hw];
    [by rewrite !includes_empty_word|].
  destruct k as [|q k]; [done|clear Hne].
  simpl in Hk. apply andb_true_iff in Hk as [Hq Hk].
  rewrite string_app_cons, (includes_sep w a _ q Hq). f_equal.
  by apply includes_skip.
Qed.

Lemma invalid_format_includes issueKey w :
  chars_all (λ c, negb (Ascii.eqb c (ascii_of_nat 34))) w = true →
  includes "Invalid issue key format: " w = false →
  includes ". Expected format: PROJECT-NUMBER (e.g., TES-1, KAN-123)." w
  = false →
  includes
    ("Invalid issue key format: " +:+ JiraService.quote +:+ issueKey
     +:+ JiraService.quote
     +:+ ". Expected format: PROJECT-NUMBER (e.g., TES-1, KAN-123).") w
  = includes issueKey w.
Proof.
  intros Hq Hpre Hsuf.
  change (JiraService.quote +:+ issueKey +:+ JiraService.quote +:+ ?s)
    with (String (ascii_of_nat 34) (issueKey +:+ String (ascii_of_nat 34) s)).
  rewrite !includes_sep by done. by rewrite Hpre, Hsuf, orb_false_r.
Qed.

Lemma key_char_not_in_words c :
  Js.is_upper c || Js.is_digit c || Ascii.eqb c "-" = true →
  chars_all (λ x, negb (Ascii.eqb x c)) "authentication" = true
  ∧ chars_all (λ x, negb (Ascii.eqb x c)) "forbidden" = true
  ∧ chars_all (λ x, negb (Ascii.eqb x c)) "not found" = true.
Proof. destruct c as [[] [] [] [] [] [] [] []]; try discriminate; done. Qed.

(** X28: the status of [POST /prelight] is read off the error text. A
    key that fails the format test is answered with the format error and
    403 when the key itself holds "authentication" or "forbidden", 404
    when it holds "not found", and 500 otherwise. For a key that passes,
    JIRA's 401 and 403 are both answered 403 and its 404 is answered 404,
    each with the service's own message; an issue that is found is
    answered with the analysis, whose [isUiStory] is true. *)
Theorem prelight_status baseUrl fetch issueKey :
  Js.truthy_str issueKey = true →
  let key := JiraService.normalize issueKey in
  let answer :=
    post_prelight (JiraService.getIssue baseUrl fetch) (Some issueKey) in
  (JiraService.is_issue_key key = false →
   answer
   = PrelightError
       (if includes issueKey "authentication" || includes issueKey "forbidden"
        then 403%nat
        else if includes issueKey "not found" then 404%nat else 500%nat)
       ("Invalid issue key format: " +:+ JiraService.quote +:+ issueKey
        +:+ JiraService.quote
        +:+ ". Expected format: PROJECT-NUMBER (e.g., TES-1, KAN-123)."))
  ∧ (JiraService.is_issue_key key = true →
     (∀ body,
        fetch (JiraService.url baseUrl key) = JiraService.NotOk 401 body →
        answer
        = PrelightError 403
            "JIRA authentication failed. Please check your JIRA_EMAIL and JIRA_API_TOKEN credentials.")
     ∧ (∀ body,
          fetch (JiraService.url baseUrl key) = JiraService.NotOk 403 body →
          answer
          = PrelightError 403
              ("JIRA access forbidden for issue " +:+ key +:+ "."))
     ∧ (∀ body,
          fetch (JiraService.url baseUrl key) = JiraService.NotOk 404 body →
          answer
          = PrelightError 404
              ("Issue " +:+ key
               +:+ " not found or you don't have permission to view it."))
     ∧ (∀ i,
          fetch (JiraService.url baseUrl key) = JiraService.Ok i →
          ∃ analysis,
            answer = PrelightOk analysis
            ∧ pl_isUiStory analysis = true
            ∧ pl_issueKey analysis = issueKey)).
Proof.
  intros Ht key answer. subst answer.
  unfold post_prelight, JiraService.getIssue. fold key. rewrite Ht.
  split.
  - intros Hk. rewrite Hk. cbn [negb].
    rewrite !invalid_format_includes by done. done.
  - intros Hk. rewrite Hk. cbn [negb].
    destruct (issue_key_chars key Hk) as [Hne Hchars].
    split_and!.
    + intros body ->. done.
    + intros body ->. cbn [Nat.eqb].
      rewrite (includes_app_l "JIRA access forbidden for issue " (key +:+ ".")
                 "forbidden" eq_refl).
      by rewrite orb_true_r.
    + intros body ->. cbn [Nat.eqb].
      assert (∀ w,
                chars_all (λ q, chars_all (λ c, negb (Ascii.eqb c q)) w) key
                = true →
                includes
                  ("Issue " +:+ key
                   +:+ " not found or you don't have permission to view it.") w
                = includes "Issue " w
                  || includes
                       " not found or you don't have permission to view it." w)
        as Hsplit by (intros w Hw; by apply includes_around).
      rewrite !Hsplit; [done|..];
        (eapply chars_all_impl; [|exact Hchars]); intros c Hc;
        by apply key_char_not_in_words in Hc as (? & ? & ?).
    + intros i ->. by eexists.
Qed.

Lemma prelight_status_witness :
  post_prelight (JiraService.getIssue jira_base fetch_missing)
    (Some "login not found")
  = PrelightError 404
      ("Invalid issue key format: " +:+ JiraService.quote +:+ "login not found"
       +:+ JiraService.quote
       +:+ ". Expected format: PROJECT-NUMBER (e.g., TES-1, KAN-123).")
  ∧ post_prelight (JiraService.getIssue jira_base fetch_missing)
      (Some " tes-1 ")
    = PrelightError 404
        "Issue TES-1 not found or you don't have permission to view it.".
Proof.
  split.
  - destruct (prelight_status jira_base fetch_missing "login not found"
                eq_refl) as [H _].
    exact (H eq_refl).
  - destruct (prelight_status jira_base fetch_missing " tes-1 " eq_refl)
      as [_ H].
    destruct (H eq_refl) as (_ & _ & H404 & _).
    exact (H404 _ eq_refl).
Defined.

(** X29: a key that fails the format test fails the generation without
    JIRA being asked: whatever [fetch] would answer, [POST /testcases] is
    answered 404 with the format error, and the generation is stored for
    the caller under the key as given, failed, with that error and no
    result. *)
Theorem malformed_key_fails_generation actor key autoMode w s baseUrl
    fetch :
  Js.truthy_str key = true →
  jira w
  = Some (λ k,
            JiraService.issue_view (JiraService.getIssue baseUrl fetch k)) →
  JiraService.is_issue_key (JiraService.normalize key) = false →
  let message :=
    "Invalid issue key format: " +:+ JiraService.quote +:+ key
    +:+ JiraService.quote
    +:+ ". Expected format: PROJECT-NUMBER (e.g., TES-1, KAN-123)." in
  ∃ s' g,
    post_testcases actor
      {| body_issueKey := Some key; body_autoMode := autoMode |} w s
    = Some (s', {| code := 404; sent := Failure message |})
    ∧ generations s' !! next_oid (attach_project actor key (now w) s).1
      = Some g
    ∧ email g = actor ∧ issueKey g = key
    ∧ status g = Some "failed" ∧ error g = Some message ∧ result g = None.
Proof.
  intros Ht Hj Hk message.
  destruct (post_testcases_cases actor key autoMode w s Ht)
    as [[Hj' _]|(g' & resp & Hout & E)]; [congruence|].
  rewrite E.
  assert (JiraService.issue_view
            (JiraService.getIssue baseUrl fetch key)
          = IssueFailed message) as Hfail.
  { unfold JiraService.getIssue. by rewrite Hk. }
  destruct Hout as [f err Hj1 Hf|f sm ds n m Hj1 Hf Hg|f sm ds n c u Hj1 Hf Hg];
    rewrite Hj in Hj1; injection Hj1 as <-; simpl in Hf;
    rewrite Hfail in Hf; [|done|done].
  injection Hf as <-. eexists _, _. split; [done|].
  split; [rewrite lookup_with_record; by case_decide|]. done.
Qed.

Lemma malformed_key_fails_generation_witness :
  let message :=
    "Invalid issue key format: " +:+ JiraService.quote +:+ "TES1-X"
    +:+ JiraService.quote
    +:+ ". Expected format: PROJECT-NUMBER (e.g., TES-1, KAN-123)." in
  ∃ s' g,
    post_testcases qa
      {| body_issueKey := Some "TES1-X"; body_autoMode := false |}
      world_fetching empty_store
    = Some (s', {| code := 404; sent := Failure message |})
    ∧ generations s'
        !! next_oid (attach_project qa "TES1-X" (now world_fetching)
                       empty_store).1
      = Some g
    ∧ email g = qa ∧ issueKey g = "TES1-X"
    ∧ status g = Some "failed" ∧ error g = Some message ∧ result g = None.
Proof.
  apply (malformed_key_fails_generation qa "TES1-X" false world_fetching
           empty_store jira_base fetch_missing); reflexivity.
Defined.

(** ** Extras on the UI detection *)

(** X30: what [checkIfUiStory] decides, by the numbers of UI and backend
    keywords found in the issue text. More than two UI keywords: it is a
    UI story, however many backend keywords there are. Otherwise, more
    backend than UI keywords: it is not. Otherwise the check function is
    asked and its answer returned; without a check function, or when the
    check throws, the story counts as a UI story. The test for more than
    five backend keywords and the comparison in the fallback decide
    nothing. *)
Theorem checkIfUiStory_decision issueData openaiCheckFn :
  let backend := length (UiDetection.found UiDetection.BACKEND_KEYWORDS issueData) in
  let ui := length (UiDetection.found UiDetection.UI_KEYWORDS issueData) in
  UiDetection.checkIfUiStory issueData openaiCheckFn
  = if decide (2 < ui)%nat then true
    else if decide (ui < backend)%nat then false
    else match openaiCheckFn with
         | Some check =>
             match check (UiDetection.context issueData) with
             | UiDetection.Answers isUiStory => isUiStory
             | UiDetection.Throws => true
             end
         | None => true
         end.
Proof.
  intros backend ui. unfold UiDetection.checkIfUiStory. fold backend ui.
  destruct (Nat.ltb_spec 2 ui); [by rewrite decide_True|].
  rewrite decide_False by lia.
  destruct (Nat.ltb_spec ui backend).
  - rewrite decide_True by done. by destruct (_ && _).
  - rewrite decide_False by lia.
    destruct (Nat.ltb_spec 5 backend); [lia|]. simpl.
    destruct (Nat.leb_spec backend ui); [done|lia].
Qed.
